(** * Frescobaldi: music font registries and the VCS document tracker

    A shallow embedding of [frescobaldi_app/fonts/musicfonts.py] (the
    classes [MusicFontFile], [MusicFontFamily], [AbstractMusicFontList],
    [MusicFontRepo], [InstalledMusicFonts]) and of
    [frescobaldi_app/vcs/manager.py] ([VCSManager]), with the properties
    of the design document proved or refuted on it.

    Conventions.
    - Python [str] is [string]; a character is an 8-bit code point
      ([ascii]), on which the pattern [\d] is the digits 0-9.
    - A Python [dict] whose iteration order is observable (the slots of
      a family, the families of a registry) is an association list in
      insertion order; assigning to a present key keeps its position.
    - The file system is a finite map from path to node; paths are the
      strings the program passes around, link targets are looked up as
      they are written (POSIX [os.path] functions).  What the host
      decides (whether it has symbolic links, which calls it refuses,
      the text of its errors, the order of a directory scan) is part of
      the world the functions run in.
    - A method that mutates [self] takes the old value and returns the
      new one; a method that can raise returns an [outcome]. *)

From Stdlib Require Import Ascii String List Bool Arith Lia Sorted.
From stdpp Require Import base option gmap strings list fin_maps.
Import ListNotations.
Local Open Scope string_scope.
Local Open Scope list_scope.
Local Open Scope nat_scope.

(** ** Strings *)

Module Str.

Definition chars (s : string) : list ascii := list_ascii_of_string s.
Definition of_chars (l : list ascii) : string := string_of_list_ascii l.

Definition nl : ascii := ascii_of_nat 10.
Definition slash : ascii := "/"%char.

(** [sep.join(parts)] *)
Fixpoint join (sep : string) (parts : list string) : string :=
  match parts with
  | [] => ""
  | [p] => p
  | p :: ps => (p ++ sep ++ join sep ps)%string
  end.

(** [s.startswith(c)], [s.endswith(c)] for a one-character [c]. *)
Definition startswith (c : ascii) (s : string) : bool :=
  match s with String d _ => Ascii.eqb c d | EmptyString => false end.

Definition endswith (c : ascii) (s : string) : bool :=
  match rev (chars s) with d :: _ => Ascii.eqb c d | [] => false end.

(** [template.format(arg)] for a template with one [{}] field: the first
    [{}] is replaced by [arg]. *)
Fixpoint format_chars (t : list ascii) (arg : list ascii) : list ascii :=
  match t with
  | "{"%char :: "}"%char :: rest => arg ++ rest
  | c :: rest => c :: format_chars rest arg
  | [] => []
  end.

Definition format (template arg : string) : string :=
  of_chars (format_chars (chars template) (chars arg)).

End Str.

(** ** [os.path] (posixpath) *)

Module OsPath.

(** [basename(p)]: what follows the last slash. *)
Fixpoint basename_chars (p : list ascii) : list ascii :=
  match p with
  | [] => []
  | c :: rest =>
      if existsb (Ascii.eqb Str.slash) rest then basename_chars rest
      else if Ascii.eqb Str.slash c then rest else c :: rest
  end.

Definition basename (p : string) : string :=
  Str.of_chars (basename_chars (Str.chars p)).

(** [join(a, b)]: an absolute [b] replaces [a]; otherwise [b] is appended,
    with a slash unless [a] is empty or ends in one. *)
Definition join (a b : string) : string :=
  if Str.startswith Str.slash b then b
  else if (String.eqb a "" || Str.endswith Str.slash a)%bool then (a ++ b)%string
  else (a ++ "/" ++ b)%string.

Definition join3 (a b c : string) : string := join (join a b) c.

End OsPath.

(** ** Regular expressions, as the [re] module matches them

    The fragment [font_re] is written in: literals, [.], [\d],
    a greedy star over a one-character atom, concatenation, alternation,
    named groups and [$].  [run] lists every way the pattern matches a
    prefix of the input in the order the backtracking matcher tries
    them, so that [re.match] is the head of that list. *)

Module Re.

Inductive atom :=
| Lit (c : ascii)
| Dot
| Digit.

Inductive regex :=
| Eps
| Atom (a : atom)
| Star (a : atom)
| Cat (r1 r2 : regex)
| Alt (r1 r2 : regex)
| Group (name : string) (r : regex)
| Eol.

Definition is_digit (c : ascii) : bool :=
  let n := nat_of_ascii c in (48 <=? n) && (n <=? 57).

Definition atom_ok (a : atom) (c : ascii) : bool :=
  match a with
  | Lit d => Ascii.eqb d c
  | Dot => negb (Ascii.eqb c Str.nl)
  | Digit => is_digit c
  end.

(** The groups captured so far: name and matched text. *)
Definition groups := list (string * string).

Fixpoint group (name : string) (g : groups) : option string :=
  match g with
  | [] => None
  | (n, v) :: rest => if String.eqb n name then Some v else group name rest
  end.

(** Greedy star: the longest run first, then shorter ones. *)
Fixpoint star_rests (a : atom) (s : list ascii) : list (list ascii) :=
  match s with
  | c :: rest => if atom_ok a c then star_rests a rest ++ [s] else [s]
  | [] => [[]]
  end.

(** [$]: at the end of the string, or before a newline that ends it. *)
Definition at_eol (s : list ascii) : bool :=
  match s with
  | [] => true
  | [c] => Ascii.eqb c Str.nl
  | _ => false
  end.

(** [run r s g]: the matches of [r] at the start of [s], each with the
    unread rest of the input and the groups. *)
Fixpoint run (r : regex) (s : list ascii) (g : groups)
  : list (list ascii * groups) :=
  match r with
  | Eps => [(s, g)]
  | Atom a =>
      match s with
      | c :: rest => if atom_ok a c then [(rest, g)] else []
      | [] => []
      end
  | Star a => map (fun rest => (rest, g)) (star_rests a s)
  | Cat r1 r2 => flat_map (fun m => run r2 (fst m) (snd m)) (run r1 s g)
  | Alt r1 r2 => run r1 s g ++ run r2 s g
  | Group name r1 =>
      map (fun m =>
             (fst m,
              (name, Str.of_chars (firstn (length s - length (fst m)) s))
                :: snd m))
          (run r1 s g)
  | Eol => if at_eol s then [(s, g)] else []
  end.

(** [pattern.match(s)]: the first match at position 0, or [None]. *)
Definition rmatch (r : regex) (s : string) : option groups :=
  match run r (Str.chars s) [] with
  | m :: _ => Some (snd m)
  | [] => None
  end.

(** A literal word. *)
Fixpoint word_chars (w : list ascii) : regex :=
  match w with
  | [] => Eps
  | [c] => Atom (Lit c)
  | c :: rest => Cat (Atom (Lit c)) (word_chars rest)
  end.

Definition word (w : string) : regex := word_chars (Str.chars w).

End Re.

(** ** Exceptions and outcomes *)

Inductive exn :=
| MusicFontException (msg : string)
| MusicFontPermissionException (msg : string)
| MusicFontFileRemoveException (msg : string)
| KeyError (key : string)
| AttributeError (msg : string).

(** What a call leaves behind: the state it reached and either its value
    or the exception it raised (Python keeps the mutations made before a
    [raise]). *)
Inductive outcome (S A : Type) :=
| Ret (a : A) (s : S)
| Raise (e : exn) (s : S).
Arguments Ret {S A} a s.
Arguments Raise {S A} e s.

Definition state_of {S A} (o : outcome S A) : S :=
  match o with Ret _ s => s | Raise _ s => s end.

Definition raised {S A} (o : outcome S A) : option exn :=
  match o with Ret _ _ => None | Raise e _ => Some e end.

(** ** Font files and families *)

Inductive MusicFontStatus := FILE | MISSING_FILE | LINK | BROKEN_LINK | MISSING.

Inductive ftype := otf | svg | woff.

Definition ftype_name (t : ftype) : string :=
  match t with otf => "otf" | svg => "svg" | woff => "woff" end.

Definition ftype_of_name (s : string) : option ftype :=
  if String.eqb s "otf" then Some otf
  else if String.eqb s "svg" then Some svg
  else if String.eqb s "woff" then Some woff
  else None.

(** [font_re]: group [family] is a greedy star of [.]; then a hyphen;
    group [size] is [brace|\d\d]; then an escaped dot; group [type] is
    [otf|svg|woff]; then [$]. *)
Definition font_re : Re.regex :=
  Re.Cat (Re.Group "family" (Re.Star Re.Dot))
 (Re.Cat (Re.Atom (Re.Lit "-"%char))
 (Re.Cat (Re.Group "size"
            (Re.Alt (Re.word "brace")
                    (Re.Cat (Re.Atom Re.Digit) (Re.Atom Re.Digit))))
 (Re.Cat (Re.Atom (Re.Lit "."%char))
 (Re.Cat (Re.Group "type"
            (Re.Alt (Re.word "otf") (Re.Alt (Re.word "svg") (Re.word "woff"))))
         Re.Eol)))).

(** [MusicFontFamily.parse_filename]: the match object, or [None]. *)
Definition parse_filename (file : string) : option Re.groups :=
  Re.rmatch font_re (OsPath.basename file).

(** The three named groups of a match, in the order
    [font['family'], font['type'], font['size']]. *)
Definition font_groups (m : Re.groups) : option (string * string * string) :=
  match Re.group "family" m, Re.group "type" m, Re.group "size" m with
  | Some f, Some t, Some s => Some (f, t, s)
  | _, _, _ => None
  end.

Definition parse_triplet (file : string) : option (string * string * string) :=
  match parse_filename file with
  | Some m => font_groups m
  | None => None
  end.

(** ** The file system and the host

    A path names at most one node.  [os.path.exists], [Path.exists] and
    [Path.is_file] follow symbolic links (at most 40 of them, as Linux
    does before it gives up with ELOOP); [Path.is_symlink] does not. *)

Inductive node :=
| NFile (data : string)
| NLink (target : string)
| NDir
| NOther.                              (* fifo, socket, device *)

Inductive os_op :=
| OpSymlink (src dst : string)
| OpCopy (src dst : string)
| OpUnlink (path : string).

Record World := {
  nodes : gmap string node;
  (** what [os.walk(root)] yields: [(dir, dirs, files)] in scan order *)
  walk_of : string -> list (string * list string * list string);
  (** [false]: [os.symlink] raises [NotImplementedError] on this host *)
  symlinks : bool;
  (** the host refuses the call (permissions, read-only medium, ...) *)
  denied : os_op -> bool;
  (** [str(e)] of the [OSError] a failing call raises *)
  os_error : os_op -> string
}.

Definition with_nodes (w : World) (m : gmap string node) : World :=
  {| nodes := m; walk_of := walk_of w; symlinks := symlinks w;
     denied := denied w; os_error := os_error w |}.

Definition max_links : nat := 40.

Fixpoint stat_fuel (fuel : nat) (m : gmap string node) (p : string) : option node :=
  match m !! p with
  | Some (NLink t) =>
      match fuel with
      | O => None
      | S k => stat_fuel k m t
      end
  | o => o
  end.

Definition os_stat (w : World) (p : string) : option node :=
  stat_fuel max_links (nodes w) p.

Definition path_exists (w : World) (p : string) : bool :=
  match os_stat w p with Some _ => true | None => false end.

Definition is_symlink (w : World) (p : string) : bool :=
  match nodes w !! p with Some (NLink _) => true | _ => false end.

Definition is_file (w : World) (p : string) : bool :=
  match os_stat w p with Some (NFile _) => true | _ => false end.

Inductive os_result :=
| OsOk (w : World)
| OsNotImplemented
| OsError (msg : string).

(** [os.symlink(src, dst)]: creates the link when nothing is at [dst];
    [src] is not looked at. *)
Definition os_symlink (w : World) (src dst : string) : os_result :=
  if negb (symlinks w) then OsNotImplemented
  else if denied w (OpSymlink src dst) then OsError (os_error w (OpSymlink src dst))
  else match nodes w !! dst with
       | Some _ => OsError (os_error w (OpSymlink src dst))
       | None => OsOk (with_nodes w (<[dst := NLink src]> (nodes w)))
       end.

(** Where a write to [p] lands: links at [p] are followed. *)
Fixpoint write_path (fuel : nat) (m : gmap string node) (p : string) : option string :=
  match m !! p with
  | Some (NLink t) =>
      match fuel with
      | O => None
      | S k => write_path k m t
      end
  | Some (NFile _) | None => Some p
  | Some _ => None
  end.

(** [shutil.copyfile(src, dst)]: the bytes of the regular file that
    [src] leads to are written where [dst] leads; copying a file onto
    itself is an error ([SameFileError], an [OSError]). *)
Definition copyfile (w : World) (src dst : string) : os_result :=
  if denied w (OpCopy src dst) then OsError (os_error w (OpCopy src dst))
  else match os_stat w src, write_path max_links (nodes w) src,
             write_path max_links (nodes w) dst with
       | Some (NFile data), Some p, Some q =>
           if String.eqb p q then OsError (os_error w (OpCopy src dst))
           else OsOk (with_nodes w (<[q := NFile data]> (nodes w)))
       | _, _, _ => OsError (os_error w (OpCopy src dst))
       end.

(** [Path.unlink()]: removes the file or link itself. *)
Definition os_unlink (w : World) (p : string) : os_result :=
  if denied w (OpUnlink p) then OsError (os_error w (OpUnlink p))
  else match nodes w !! p with
       | Some NDir | None => OsError (os_error w (OpUnlink p))
       | Some _ => OsOk (with_nodes w (delete p (nodes w)))
       end.

(** ** [pathlib]: [str(Path(p))] on POSIX

    Repeated slashes, [.] components and a trailing slash are dropped;
    exactly two leading slashes are kept. *)

Module Pathlib.

Fixpoint split_slash (cur : list ascii) (p : list ascii) : list (list ascii) :=
  match p with
  | [] => [rev cur]
  | c :: rest =>
      if Ascii.eqb c Str.slash then rev cur :: split_slash [] rest
      else split_slash (c :: cur) rest
  end.

Definition keep_part (part : list ascii) : bool :=
  match part with
  | [] => false
  | ["."%char] => false
  | _ => true
  end.

Definition root_of (p : list ascii) : list ascii :=
  match p with
  | "/"%char :: "/"%char :: "/"%char :: _ => ["/"%char]
  | "/"%char :: "/"%char :: _ => ["/"%char; "/"%char]
  | "/"%char :: _ => ["/"%char]
  | _ => []
  end.

Fixpoint join_slash (parts : list (list ascii)) : list ascii :=
  match parts with
  | [] => []
  | [x] => x
  | x :: rest => x ++ "/"%char :: join_slash rest
  end.

Definition str_path (p : string) : string :=
  let cs := Str.chars p in
  let parts := filter (fun x => Is_true (keep_part x)) (split_slash [] cs) in
  match root_of cs, parts with
  | [], [] => "."
  | r, ps => Str.of_chars (r ++ join_slash ps)
  end.

End Pathlib.

(** ** Ordered dictionaries with string keys *)

Module Dict.
Section Dict.
Context {V : Type}.

Definition t := list (string * V).

Fixpoint get (k : string) (d : t) : option V :=
  match d with
  | [] => None
  | (k', v) :: rest => if String.eqb k' k then Some v else get k rest
  end.

(** [d[k] = v]: in place when [k] is present, appended otherwise. *)
Fixpoint set (k : string) (v : V) (d : t) : t :=
  match d with
  | [] => [(k, v)]
  | (k', v') :: rest =>
      if String.eqb k' k then (k', v) :: rest else (k', v') :: set k v rest
  end.

(** [d.pop(k, None)] *)
Fixpoint pop (k : string) (d : t) : t :=
  match d with
  | [] => []
  | (k', v') :: rest =>
      if String.eqb k' k then rest else (k', v') :: pop k rest
  end.

Definition keys (d : t) : list string := map fst d.

Definition has (k : string) (d : t) : bool :=
  match get k d with Some _ => true | None => false end.

End Dict.
Arguments t : clear implicits.
End Dict.

(** [sorted(names)]: by code point, as Python compares [str]. *)
Fixpoint insert_sorted (x : string) (l : list string) : list string :=
  match l with
  | [] => [x]
  | y :: rest => if String.leb x y then x :: l else y :: insert_sorted x rest
  end.

Definition sorted (l : list string) : list string := fold_right insert_sorted [] l.

(** ** [MusicFontFile] *)

Module MusicFontFile.

Record t := {
  file : string;
  status : option MusicFontStatus;     (* [None] until first queried *)
  install : bool
}.

Definition init (f : string) : t :=
  {| file := f; status := None; install := false |}.

Definition set_status (x : t) (s : MusicFontStatus) : t :=
  {| file := file x; status := Some s; install := install x |}.

Definition set_install (x : t) : t :=
  {| file := file x; status := status x; install := true |}.

End MusicFontFile.

(** A pure call that can raise. *)
Inductive result (A : Type) :=
| Ok (a : A)
| Err (e : exn).
Arguments Ok {A} a.
Arguments Err {A} e.

(** [s in [MusicFontStatus.FILE, MusicFontStatus.LINK]] *)
Definition usable (s : MusicFontStatus) : bool :=
  match s with FILE | LINK => true | _ => false end.

(** ** [MusicFontFamily] *)

Module MusicFontFamily.

Record t := {
  family : option string;
  files_otf : Dict.t MusicFontFile.t;
  files_svg : Dict.t MusicFontFile.t;
  files_woff : Dict.t MusicFontFile.t
}.

Definition types : list ftype := [otf; svg; woff].

Definition sizes_list : list string :=
  ["11"; "13"; "14"; "16"; "18"; "20"; "23"; "26"]%string.

(** [self._files[type]] *)
Definition files (x : t) (ty : ftype) : Dict.t MusicFontFile.t :=
  match ty with
  | otf => files_otf x
  | svg => files_svg x
  | woff => files_woff x
  end.

Definition set_files (x : t) (ty : ftype) (d : Dict.t MusicFontFile.t) : t :=
  match ty with
  | otf => {| family := family x; files_otf := d;
              files_svg := files_svg x; files_woff := files_woff x |}
  | svg => {| family := family x; files_otf := files_otf x;
              files_svg := d; files_woff := files_woff x |}
  | woff => {| family := family x; files_otf := files_otf x;
               files_svg := files_svg x; files_woff := d |}
  end.

Definition set_family (x : t) (name : string) : t :=
  {| family := Some name; files_otf := files_otf x;
     files_svg := files_svg x; files_woff := files_woff x |}.

Definition empty : t :=
  {| family := None; files_otf := []; files_svg := []; files_woff := [] |}.

(** [check_file]: family, type and size of an existing music font file. *)
Definition check_file (w : World) (file : string) : result (string * ftype * string) :=
  if negb (path_exists w file) then
    Err (MusicFontException
           (file ++ " does not point to an existing file or link"))
  else
    match parse_filename file with
    | None =>
        Err (MusicFontException
               ("File " ++ file ++ " does not appear to be a valid font file"))
    | Some m =>
        match font_groups m with
        | Some (fam, tyname, size) =>
            match ftype_of_name tyname with
            | Some ty => Ok (fam, ty, size)
            | None => Err (KeyError tyname)
            end
        | None => Err (KeyError "family")
        end
    end.

(** [add]: existing entries are silently overwritten. *)
Definition add (x : t) (ty : ftype) (size file : string) : t :=
  set_files x ty (Dict.set size (MusicFontFile.init file) (files x ty)).

(** Truth value of [self.family]: [None] and the empty string are false. *)
Definition family_set (x : t) : bool :=
  match family x with
  | Some n => negb (String.eqb n "")
  | None => false
  end.

Definition add_file (w : World) (x : t) (file : string) : result t :=
  match check_file w file with
  | Err e => Err e
  | Ok (fam, ty, size) =>
      if family_set x && negb (bool_decide (family x = Some fam)) then
        Err (MusicFontException
               ("File " ++ file ++ " does not belong to font family "
                ++ match family x with Some n => n | None => "None" end))
      else
        let x1 := if negb (family_set x) then set_family x fam else x in
        Ok (add x1 ty size file)
  end.

(** [MusicFontFamily(file)] *)
Definition init (w : World) (file : option string) : result t :=
  match file with
  | None => Ok empty
  | Some f => if String.eqb f "" then Ok empty else add_file w empty f
  end.

Definition flag_all_for_install (x : t) : t :=
  fold_left
    (fun acc ty =>
       fold_left
         (fun acc size =>
            match Dict.get size (files acc ty) with
            | Some f =>
                set_files acc ty
                  (Dict.set size (MusicFontFile.set_install f) (files acc ty))
            | None => acc
            end)
         (Dict.keys (files x ty)) acc)
    types x.

(** What [Path(file)] is on disk, symlink first. *)
Definition resolve (w : World) (file : string) : MusicFontStatus :=
  if is_symlink w file then
    if path_exists w file then LINK else BROKEN_LINK
  else if is_file w file then FILE
  else MISSING_FILE.

(** [status]: the value returned and [self] with the status memoized. *)
Definition status (w : World) (x : t) (ty : ftype) (size : string)
  : MusicFontStatus * t :=
  match Dict.get size (files x ty) with
  | None => (MISSING, x)
  | Some font =>
      match MusicFontFile.status font with
      | Some s => (s, x)
      | None =>
          let s := resolve w (MusicFontFile.file font) in
          (s, set_files x ty
                (Dict.set size (MusicFontFile.set_status font s) (files x ty)))
      end
  end.

(** One pass of the loop body of [flag_for_install], on the pair
    (self, target_family): the target is queried only when the own
    status is usable. *)
Definition flag_slot (w : World) (ty : ftype) (size : string) (st : t * t) : t * t :=
  let '(self, target) := st in
  let '(s1, self1) := status w self ty size in
  if usable s1 then
    let '(s2, target1) := status w target ty size in
    if negb (usable s2) then
      match Dict.get size (files self1 ty) with
      | Some f =>
          (set_files self1 ty
             (Dict.set size (MusicFontFile.set_install f) (files self1 ty)),
           target1)
      | None => (self1, target1)
      end
    else (self1, target1)
  else (self1, target).

Definition flag_for_install (w : World) (self target : t) : t * t :=
  fold_left
    (fun st ty =>
       fold_left (fun st size => flag_slot w ty size st)
                 (Dict.keys (files self ty)) st)
    types (self, target).

Definition has_brace (x : t) (ty : ftype) : bool := Dict.has "brace" (files x ty).

Definition sizes (x : t) (ty : ftype) : list string := sorted (Dict.keys (files x ty)).

Definition missing_sizes (x : t) (ty : ftype) : list string :=
  List.filter (fun size => negb (existsb (String.eqb size) (sizes x ty))) sizes_list.

Definition is_complete_type (x : t) (ty : ftype) : bool :=
  has_brace x ty && match missing_sizes x ty with [] => true | _ => false end.

Definition is_complete (x : t) (ty : option ftype) : bool :=
  match ty with
  | Some ty => is_complete_type x ty
  | None => is_complete_type x otf && is_complete_type x svg && is_complete_type x woff
  end.

Definition remove (x : t) (ty : ftype) (size : string) : t :=
  set_files x ty (Dict.pop size (files x ty)).

(** [walk]: type, size and file of every registered font. *)
Definition walk (x : t) : list (ftype * string * MusicFontFile.t) :=
  flat_map
    (fun ty =>
       omap (fun size =>
               match Dict.get size (files x ty) with
               | Some f => Some (ty, size, f)
               | None => None
               end)
            (Dict.keys (files x ty)))
    types.

End MusicFontFamily.

(** ** [AbstractMusicFontList] *)

Module AbstractMusicFontList.

(** [self._families] *)
Definition t := Dict.t MusicFontFamily.t.

(** [clear] *)
Definition empty : t := [].

Definition add_file (w : World) (reg : t) (file : string) : result t :=
  match MusicFontFamily.check_file w file with
  | Err e => Err e
  | Ok (fam, ty, size) =>
      match Dict.get fam reg with
      | None =>
          match MusicFontFamily.init w (Some file) with
          | Ok x => Ok (Dict.set fam x reg)
          | Err e => Err e
          end
      | Some x => Ok (Dict.set fam (MusicFontFamily.add x ty size file) reg)
      end
  end.

Definition families (reg : t) : list string := sorted (Dict.keys reg).

Definition family (reg : t) (name : string) : option MusicFontFamily.t :=
  Dict.get name reg.

(** The body of the inner loop of [add_tree]: a failing [add_file] is
    ignored. *)
Definition try_add_file (w : World) (reg : t) (file : string) : t :=
  match add_file w reg file with
  | Ok reg' => reg'
  | Err _ => reg
  end.

Definition add_tree (w : World) (reg : t) (root : string) : t :=
  fold_left
    (fun reg '(dir, _, files) =>
       fold_left
         (fun reg file => try_add_file w reg (OsPath.join dir file))
         files reg)
    (walk_of w root) reg.

(** [walk]: family name, type, size and file of every font. *)
Definition walk (reg : t) : list (string * ftype * string * MusicFontFile.t) :=
  flat_map
    (fun name =>
       match family reg name with
       | Some x => map (fun '(ty, size, f) => (name, ty, size, f)) (MusicFontFamily.walk x)
       | None => []
       end)
    (Dict.keys reg).

End AbstractMusicFontList.

(** ** [MusicFontRepo] *)

Module MusicFontRepo.

Record t := {
  families : AbstractMusicFontList.t;
  root : string;
  installable_fonts : AbstractMusicFontList.t
}.

Definition init (w : World) (root : string) : t :=
  {| families := AbstractMusicFontList.add_tree w AbstractMusicFontList.empty root;
     root := root;
     installable_fonts := AbstractMusicFontList.empty |}.

Definition with_families (r : t) (f : AbstractMusicFontList.t) : t :=
  {| families := f; root := root r; installable_fonts := installable_fonts r |}.

Definition with_installable (r : t) (f : AbstractMusicFontList.t) : t :=
  {| families := families r; root := root r; installable_fonts := f |}.

(** The first loop of [flag_for_install] for one family name; the state
    is the pair (families of the repo, families of [installed]). *)
Definition flag_family (w : World) (name : string)
    (st : AbstractMusicFontList.t * AbstractMusicFontList.t)
  : AbstractMusicFontList.t * AbstractMusicFontList.t :=
  let '(mine, theirs) := st in
  match AbstractMusicFontList.family mine name with
  | None => st
  | Some repo_family =>
      match AbstractMusicFontList.family theirs name with
      | None =>
          (Dict.set name (MusicFontFamily.flag_all_for_install repo_family) mine,
           theirs)
      | Some target_family =>
          let '(rf, tf) := MusicFontFamily.flag_for_install w repo_family target_family in
          (Dict.set name rf mine, Dict.set name tf theirs)
      end
  end.

Definition flag_families (w : World)
    (mine theirs : AbstractMusicFontList.t)
  : AbstractMusicFontList.t * AbstractMusicFontList.t :=
  fold_left (fun st name => flag_family w name st) (Dict.keys mine) (mine, theirs).

(** The second loop: every flagged file is added, by path, to
    [installable_fonts]; the first failing [add_file] ends it. *)
Fixpoint collect (w : World) (fonts : list (string * ftype * string * MusicFontFile.t))
    (acc : AbstractMusicFontList.t) : outcome AbstractMusicFontList.t unit :=
  match fonts with
  | [] => Ret tt acc
  | (_, _, _, font) :: rest =>
      if MusicFontFile.install font then
        match AbstractMusicFontList.add_file w acc (MusicFontFile.file font) with
        | Ok acc' => collect w rest acc'
        | Err e => Raise e acc
        end
      else collect w rest acc
  end.

(** [flag_for_install(installed)]; the state is the repo together with
    the families of [installed], whose statuses the call memoizes. *)
Definition flag_for_install (w : World) (r : t) (installed : AbstractMusicFontList.t)
  : outcome (t * AbstractMusicFontList.t) unit :=
  let '(mine, theirs) := flag_families w (families r) installed in
  match collect w (AbstractMusicFontList.walk mine) AbstractMusicFontList.empty with
  | Ret _ inst =>
      Ret tt ({| families := mine; root := root r; installable_fonts := inst |}, theirs)
  | Raise e inst =>
      Raise e ({| families := mine; root := root r; installable_fonts := inst |}, theirs)
  end.

End MusicFontRepo.

(** ** [InstalledMusicFonts] *)

Module InstalledMusicFonts.

Record t := {
  families : AbstractMusicFontList.t;
  font_root : string
}.

Definition with_families (r : t) (f : AbstractMusicFontList.t) : t :=
  {| families := f; font_root := font_root r |}.

(** [InstalledMusicFonts(lilypond_info)], given [lilypond_info.datadir()]. *)
Definition init (w : World) (datadir : string) : t :=
  let fr := OsPath.join datadir "fonts" in
  {| families := AbstractMusicFontList.add_tree w AbstractMusicFontList.empty fr;
     font_root := fr |}.

(** [font_dir]: SVG and WOFF share a directory. *)
Definition font_dir (r : t) (ty : ftype) : string :=
  OsPath.join (font_root r) (match ty with otf => "otf" | _ => "svg" end).

Definition target_of (r : t) (ty : ftype) (font_file : string) : string :=
  OsPath.join3 (font_root r) (font_dir r ty) (OsPath.basename font_file).

Section Translated.

(** The translation function [_] of the application. *)
Variable tr : string -> string.

Definition install_failed (msg : string) : exn :=
  MusicFontPermissionException
    (Str.format (tr ("Font installation failed:" ++ String Str.nl "{}")) msg).

Definition removal_failed (msg : string) : exn :=
  MusicFontPermissionException
    (Str.format (tr ("Font removal failed:" ++ String Str.nl "{}")) msg).

(** [self.add_file(target)], the last statement of [install]. *)
Definition register (w : World) (r : t) (target : string) : outcome (World * t) unit :=
  match AbstractMusicFontList.add_file w (families r) target with
  | Ok f => Ret tt (w, with_families r f)
  | Err e => Raise e (w, r)
  end.

(** [install(type, font_file, copy=True)] *)
Definition install_copy (w : World) (r : t) (ty : ftype) (font_file : string)
  : outcome (World * t) unit :=
  let target := target_of r ty font_file in
  match copyfile w font_file target with
  | OsOk w' => register w' r target
  | OsError msg => Raise (install_failed msg) (w, r)
  | OsNotImplemented => Raise (install_failed "") (w, r)   (* not an outcome of [copyfile] *)
  end.

(** [install(type, font_file, copy)] *)
Definition install (w : World) (r : t) (ty : ftype) (font_file : string) (copy : bool)
  : outcome (World * t) unit :=
  if copy then install_copy w r ty font_file
  else
    let target := target_of r ty font_file in
    match os_symlink w font_file target with
    | OsOk w' => register w' r target
    | OsNotImplemented =>
        match install_copy w r ty font_file with
        | Ret _ (w', r') => register w' r' target
        | Raise e st => Raise e st
        end
    | OsError msg => Raise (install_failed msg) (w, r)
    end.

(** The loop [for link in links: link.unlink()]. *)
Fixpoint unlink_all (w : World) (links : list string) : World * option string :=
  match links with
  | [] => (w, None)
  | p :: rest =>
      match os_unlink w p with
      | OsOk w' => unlink_all w' rest
      | OsError msg => (w, Some msg)
      | OsNotImplemented => (w, Some "")   (* not an outcome of [os_unlink] *)
      end
  end.

(** The lists [links] and [files] the loop over [family.walk()] builds. *)
Definition links_of (w : World) (x : MusicFontFamily.t) : list string :=
  omap (fun '(_, _, font) =>
          if is_symlink w (MusicFontFile.file font)
          then Some (MusicFontFile.file font) else None)
       (MusicFontFamily.walk x).

Definition files_of (w : World) (x : MusicFontFamily.t) : list string :=
  omap (fun '(_, _, font) =>
          if is_symlink w (MusicFontFile.file font)
          then None else Some (Pathlib.str_path (MusicFontFile.file font)))
       (MusicFontFamily.walk x).

(** The body of the loop of [remove], for one family name. *)
Definition remove_family (w : World) (r : t) (family_name : string)
  : outcome (World * t) unit :=
  match AbstractMusicFontList.family (families r) family_name with
  | None => Raise (AttributeError "'NoneType' object has no attribute 'walk'") (w, r)
  | Some x =>
      match files_of w x with
      | (_ :: _) as files =>
          Raise (MusicFontFileRemoveException (tr (Str.join (String Str.nl "") files)))
                (w, r)
      | [] =>
          match unlink_all w (links_of w x) with
          | (w', Some msg) => Raise (removal_failed msg) (w', r)
          | (w', None) =>
              Ret tt (w', with_families r (Dict.pop family_name (families r)))
          end
      end
  end.

(** [remove(indexes)], given the family names [index.data()]. *)
Fixpoint remove (w : World) (r : t) (names : list string) : outcome (World * t) unit :=
  match names with
  | [] => Ret tt (w, r)
  | name :: rest =>
      match remove_family w r name with
      | Ret _ (w', r') => remove w' r' rest
      | Raise e st => Raise e st
      end
  end.

End Translated.

End InstalledMusicFonts.

(** [MusicFontRepo.install_flagged(target)] *)
Fixpoint install_all (tr : string -> string) (w : World) (target : InstalledMusicFonts.t)
    (fonts : list (string * ftype * string * MusicFontFile.t))
  : outcome (World * InstalledMusicFonts.t) unit :=
  match fonts with
  | [] => Ret tt (w, target)
  | (_, ty, _, font) :: rest =>
      match InstalledMusicFonts.install tr w target ty (MusicFontFile.file font) false with
      | Ret _ (w', target') => install_all tr w' target' rest
      | Raise e st => Raise e st
      end
  end.

Definition install_flagged (tr : string -> string) (w : World) (r : MusicFontRepo.t)
    (target : InstalledMusicFonts.t) : outcome (World * InstalledMusicFonts.t) unit :=
  install_all tr w target (AbstractMusicFontList.walk (MusicFontRepo.installable_fonts r)).

(** ** [VCSManager]

    Documents and views are object identities; a [QUrl] is what the
    manager reads of it.  The repository manager of [gitrepo] and the
    path helpers of [helper] are collaborators: the helpers are
    parameters, and the repository manager is the list of calls it
    received. *)

Module VCSManager.

Record QUrl := {
  isEmpty : bool;
  path : string
}.

Inductive repo_call :=
| track_document (view : nat) (root_path relative_path : string)
| untrack_document (root_path relative_path : string).

Record t := {
  doc_view_map : gmap nat nat;
  git_repo_manager : list repo_call      (* oldest call first *)
}.

Definition called (m : t) (c : repo_call) : t :=
  {| doc_view_map := doc_view_map m;
     git_repo_manager := git_repo_manager m ++ [c] |}.

(** Truth value of a [root_path]. *)
Definition found (root_path : string) : bool := negb (String.eqb root_path "").

Section Helpers.

(** [GitHelper.extract_vcs_path], [HgHelper.extract_vcs_path],
    [SvnHelper.extract_vcs_path]: root and relative path, the root empty
    when the path is not under that system; [vcs.is_available('git')]. *)
Variables git_extract hg_extract svn_extract : string -> string * string.
Variable git_available : bool.

Definition setCurrentDocument (m : t) (view doc : nat) (doc_url : QUrl) : t :=
  let m1 := {| doc_view_map := <[doc := view]> (doc_view_map m);
               git_repo_manager := git_repo_manager m |} in
  if isEmpty doc_url then m1
  else
    let '(root_path, relative_path) := git_extract (path doc_url) in
    if git_available && found root_path
    then called m1 (track_document view root_path relative_path)
    else m1.

Definition slotDocumentClosed (m : t) (doc_url : QUrl) : t :=
  if isEmpty doc_url then m
  else
    let '(root_path, relative_path) := git_extract (path doc_url) in
    if git_available && found root_path
    then called m (untrack_document root_path relative_path)
    else m.

(** The second half of [slotDocumentUrlChanged]: the new URL. *)
Definition track_new (m : t) (doc : nat) (url : QUrl) : outcome t unit :=
  let '(root_path, relative_path) := git_extract (path url) in
  if found root_path then
    match doc_view_map m !! doc with
    | Some view => Ret tt (called m (track_document view root_path relative_path))
    | None => Raise (KeyError "doc") m
    end
  else if found (fst (hg_extract (path url))) then Ret tt m
  else if found (fst (svn_extract (path url))) then Ret tt m
  else Ret tt m.

Definition slotDocumentUrlChanged (m : t) (doc : nat) (url old : QUrl) : outcome t unit :=
  if negb (isEmpty old) then
    let '(root_path, relative_path) := git_extract (path old) in
    if found root_path then
      (* untrack, then [return] *)
      Ret tt (called m (untrack_document root_path relative_path))
    else if found (fst (hg_extract (path old))) then Ret tt m
    else if found (fst (svn_extract (path old))) then Ret tt m
    else track_new m doc url
  else track_new m doc url.

End Helpers.

End VCSManager.

(** ** What a pattern matches

    [den r p rest g g']: the pattern [r] can consume [p] when [rest]
    follows it, taking the groups from [g] to [g'].  [Re.run] lists
    exactly these matches ([run_spec] below). *)

Fixpoint den (r : Re.regex) (p rest : list ascii) (g g' : Re.groups) : Prop :=
  match r with
  | Re.Eps => p = [] /\ g' = g
  | Re.Atom a => exists c, p = [c] /\ Re.atom_ok a c = true /\ g' = g
  | Re.Star a => forallb (Re.atom_ok a) p = true /\ g' = g
  | Re.Cat r1 r2 =>
      exists p1 p2 g1,
        p = p1 ++ p2 /\ den r1 p1 (p2 ++ rest) g g1 /\ den r2 p2 rest g1 g'
  | Re.Alt r1 r2 => den r1 p rest g g' \/ den r2 p rest g g'
  | Re.Group name r1 =>
      exists g1, den r1 p rest g g1 /\ g' = (name, Str.of_chars p) :: g1
  | Re.Eol => p = [] /\ Re.at_eol rest = true /\ g' = g
  end.

(** Sizes and types a font file name may carry. *)
Definition valid_size (s : string) : Prop :=
  s = "brace" \/ exists d1 d2, s = String d1 (String d2 "") /\
                               Re.is_digit d1 = true /\ Re.is_digit d2 = true.

Definition valid_type (s : string) : Prop := s = "otf" \/ s = "svg" \/ s = "woff".

(** No newline among the characters of [s]. *)
Definition one_line (s : string) : Prop := ~ In Str.nl (Str.chars s).

(** [<family>-<size>.<type>] *)
Definition font_name (fam size ty : string) : string :=
  (fam ++ "-" ++ size ++ "." ++ ty)%string.

(** ** Reading a family and a registry slot by slot *)

#[global] Instance ftype_eq_dec : EqDecision ftype.
Proof. solve_decision. Defined.

(** [self._files[type].get(size)] *)
Definition slot (x : MusicFontFamily.t) (ty : ftype) (size : string)
  : option MusicFontFile.t :=
  Dict.get size (MusicFontFamily.files x ty).

(** The file at (family name, type, size) of a registry. *)
Definition rslot (reg : AbstractMusicFontList.t) (name : string) (ty : ftype) (size : string)
  : option MusicFontFile.t :=
  match Dict.get name reg with
  | Some x => slot x ty size
  | None => None
  end.

(** What [status] answers for a slot, in a given world. *)
Definition slot_status (w : World) (o : option MusicFontFile.t) : MusicFontStatus :=
  match o with
  | None => MISSING
  | Some f =>
      match MusicFontFile.status f with
      | Some s => s
      | None => MusicFontFamily.resolve w (MusicFontFile.file f)
      end
  end.

(** A world with the given nodes and directory listings on a host that
    supports symbolic links and refuses nothing. *)
Definition plain_world (m : gmap string node)
    (walk : string -> list (string * list string * list string)) : World :=
  {| nodes := m; walk_of := walk; symlinks := true;
     denied := fun _ => false; os_error := fun _ => "OSError" |}.

(** ** A small installation, for examples

    [/src] holds two real font files, a directory and a fifo with font
    names; [/ly/fonts/otf] holds a link to a font of [/src], a dangling
    link and a copied (real) font file. *)

Definition example_nodes : gmap string node :=
  list_to_map
    [("/src/emmentaler-11.otf", NFile "E11");
     ("/src/emmentaler-brace.otf", NFile "EB");
     ("/src/gonville-11.otf", NDir);
     ("/src/beethoven-11.otf", NOther);
     ("/ly/fonts/otf/cadence-11.otf", NLink "/src/emmentaler-11.otf");
     ("/ly/fonts/otf/cadence-13.otf", NLink "/src/nowhere-13.otf");
     ("/ly/fonts/otf/haydn-11.otf", NFile "H11");
     ("/ly/fonts/otf/haydn-13.otf", NLink "/src/emmentaler-11.otf")]%string.

Definition example_walk (root : string) : list (string * list string * list string) :=
  if String.eqb root "/src" then
    [("/src", ["gonville-11.otf"],
      ["emmentaler-11.otf"; "README"; "emmentaler-brace.otf"; "beethoven-11.otf"])]%string
  else if String.eqb root "/ly/fonts" then
    [("/ly/fonts", ["otf"], []);
     ("/ly/fonts/otf", [],
      ["cadence-11.otf"; "cadence-13.otf"; "haydn-11.otf"; "haydn-13.otf"])]%string
  else [].

Definition example_world : World := plain_world example_nodes example_walk.

(** The family [cadence] with its two links registered by hand. *)
Definition example_cadence : MusicFontFamily.t :=
  MusicFontFamily.add
    (MusicFontFamily.add (MusicFontFamily.set_family MusicFontFamily.empty "cadence")
       otf "11" "/ly/fonts/otf/cadence-11.otf")
    otf "13" "/ly/fonts/otf/cadence-13.otf".

(** ** [add_tree] as one loop

    The paths [add_tree] tries, in order, and for each the slot
    [check_file] assigns it to (if it accepts it). *)

Definition tree_files (w : World) (root : string) : list string :=
  flat_map (fun '(dir, _, files) => map (OsPath.join dir) files) (walk_of w root).

Definition key_of (w : World) (p : string) : option (string * ftype * string) :=
  match MusicFontFamily.check_file w p with
  | Ok k => Some k
  | Err _ => None
  end.

(** The last path of [l] that [check_file] assigns to the slot [k]. *)
Fixpoint last_hit (w : World) (l : list string) (k : string * ftype * string)
  : option string :=
  match l with
  | [] => None
  | p :: rest =>
      match last_hit w rest k with
      | Some q => Some q
      | None => if decide (key_of w p = Some k) then Some p else None
      end
  end.

(** ** Flagging, slot by slot *)

(** The (type, size) pairs the loops of a family visit, in order. *)
Definition slot_keys (x : MusicFontFamily.t) : list (ftype * string) :=
  flat_map (fun ty => map (pair ty) (Dict.keys (MusicFontFamily.files x ty)))
           MusicFontFamily.types.

(** The condition under which [flag_for_install] flags a slot: the own
    status is [FILE] or [LINK] and the status of the target's slot is
    neither. *)
Definition wanted (w : World) (self target : MusicFontFamily.t)
    (ty : ftype) (size : string) : bool :=
  usable (fst (MusicFontFamily.status w self ty size))
  && negb (usable (fst (MusicFontFamily.status w target ty size))).

(** How a file of a family stands to the file the slot held before some
    slots [vs] were flagged with respect to a condition [c]. *)
Definition flagged_from (w : World) (c : bool) (f0 f : MusicFontFile.t) : Prop :=
  MusicFontFile.file f = MusicFontFile.file f0 /\
  slot_status w (Some f) = slot_status w (Some f0) /\
  MusicFontFile.install f = MusicFontFile.install f0 || c.

(** Two optional files related by [R], or both absent. *)
Definition both {A} (R : A -> A -> Prop) (o0 o : option A) : Prop :=
  match o0, o with
  | Some a0, Some a => R a0 a
  | None, None => True
  | _, _ => False
  end.

(** The body of the inner loop of [flag_all_for_install]. *)
Definition flag_one (x : MusicFontFamily.t) (k : ftype * string) : MusicFontFamily.t :=
  match Dict.get (snd k) (MusicFontFamily.files x (fst k)) with
  | Some f =>
      MusicFontFamily.set_files x (fst k)
        (Dict.set (snd k) (MusicFontFile.set_install f) (MusicFontFamily.files x (fst k)))
  | None => x
  end.

(** A family all of whose files descend from the files of [x0] in the
    same slots, with install flags that were only ever set. *)
Definition flags_grown (w : World) (x0 x : MusicFontFamily.t) : Prop :=
  forall t s, exists c, both (flagged_from w c) (slot x0 t s) (slot x t s).

(** The same, every file now flagged. *)
Definition flags_all_set (w : World) (x0 x : MusicFontFamily.t) : Prop :=
  forall t s, both (flagged_from w true) (slot x0 t s) (slot x t s).

(** Every file of a registry sits in the slot its name says. *)
Definition parsed (reg : AbstractMusicFontList.t) : Prop :=
  forall name x, In (name, x) reg ->
  forall ty size f, slot x ty size = Some f ->
    parse_triplet (MusicFontFile.file f) = Some (name, ftype_name ty, size).

(** The repository scanned from [/src], the registry of the installation
    under [/ly], and two of their families written out. *)
Definition example_repo : MusicFontRepo.t := MusicFontRepo.init example_world "/src".

Definition example_installed : InstalledMusicFonts.t :=
  InstalledMusicFonts.init example_world "/ly".

Definition example_emmentaler : MusicFontFamily.t :=
  MusicFontFamily.add
    (MusicFontFamily.add (MusicFontFamily.set_family MusicFontFamily.empty "emmentaler")
       otf "11" "/src/emmentaler-11.otf")
    otf "brace" "/src/emmentaler-brace.otf".

Definition example_haydn : MusicFontFamily.t :=
  MusicFontFamily.add
    (MusicFontFamily.add (MusicFontFamily.set_family MusicFontFamily.empty "haydn")
       otf "11" "/ly/fonts/otf/haydn-11.otf")
    otf "13" "/ly/fonts/otf/haydn-13.otf".

(** The path of the last flagged font of [fonts] that sits at slot [k]. *)
Fixpoint last_flagged (fonts : list (string * ftype * string * MusicFontFile.t))
    (k : string * ftype * string) : option string :=
  match fonts with
  | [] => None
  | (k', f) :: rest =>
      match last_flagged rest k with
      | Some q => Some q
      | None =>
          if MusicFontFile.install f && bool_decide (k' = k)
          then Some (MusicFontFile.file f) else None
      end
  end.

(** ** Removal *)

(** The paths of a family, in walk order. *)
Definition family_paths (x : MusicFontFamily.t) : list string :=
  map (fun e => MusicFontFile.file (snd e)) (MusicFontFamily.walk x).

(** The files of a family that are not symbolic links, as [str(Path(f))],
    in walk order: what a refused removal reports. *)
Definition offending (w : World) (x : MusicFontFamily.t) : list string :=
  map Pathlib.str_path
      (List.filter (fun p => negb (is_symlink w p)) (family_paths x)).

(** The family holds a file that is not a symbolic link. *)
Definition has_real_file (w : World) (x : MusicFontFamily.t) : Prop :=
  exists ty size f, slot x ty size = Some f /\
                    is_symlink w (MusicFontFile.file f) = false.

(** ** An example for the tracker

    A helper for which everything under [/repo/] belongs to the Git
    repository [/repo], and helpers that find nothing. *)

Definition example_git_extract (p : string) : string * string :=
  if String.prefix "/repo/" p
  then ("/repo", String.substring 6 (String.length p - 6) p)
  else ("", "").

Definition no_extract (p : string) : string * string := ("", "").

Definition file_url (p : string) : VCSManager.QUrl :=
  {| VCSManager.isEmpty := false; VCSManager.path := p |}.

Definition empty_url : VCSManager.QUrl :=
  {| VCSManager.isEmpty := true; VCSManager.path := "" |}.

(** The manager after view 7 of document 1, saved as [/repo/a.ly], has
    become current. *)
Definition example_manager : VCSManager.t :=
  VCSManager.setCurrentDocument example_git_extract true
    {| VCSManager.doc_view_map := ∅; VCSManager.git_repo_manager := [] |}
    7 1 (file_url "/repo/a.ly").

(** ** Auxiliary notions for the proofs *)

(** The characters of a size and of a type of a font file name, and
    the groups of the match of such a name. *)
Definition size_chars (s : list ascii) : Prop :=
  s = Str.chars "brace" \/
  exists d1 d2, s = [d1; d2] /\ Re.is_digit d1 = true /\ Re.is_digit d2 = true.

Definition type_chars (t : list ascii) : Prop :=
  t = Str.chars "otf" \/ t = Str.chars "svg" \/ t = Str.chars "woff".

Definition font_match (f s t : list ascii) : Re.groups :=
  [("type", Str.of_chars t); ("size", Str.of_chars s); ("family", Str.of_chars f)]%string.


(** The file a slot holds once its status has been asked for. *)
Definition memoized (w : World) (f : MusicFontFile.t) : MusicFontFile.t :=
  match MusicFontFile.status f with
  | Some _ => f
  | None => MusicFontFile.set_status f (MusicFontFamily.resolve w (MusicFontFile.file f))
  end.


(** The state of the loops of [flag_for_install] after the slots [vs]. *)
Definition flag_inv (w : World) (self0 target0 : MusicFontFamily.t)
    (vs : list (ftype * string)) (st : MusicFontFamily.t * MusicFontFamily.t) : Prop :=
  (forall t s,
      both (flagged_from w (bool_decide ((t, s) ∈ vs) && wanted w self0 target0 t s))
           (slot self0 t s) (slot (fst st) t s)) /\
  (forall t s, slot_status w (slot (snd st) t s) = slot_status w (slot target0 t s)) /\
  (forall t, Dict.keys (MusicFontFamily.files (fst st) t)
             = Dict.keys (MusicFontFamily.files self0 t)) /\
  (forall t, Dict.keys (MusicFontFamily.files (snd st) t)
             = Dict.keys (MusicFontFamily.files target0 t)).


(** The state of the first loop after the family names [vs]. *)
Definition flag_families_inv (w : World) (mine0 theirs0 : AbstractMusicFontList.t)
    (vs : list string) (st : AbstractMusicFontList.t * AbstractMusicFontList.t) : Prop :=
  (forall n, both (fun x0 x =>
                     flags_grown w x0 x /\
                     (n ∈ vs -> Dict.get n theirs0 = None -> flags_all_set w x0 x))
                  (Dict.get n mine0) (Dict.get n (fst st))) /\
  (forall n, Dict.get n (snd st) = None <-> Dict.get n theirs0 = None) /\
  Dict.keys (fst st) = Dict.keys mine0.


(** ** Further notions

    The family carries the name [n] and every file of it has a name of
    that family. *)
Definition family_named (x : MusicFontFamily.t) (n : string) : Prop :=
  MusicFontFamily.family x = Some n /\
  forall ty size f, slot x ty size = Some f ->
    exists t s, parse_triplet (MusicFontFile.file f) = Some (n, t, s).

(** Every file of the registry leads somewhere in the world [w]. *)
Definition all_exist (w : World) (reg : AbstractMusicFontList.t) : Prop :=
  forall n t s f, rslot reg n t s = Some f ->
    path_exists w (MusicFontFile.file f) = true.

(** The example installation with a file in [/src] that is not a font. *)
Definition example_world_readme : World :=
  with_nodes example_world (<["/src/README" := NFile "read me"]> (nodes example_world)).

(** A family with the brace and the eight sizes registered for [otf]. *)
Definition example_complete : MusicFontFamily.t :=
  fold_left
    (fun x size => MusicFontFamily.add x otf size ("/f/x-" ++ size ++ ".otf"))
    ("brace" :: MusicFontFamily.sizes_list)
    (MusicFontFamily.set_family MusicFontFamily.empty "x").

(** The family stored under a name carries that name. *)
Definition keyed (reg : AbstractMusicFontList.t) : Prop :=
  forall name x, In (name, x) reg -> MusicFontFamily.family x = Some name.


(** The repository scanned from the installation's own font directory,
    flagged against an empty registry: every font of it is installable. *)
Definition example_self_repo : MusicFontRepo.t :=
  fst (state_of (MusicFontRepo.flag_for_install example_world
                   (MusicFontRepo.init example_world "/ly/fonts") [])).

(** ** [MusicFontsWidget.show_sample]: the staff size of a sample

    The pattern of [handle_staff_size], a number sign, an escaped
    parenthesis, [set-global-staff-size], a blank, one or more digits
    and an escaped parenthesis; the whole match is group 0. *)
Definition staff_size_re : Re.regex :=
  Re.Group "0"
    (Re.Cat (Re.word "#(set-global-staff-size ")
    (Re.Cat (Re.Atom Re.Digit)
    (Re.Cat (Re.Star Re.Digit) (Re.Atom (Re.Lit ")"%char))))).

(** [handle_staff_size]: the new values of [global_size] (empty at the
    start) and [sample_content]. *)
Definition handle_staff_size (sample_content : string) : string * string :=
  match Re.rmatch staff_size_re sample_content with
  | Some m =>
      match Re.group "0" m with
      | Some global_size =>
          (global_size,
           Str.of_chars (skipn (length (Str.chars global_size)) (Str.chars sample_content)))
      | None => ("", sample_content)
      end
  | None => ("", sample_content)
  end.

(** A staff size definition with the digits [ds]. *)
Definition staff_size_text (ds : string) : string :=
  ("#(set-global-staff-size " ++ ds ++ ")")%string.

(** One digit or more, and nothing else. *)
Definition digits (ds : string) : Prop :=
  ds <> ""%string /\ forallb Re.is_digit (Str.chars ds) = true.

(** The fixed text before the digits, as characters. *)
Definition staff_prefix : list ascii := Str.chars "#(set-global-staff-size ".

(** ** [FontsDialog.install_music_fonts]

    [selected] is the directory the file dialog returned, if it was not
    cancelled; the third component of the state is the detailed text of
    the message box, if one was shown. *)
Definition install_music_fonts (tr : string -> string) (w : World)
    (installed : InstalledMusicFonts.t) (selected : option string)
  : outcome (World * InstalledMusicFonts.t * option exn) unit :=
  match selected with
  | None => Ret tt (w, installed, None)
  | Some root_dir =>
      let repo := MusicFontRepo.init w root_dir in
      match MusicFontRepo.flag_for_install w repo (InstalledMusicFonts.families installed) with
      | Raise e (_, theirs) =>
          Raise e (w, InstalledMusicFonts.with_families installed theirs, None)
      | Ret _ (repo', theirs) =>
          match install_flagged tr w repo'
                  (InstalledMusicFonts.with_families installed theirs) with
          | Ret _ (w', installed') => Ret tt (w', installed', None)
          | Raise (MusicFontPermissionException msg) (w', installed') =>
              Ret tt (w', installed', Some (MusicFontPermissionException msg))
          | Raise e (w', installed') => Raise e (w', installed', None)
          end
      end
  end.

(** The example installation on a host that refuses every change. *)
Definition example_world_locked : World :=
  {| nodes := example_nodes; walk_of := example_walk; symlinks := true;
     denied := fun _ => true; os_error := fun _ => "Permission denied" |}.

(** A font that is reached through as many links as the host follows:
    [/deep/gonville-11.otf] is a link to the last of a chain of links
    that ends in a regular file, [max_links] links in all. *)
Fixpoint chain_nodes (n : nat) (m : gmap string node) : gmap string node :=
  match n with
  | O => <[Str.of_chars ("/"%char :: repeat "l"%char O) := NFile "G"]> m
  | S k =>
      <[Str.of_chars ("/"%char :: repeat "l"%char (S k))
        := NLink (Str.of_chars ("/"%char :: repeat "l"%char k))]> (chain_nodes k m)
  end.

Definition example_world_deep : World :=
  plain_world
    (<["/deep/gonville-11.otf"
       := NLink (Str.of_chars ("/"%char :: repeat "l"%char (max_links - 1)))]>
       (chain_nodes (max_links - 1) ∅))
    (fun root =>
       if String.eqb root "/deep" then [("/deep", [], ["gonville-11.otf"])]%string else []).

(** * Properties *)

(** ** Strings and patterns *)

Lemma chars_of_chars l : Str.chars (Str.of_chars l) = l.
Proof. apply list_ascii_of_string_of_list_ascii. Qed.

Lemma of_chars_chars s : Str.of_chars (Str.chars s) = s.
Proof. apply string_of_list_ascii_of_string. Qed.

Lemma chars_app s t : Str.chars (s ++ t)%string = Str.chars s ++ Str.chars t.
Proof.
  induction s as [|c s IH]; simpl; [reflexivity|].
  unfold Str.chars in *. simpl. now rewrite IH.
Qed.

Lemma chars_inj s t : Str.chars s = Str.chars t -> s = t.
Proof.
  intros H. rewrite <- (of_chars_chars s), <- (of_chars_chars t). now rewrite H.
Qed.

Lemma star_rests_spec a s r :
  In r (Re.star_rests a s) <->
  exists p, s = p ++ r /\ forallb (Re.atom_ok a) p = true.
Proof.
  revert r. induction s as [|c s IH]; intros r; simpl.
  - split.
    + intros [<-|[]]. exists []. auto.
    + intros (p & Hp & _). symmetry in Hp. apply app_eq_nil in Hp. left. symmetry. tauto.
  - destruct (Re.atom_ok a c) eqn:Hc.
    + rewrite in_app_iff, IH. simpl. split.
      * intros [(p & -> & Hp)|[<-|[]]].
        -- exists (c :: p). simpl. rewrite Hc. auto.
        -- exists []. auto.
      * intros (p & Hs & Hp). destruct p as [|d p]; simpl in *.
        -- right. left. auto.
        -- injection Hs as <- ->. left. exists p. split; auto.
           apply andb_prop in Hp. tauto.
    + simpl. split.
      * intros [<-|[]]. exists []. auto.
      * intros (p & Hs & Hp). destruct p as [|d p]; simpl in *.
        -- left. auto.
        -- injection Hs as <- ->. rewrite Hc in Hp. discriminate.
Qed.

Lemma firstn_consumed (p rest : list ascii) :
  firstn (length (p ++ rest) - length rest) (p ++ rest) = p.
Proof.
  rewrite length_app. replace (length p + length rest - length rest) with (length p) by lia.
  rewrite firstn_app. replace (length p - length p) with 0 by lia.
  rewrite firstn_all. simpl. apply app_nil_r.
Qed.

Lemma run_spec r : forall s g rest g',
  In (rest, g') (Re.run r s g) <-> exists p, s = p ++ rest /\ den r p rest g g'.
Proof.
  induction r as [|a|a|r1 IH1 r2 IH2|r1 IH1 r2 IH2|name r1 IH1|]; intros s g rest g'; simpl.
  - split.
    + intros [H|[]]. injection H as <- <-. exists []. auto.
    + intros (p & -> & -> & ->). left. reflexivity.
  - destruct s as [|c s]; simpl.
    + split; [tauto|]. intros (p & Hs & c & -> & _). discriminate.
    + destruct (Re.atom_ok a c) eqn:Hc; simpl.
      * split.
        -- intros [H|[]]. injection H as <- <-. exists [c]. split; eauto.
        -- intros (p & Hs & d & -> & _ & ->). injection Hs as <- <-. auto.
      * split; [tauto|]. intros (p & Hs & d & -> & Hd & _).
        injection Hs as <- _. congruence.
  - rewrite in_map_iff. split.
    + intros (x & H & Hin). injection H as <- <-.
      apply star_rests_spec in Hin. destruct Hin as (p & -> & Hp). eauto.
    + intros (p & -> & Hp & ->). exists rest. split; auto.
      apply star_rests_spec. eauto.
  - rewrite in_flat_map. split.
    + intros ([s1 g1] & H1 & H2). simpl in H2.
      apply IH1 in H1. apply IH2 in H2.
      destruct H1 as (p1 & -> & D1), H2 as (p2 & -> & D2).
      exists (p1 ++ p2). rewrite <- app_assoc. split; auto.
      exists p1, p2, g1. auto.
    + intros (p & -> & p1 & p2 & g1 & -> & D1 & D2).
      exists (p2 ++ rest, g1). split.
      * apply IH1. exists p1. rewrite <- app_assoc. auto.
      * simpl. apply IH2. eauto.
  - rewrite in_app_iff, IH1, IH2. split.
    + intros [(p & ? & ?)|(p & ? & ?)]; exists p; auto.
    + intros (p & ? & [?|?]); [left|right]; eauto.
  - rewrite in_map_iff. split.
    + intros ([s1 g1] & H & Hin). simpl in H. injection H as <- <-.
      apply IH1 in Hin. destruct Hin as (p & -> & D).
      exists p. split; auto. exists g1. split; auto.
      now rewrite firstn_consumed.
    + intros (p & -> & g1 & D & ->). exists (rest, g1). split.
      * simpl. now rewrite firstn_consumed.
      * apply IH1. eauto.
  - destruct (Re.at_eol s) eqn:He; simpl.
    + split.
      * intros [H|[]]. injection H as <- <-. exists []. auto.
      * intros (p & -> & -> & _ & ->). auto.
    + split; [tauto|]. intros (p & -> & -> & He' & _). simpl in He. congruence.
Qed.

(** ** [parse_filename] *)

Ltac break :=
  repeat match goal with
         | H : exists _, _ |- _ => destruct H
         | H : _ /\ _ |- _ => destruct H
         | H : _ \/ _ |- _ => destruct H
         | H : Ascii.eqb _ _ = true |- _ => apply Ascii.eqb_eq in H
         end; subst.

Lemma font_re_sound p rest g' :
  den font_re p rest [] g' ->
  exists f s t,
    p = f ++ "-"%char :: s ++ "."%char :: t /\
    forallb (Re.atom_ok Re.Dot) f = true /\ size_chars s /\ type_chars t /\
    Re.at_eol rest = true /\ g' = font_match f s t.
Proof.
  unfold font_re, Re.word.
  cbn [den Re.word_chars Str.chars list_ascii_of_string Re.atom_ok].
  intros H. break.
  all: match goal with
       | Hf : forallb _ ?f = true |- _ => exists f
       end.
  all: eexists; eexists; (split; [reflexivity|]).
  all: split; [assumption|].
  all: split; [first [left; reflexivity | right; eauto]|].
  all: split; [unfold type_chars, Str.chars; simpl; tauto|].
  all: split; [assumption|reflexivity].
Qed.

Ltac spell :=
  repeat match goal with
         | |- exists p1 p2 g1, ?c :: ?r = p1 ++ p2 /\ _ =>
             exists [c], r; eexists; split; [reflexivity|];
             split; [exists c; repeat split; reflexivity|]
         end;
  try (eexists; repeat split; reflexivity).

Lemma font_re_complete f s t rest :
  forallb (Re.atom_ok Re.Dot) f = true -> size_chars s -> type_chars t ->
  Re.at_eol rest = true ->
  den font_re (f ++ "-"%char :: s ++ "."%char :: t) rest [] (font_match f s t).
Proof.
  intros Hf Hs Ht He.
  unfold font_re, Re.word.
  cbn [den Re.word_chars Str.chars list_ascii_of_string Re.atom_ok].
  exists f, ("-"%char :: s ++ "."%char :: t), [("family", Str.of_chars f)]%string.
  split; [reflexivity|]. split; [exists []; auto|].
  exists ["-"%char], (s ++ "."%char :: t), [("family", Str.of_chars f)]%string.
  split; [reflexivity|]. split; [exists "-"%char; auto|].
  exists s, ("."%char :: t),
    [("size", Str.of_chars s); ("family", Str.of_chars f)]%string.
  split; [reflexivity|]. split.
  { eexists. split; [|reflexivity].
    destruct Hs as [->|(d1 & d2 & -> & H1 & H2)].
    - left. unfold Str.chars. simpl. spell.
    - right. exists [d1], [d2]. eexists. split; [reflexivity|]. split; eexists; eauto. }
  exists ["."%char], t, [("size", Str.of_chars s); ("family", Str.of_chars f)]%string.
  split; [reflexivity|]. split; [exists "."%char; auto|].
  exists t, [], (font_match f s t).
  split; [symmetry; apply app_nil_r|]. split; [|auto].
  eexists. split; [|reflexivity].
  unfold Str.chars in Ht. simpl in Ht.
  destruct Ht as [->|[->| ->]]; [left|right; left|right; right].
  all: unfold Str.chars; simpl; spell.
Qed.

(** A font file name splits in one way only. *)
Lemma font_name_unique f f' s s' t t' rest :
  f ++ "-"%char :: s ++ "."%char :: t
    = (f' ++ "-"%char :: s' ++ "."%char :: t') ++ rest ->
  size_chars s -> size_chars s' -> type_chars t -> type_chars t' ->
  Re.at_eol rest = true ->
  f = f' /\ s = s' /\ t = t' /\ rest = [].
Proof.
  intros H Hs Hs' Ht Ht' He.
  apply (f_equal (@rev ascii)) in H.
  assert (Hr : rest = [] \/ rest = [Str.nl]).
  { destruct rest as [|c [|d rest]]; simpl in He; try discriminate; auto.
    apply Ascii.eqb_eq in He. subst. auto. }
  unfold size_chars, type_chars, Str.chars in *. simpl in Hs, Hs', Ht, Ht'.
  destruct Hr as [-> | ->];
    destruct Ht as [->|[->| ->]]; destruct Ht' as [->|[->| ->]];
    destruct Hs as [->|(d1 & d2 & -> & D1 & D2)];
    destruct Hs' as [->|(e1 & e2 & -> & E1 & E2)];
    repeat (rewrite ?rev_app_distr in H; simpl in H; rewrite <- ?app_assoc in H; simpl in H);
    try discriminate H;
    injection H; intros; subst; try discriminate;
    repeat split;
    try match goal with
        | Hrev : rev _ = rev _ |- _ => apply (f_equal (@rev ascii)) in Hrev;
                                       rewrite !rev_involutive in Hrev; subst; reflexivity
        end.
Qed.

Lemma font_groups_match f s t :
  font_groups (font_match f s t) = Some (Str.of_chars f, Str.of_chars t, Str.of_chars s).
Proof. reflexivity. Qed.

Lemma size_chars_valid s : size_chars (Str.chars s) <-> valid_size s.
Proof.
  unfold size_chars, valid_size. split.
  - intros [H|(d1 & d2 & H & D)].
    + left. now apply chars_inj.
    + right. exists d1, d2. split; auto. apply chars_inj. exact H.
  - intros [->|(d1 & d2 & -> & D)]; [left; reflexivity|right; eauto].
Qed.

Lemma type_chars_valid t : type_chars (Str.chars t) <-> valid_type t.
Proof.
  unfold type_chars, valid_type. split.
  - intros [H|[H|H]]; apply chars_inj in H; auto.
  - intros [->|[->| ->]]; auto.
Qed.

Lemma dots_one_line s :
  forallb (Re.atom_ok Re.Dot) (Str.chars s) = true <-> one_line s.
Proof.
  unfold one_line. rewrite forallb_forall. simpl. split.
  - intros H Hin. specialize (H _ Hin). rewrite Ascii.eqb_refl in H. discriminate.
  - intros H c Hc. destruct (Ascii.eqb c Str.nl) eqn:E; auto.
    apply Ascii.eqb_eq in E. subst. contradiction.
Qed.

Lemma chars_font_name fam size ty :
  Str.chars (font_name fam size ty)
  = Str.chars fam ++ "-"%char :: Str.chars size ++ "."%char :: Str.chars ty.
Proof. unfold font_name. now rewrite !chars_app. Qed.

(** Every match of [font_re] has the three groups, read off a name of
    the form [<family>-<size>.<type>] that a newline may follow. *)
Lemma rmatch_font_re_shape b m :
  Re.rmatch font_re b = Some m ->
  exists fam size ty,
    font_groups m = Some (fam, ty, size) /\
    one_line fam /\ valid_size size /\ valid_type ty /\
    (b = font_name fam size ty \/
     b = (font_name fam size ty ++ String Str.nl "")%string).
Proof.
  unfold Re.rmatch. destruct (Re.run font_re (Str.chars b) []) as [|[rest g] l] eqn:E;
    [discriminate|].
  intros H. injection H as <-. simpl.
  assert (Hin : In (rest, g) (Re.run font_re (Str.chars b) [])) by (rewrite E; left; auto).
  apply run_spec in Hin. destruct Hin as (p & Hb & D).
  apply font_re_sound in D. destruct D as (f & s & t & -> & Hf & Hs & Ht & He & ->).
  exists (Str.of_chars f), (Str.of_chars s), (Str.of_chars t).
  split; [apply font_groups_match|].
  split; [apply dots_one_line; now rewrite chars_of_chars|].
  split; [apply size_chars_valid; now rewrite chars_of_chars|].
  split; [apply type_chars_valid; now rewrite chars_of_chars|].
  destruct rest as [|c [|d rest]]; simpl in He; try discriminate.
  - left. apply chars_inj. rewrite Hb, chars_font_name, !chars_of_chars.
    now rewrite app_nil_r.
  - right. apply Ascii.eqb_eq in He. subst c. apply chars_inj.
    rewrite Hb, chars_app, chars_font_name, !chars_of_chars. reflexivity.
Qed.

(** A name of that form whose family part has no newline is matched,
    and the groups are its three parts. *)
Lemma rmatch_font_re_name fam size ty :
  one_line fam -> valid_size size -> valid_type ty ->
  exists m, Re.rmatch font_re (font_name fam size ty) = Some m /\
            font_groups m = Some (fam, ty, size).
Proof.
  intros Hf Hs Ht.
  apply dots_one_line in Hf. apply size_chars_valid in Hs. apply type_chars_valid in Ht.
  assert (Hin : In ([], font_match (Str.chars fam) (Str.chars size) (Str.chars ty))
                   (Re.run font_re (Str.chars (font_name fam size ty)) [])).
  { apply run_spec. eexists. split; [|apply font_re_complete; auto].
    now rewrite chars_font_name, app_nil_r. }
  unfold Re.rmatch.
  destruct (Re.run font_re (Str.chars (font_name fam size ty)) []) as [|[rest g] l] eqn:E;
    [destruct Hin|].
  assert (Hhd : In (rest, g) (Re.run font_re (Str.chars (font_name fam size ty)) []))
    by (rewrite E; left; auto).
  apply run_spec in Hhd. destruct Hhd as (p & Hb & D).
  apply font_re_sound in D. destruct D as (f & s & t & -> & Hf' & Hs' & Ht' & He & ->).
  rewrite chars_font_name in Hb.
  apply font_name_unique in Hb; auto.
  destruct Hb as (<- & <- & <- & ->).
  eexists. split; [reflexivity|]. simpl.
  rewrite font_groups_match, !of_chars_chars. reflexivity.
Qed.

Lemma basename_chars_no_slash l :
  existsb (Ascii.eqb Str.slash) l = false -> OsPath.basename_chars l = l.
Proof.
  destruct l as [|c l]; simpl; [reflexivity|].
  intros H. apply orb_false_elim in H. destruct H as [Hc Hl].
  now rewrite Hl, Hc.
Qed.

Lemma basename_no_slash s :
  ~ In Str.slash (Str.chars s) -> OsPath.basename s = s.
Proof.
  intros H. unfold OsPath.basename. rewrite basename_chars_no_slash.
  - apply of_chars_chars.
  - destruct (existsb (Ascii.eqb Str.slash) (Str.chars s)) eqn:E; [|reflexivity].
    apply existsb_exists in E. destruct E as (c & Hc & E).
    apply Ascii.eqb_eq in E. subst c. contradiction.
Qed.

Lemma valid_size_no_slash size : valid_size size -> ~ In Str.slash (Str.chars size).
Proof.
  intros [->|(d1 & d2 & -> & D1 & D2)] Hin.
  - unfold Str.chars in Hin. simpl in Hin. try unfold Str.slash in Hin.
    repeat (destruct Hin as [Hin|Hin]; [discriminate Hin|]). exact Hin.
  - unfold Str.chars in Hin. simpl in Hin.
    destruct Hin as [H|[H|[]]]; subst; [vm_compute in D1|vm_compute in D2]; discriminate.
Qed.

Lemma valid_type_no_slash ty : valid_type ty -> ~ In Str.slash (Str.chars ty).
Proof.
  intros [->|[->| ->]] Hin; unfold Str.chars in Hin; simpl in Hin; try unfold Str.slash in Hin;
    repeat (destruct Hin as [Hin|Hin]; [discriminate Hin|]); exact Hin.
Qed.

Lemma basename_font_name fam size ty :
  ~ In Str.slash (Str.chars fam) -> valid_size size -> valid_type ty ->
  OsPath.basename (font_name fam size ty) = font_name fam size ty.
Proof.
  intros Hf Hs Ht. apply basename_no_slash. rewrite chars_font_name.
  apply valid_size_no_slash in Hs. apply valid_type_no_slash in Ht.
  rewrite in_app_iff. simpl. rewrite in_app_iff. simpl.
  unfold Str.slash in *.
  intros [H|[H|[H|[H|H]]]]; try contradiction; discriminate.
Qed.


Lemma valid_size_11 : valid_size "11".
Proof. right. exists "1"%char, "1"%char. repeat split. Qed.

Lemma valid_type_otf : valid_type "otf".
Proof. left. reflexivity. Qed.



(** ** Dictionaries *)

Section DictFacts.
Context {V : Type}.
Implicit Types (d : Dict.t V) (k : string) (v : V).

Lemma get_set_eq k v d : Dict.get k (Dict.set k v d) = Some v.
Proof.
  induction d as [|[k' v'] d IH]; simpl.
  - now rewrite String.eqb_refl.
  - destruct (String.eqb k' k) eqn:E; simpl; rewrite E; auto.
Qed.

Lemma get_set_ne k k' v d : k <> k' -> Dict.get k' (Dict.set k v d) = Dict.get k' d.
Proof.
  intros Hne. induction d as [|[k0 v0] d IH]; simpl.
  - destruct (String.eqb k k') eqn:E; [apply String.eqb_eq in E; contradiction|reflexivity].
  - destruct (String.eqb k0 k) eqn:E; simpl.
    + apply String.eqb_eq in E. subst k0.
      destruct (String.eqb k k') eqn:E'; [apply String.eqb_eq in E'; contradiction|reflexivity].
    + now rewrite IH.
Qed.

Lemma get_set k k' v d :
  Dict.get k' (Dict.set k v d) = if decide (k = k') then Some v else Dict.get k' d.
Proof.
  destruct (decide (k = k')) as [->|Hne]; [apply get_set_eq|now apply get_set_ne].
Qed.

Lemma get_some_in_keys k v d : Dict.get k d = Some v -> In k (Dict.keys d).
Proof.
  induction d as [|[k' v'] d IH]; simpl; [discriminate|].
  destruct (String.eqb k' k) eqn:E; [apply String.eqb_eq in E; auto|auto].
Qed.

Lemma get_some_in k v d : Dict.get k d = Some v -> In (k, v) d.
Proof.
  induction d as [|[k' v'] d IH]; simpl; [discriminate|].
  destruct (String.eqb k' k) eqn:E.
  - apply String.eqb_eq in E. intros H. injection H as <-. subst. auto.
  - auto.
Qed.

Lemma get_none_keys k d : Dict.get k d = None <-> ~ In k (Dict.keys d).
Proof.
  induction d as [|[k' v'] d IH]; simpl; [tauto|].
  destruct (String.eqb k' k) eqn:E.
  - apply String.eqb_eq in E. split; [discriminate|]. intros H. exfalso. auto.
  - apply String.eqb_neq in E. rewrite IH. tauto.
Qed.

Lemma keys_set_present k v d :
  In k (Dict.keys d) -> Dict.keys (Dict.set k v d) = Dict.keys d.
Proof.
  induction d as [|[k' v'] d IH]; simpl; [tauto|].
  destruct (String.eqb k' k) eqn:E; simpl; [reflexivity|].
  apply String.eqb_neq in E. intros [H|H]; [contradiction|]. now rewrite IH.
Qed.

Lemma keys_set_absent k v d :
  ~ In k (Dict.keys d) -> Dict.keys (Dict.set k v d) = Dict.keys d ++ [k].
Proof.
  induction d as [|[k' v'] d IH]; simpl; [reflexivity|].
  intros H. destruct (String.eqb k' k) eqn:E.
  - apply String.eqb_eq in E. exfalso. auto.
  - simpl. rewrite IH; auto.
Qed.

Lemma get_pop_ne k k' d : k <> k' -> Dict.get k' (Dict.pop k d) = Dict.get k' d.
Proof.
  intros Hne. induction d as [|[k0 v0] d IH]; simpl; [reflexivity|].
  destruct (String.eqb k0 k) eqn:E; simpl.
  - apply String.eqb_eq in E. subst k0.
    destruct (String.eqb k k') eqn:E'; [apply String.eqb_eq in E'; contradiction|reflexivity].
  - now rewrite IH.
Qed.

Lemma in_pop k x d : In x (Dict.pop k d) -> In x d.
Proof.
  induction d as [|[k0 v0] d IH]; simpl; [tauto|].
  destruct (String.eqb k0 k); simpl; intuition.
Qed.

End DictFacts.

(** ** Slots of a family *)

Lemma files_set_files x ty ty' d :
  MusicFontFamily.files (MusicFontFamily.set_files x ty d) ty'
  = if decide (ty = ty') then d else MusicFontFamily.files x ty'.
Proof. destruct ty, ty'; reflexivity. Qed.

Lemma slot_set_files x ty size f ty' size' :
  slot (MusicFontFamily.set_files x ty
          (Dict.set size f (MusicFontFamily.files x ty))) ty' size'
  = if decide ((ty, size) = (ty', size')) then Some f else slot x ty' size'.
Proof.
  unfold slot. rewrite files_set_files.
  destruct (decide (ty = ty')) as [->|Hty].
  - rewrite get_set. destruct (decide (size = size')) as [->|Hs].
    + rewrite decide_True; auto.
    + rewrite decide_False; [reflexivity|congruence].
  - rewrite decide_False; [reflexivity|congruence].
Qed.

Lemma keys_set_files_present x ty size f f0 ty' :
  slot x ty size = Some f0 ->
  Dict.keys (MusicFontFamily.files
               (MusicFontFamily.set_files x ty
                  (Dict.set size f (MusicFontFamily.files x ty))) ty')
  = Dict.keys (MusicFontFamily.files x ty').
Proof.
  intros H. rewrite files_set_files. destruct (decide (ty = ty')) as [->|]; [|reflexivity].
  apply keys_set_present. eapply get_some_in_keys. exact H.
Qed.

(** ** [status] *)

Lemma status_value w x ty size :
  fst (MusicFontFamily.status w x ty size) = slot_status w (slot x ty size).
Proof.
  unfold MusicFontFamily.status, slot_status, slot.
  destruct (Dict.get size (MusicFontFamily.files x ty)) as [f|]; [|reflexivity].
  destruct (MusicFontFile.status f); reflexivity.
Qed.

Lemma status_slot w x ty size ty' size' :
  slot (snd (MusicFontFamily.status w x ty size)) ty' size'
  = if decide ((ty, size) = (ty', size'))
    then option_map (memoized w) (slot x ty' size')
    else slot x ty' size'.
Proof.
  unfold MusicFontFamily.status.
  destruct (Dict.get size (MusicFontFamily.files x ty)) as [f|] eqn:E; simpl.
  - destruct (MusicFontFile.status f) eqn:S; simpl.
    + case_decide as H; [|reflexivity]. injection H as <- <-.
      unfold slot. rewrite E. simpl. unfold memoized. now rewrite S.
    + rewrite slot_set_files. case_decide as H; [|reflexivity]. injection H as <- <-.
      unfold slot. rewrite E. simpl. unfold memoized. now rewrite S.
  - case_decide as H; [|reflexivity]. injection H as <- <-.
    unfold slot. now rewrite E.
Qed.

Lemma status_keys w x ty size ty' :
  Dict.keys (MusicFontFamily.files (snd (MusicFontFamily.status w x ty size)) ty')
  = Dict.keys (MusicFontFamily.files x ty').
Proof.
  unfold MusicFontFamily.status.
  destruct (Dict.get size (MusicFontFamily.files x ty)) as [f|] eqn:E; simpl; [|reflexivity].
  destruct (MusicFontFile.status f); simpl; [reflexivity|].
  eapply keys_set_files_present. exact E.
Qed.

Lemma slot_status_memoized w w' f :
  slot_status w' (Some (memoized w f)) = slot_status w (Some f).
Proof.
  unfold slot_status, memoized. destruct (MusicFontFile.status f) eqn:S; simpl.
  - now rewrite S.
  - reflexivity.
Qed.

Lemma slot_status_memoized_same w f :
  slot_status w (option_map (memoized w) f) = slot_status w f.
Proof. destruct f as [f|]; [apply slot_status_memoized|reflexivity]. Qed.

(** C6.  [status(type, size)] answers [MISSING] for an absent slot and
    leaves the family as it is.  For a slot not yet resolved it looks at
    the file, symlink first: a symlink that leads to something is
    [LINK], a dangling one is [BROKEN_LINK]; a path that is not a
    symlink is [FILE] when it is a regular file and [MISSING_FILE]
    otherwise.  The answer is stored: any later call, whatever the file
    system has become, returns the first answer. *)
Theorem status_resolves (w : World) (x : MusicFontFamily.t) (ty : ftype) (size : string) :
  (slot x ty size = None -> MusicFontFamily.status w x ty size = (MISSING, x)) /\
  (forall font,
      slot x ty size = Some font -> MusicFontFile.status font = None ->
      let p := MusicFontFile.file font in
      let s := fst (MusicFontFamily.status w x ty size) in
      (is_symlink w p = true -> path_exists w p = true -> s = LINK) /\
      (is_symlink w p = true -> path_exists w p = false -> s = BROKEN_LINK) /\
      (is_symlink w p = false -> is_file w p = true -> s = FILE) /\
      (is_symlink w p = false -> is_file w p = false -> s = MISSING_FILE) /\
      (slot x ty size <> None -> s <> MISSING)) /\
  (forall w',
      fst (MusicFontFamily.status w' (snd (MusicFontFamily.status w x ty size)) ty size)
      = fst (MusicFontFamily.status w x ty size)).
Proof.
  split; [|split].
  - unfold slot, MusicFontFamily.status. now intros ->.
  - intros font Hs Hn p s. subst s. rewrite status_value, Hs. unfold slot_status.
    rewrite Hn. fold p. unfold MusicFontFamily.resolve.
    repeat split; intros; repeat match goal with H : _ = _ |- _ => rewrite H end;
      try reflexivity.
    destruct (is_symlink w p), (path_exists w p), (is_file w p); discriminate.
  - intros w'. rewrite !status_value, status_slot, decide_True by reflexivity.
    destruct (slot x ty size) as [f|]; [apply slot_status_memoized|reflexivity].
Qed.

Lemma status_resolves_witness :
  fst (MusicFontFamily.status example_world example_cadence otf "11") = LINK /\
  fst (MusicFontFamily.status example_world example_cadence otf "13") = BROKEN_LINK /\
  MusicFontFamily.status example_world example_cadence svg "11" = (MISSING, example_cadence).
Proof.
  split; [|split].
  - destruct (proj1 (proj2 (status_resolves example_world example_cadence otf "11"))
                (MusicFontFile.init "/ly/fonts/otf/cadence-11.otf")
                eq_refl eq_refl) as (Hlink & _).
    apply Hlink; vm_compute; reflexivity.
  - destruct (proj1 (proj2 (status_resolves example_world example_cadence otf "13"))
                (MusicFontFile.init "/ly/fonts/otf/cadence-13.otf")
                eq_refl eq_refl) as (_ & Hbroken & _).
    apply Hbroken; vm_compute; reflexivity.
  - apply (proj1 (status_resolves example_world example_cadence svg "11")).
    reflexivity.
Defined.

(** ** Registration *)

Lemma parse_filename_empty : parse_filename "" = None.
Proof. reflexivity. Qed.

Lemma check_file_exists w file k :
  MusicFontFamily.check_file w file = Ok k -> path_exists w file = true.
Proof.
  unfold MusicFontFamily.check_file. destruct (path_exists w file); [reflexivity|discriminate].
Qed.

(** [check_file] refuses a path that leads nowhere, a dangling link
    included. *)
Lemma check_file_missing w file :
  path_exists w file = false ->
  MusicFontFamily.check_file w file
  = Err (MusicFontException (file ++ " does not point to an existing file or link")).
Proof. unfold MusicFontFamily.check_file. now intros ->. Qed.

Lemma check_file_nonempty w file k :
  MusicFontFamily.check_file w file = Ok k -> file <> ""%string.
Proof.
  intros H ->. unfold MusicFontFamily.check_file in H.
  destruct (path_exists w ""); [|discriminate].
  cbn [negb] in H. rewrite parse_filename_empty in H. discriminate.
Qed.

(** What [check_file] returns is what [parse_filename] read. *)
Lemma check_file_parsed w file fam ty size :
  MusicFontFamily.check_file w file = Ok (fam, ty, size) ->
  parse_triplet file = Some (fam, ftype_name ty, size).
Proof.
  unfold MusicFontFamily.check_file, parse_triplet.
  destruct (path_exists w file); simpl; [|discriminate].
  destruct (parse_filename file) as [m|]; [|discriminate].
  destruct (font_groups m) as [[[f t] s]|]; [|discriminate].
  unfold ftype_of_name.
  destruct (String.eqb t "otf") eqn:E1;
    [|destruct (String.eqb t "svg") eqn:E2;
      [|destruct (String.eqb t "woff") eqn:E3; [|discriminate]]];
    intros H; injection H as <- <- <-;
    match goal with E : String.eqb _ _ = true |- _ => apply String.eqb_eq in E; subst end;
    reflexivity.
Qed.

Lemma check_file_of_parsed w file fam ty size :
  path_exists w file = true ->
  parse_triplet file = Some (fam, ftype_name ty, size) ->
  MusicFontFamily.check_file w file = Ok (fam, ty, size).
Proof.
  unfold MusicFontFamily.check_file, parse_triplet. intros -> H. simpl.
  destruct (parse_filename file) as [m|]; [|discriminate].
  rewrite H. destruct ty; reflexivity.
Qed.

(** [MusicFontFamily.add_file] on a family that has no name yet. *)
Lemma family_add_file_fresh w file fam ty size :
  MusicFontFamily.check_file w file = Ok (fam, ty, size) ->
  MusicFontFamily.add_file w MusicFontFamily.empty file
  = Ok (MusicFontFamily.add
          (MusicFontFamily.set_family MusicFontFamily.empty fam) ty size file).
Proof. unfold MusicFontFamily.add_file. now intros ->. Qed.

Lemma slot_add x ty size file ty' size' :
  slot (MusicFontFamily.add x ty size file) ty' size'
  = if decide ((ty, size) = (ty', size')) then Some (MusicFontFile.init file)
    else slot x ty' size'.
Proof. unfold MusicFontFamily.add. apply slot_set_files. Qed.

Lemma slot_set_family x name ty size :
  slot (MusicFontFamily.set_family x name) ty size = slot x ty size.
Proof. destruct ty; reflexivity. Qed.

Lemma slot_empty ty size : slot MusicFontFamily.empty ty size = None.
Proof. destruct ty; reflexivity. Qed.

(** What a successful [check_file] makes of [add_file] on a registry. *)
Lemma registry_add_file_ok w reg file fam ty size :
  MusicFontFamily.check_file w file = Ok (fam, ty, size) ->
  exists x,
    AbstractMusicFontList.add_file w reg file = Ok (Dict.set fam x reg) /\
    (forall ty' size',
        slot x ty' size'
        = if decide ((ty, size) = (ty', size')) then Some (MusicFontFile.init file)
          else rslot reg fam ty' size').
Proof.
  intros Hc. unfold AbstractMusicFontList.add_file. rewrite Hc.
  destruct (Dict.get fam reg) as [x|] eqn:E.
  - eexists. split; [reflexivity|]. intros ty' size'.
    rewrite slot_add. unfold rslot. now rewrite E.
  - unfold MusicFontFamily.init.
    destruct (String.eqb file "") eqn:Ef.
    { apply String.eqb_eq in Ef. now apply check_file_nonempty in Hc. }
    rewrite (family_add_file_fresh _ _ _ _ _ Hc).
    eexists. split; [reflexivity|]. intros ty' size'.
    rewrite slot_add, slot_set_family, slot_empty. unfold rslot. now rewrite E.
Qed.

Lemma rslot_set reg name x name' ty size :
  rslot (Dict.set name x reg) name' ty size
  = if decide (name = name') then slot x ty size else rslot reg name' ty size.
Proof. unfold rslot. rewrite get_set. now case_decide. Qed.

Lemma rslot_add_file w reg reg' file fam ty size name' ty' size' :
  MusicFontFamily.check_file w file = Ok (fam, ty, size) ->
  AbstractMusicFontList.add_file w reg file = Ok reg' ->
  rslot reg' name' ty' size'
  = if decide ((fam, ty, size) = (name', ty', size'))
    then Some (MusicFontFile.init file) else rslot reg name' ty' size'.
Proof.
  intros Hc Ha. destruct (registry_add_file_ok w reg file fam ty size Hc) as (x & Hx & Hs).
  rewrite Hx in Ha. injection Ha as <-. rewrite rslot_set.
  destruct (decide (fam = name')) as [<-|Hn].
  - rewrite Hs. destruct (decide ((ty, size) = (ty', size'))) as [E|E].
    + injection E as <- <-. now rewrite decide_True.
    + rewrite decide_False; [reflexivity|congruence].
  - rewrite decide_False; [reflexivity|congruence].
Qed.

Lemma add_file_err w reg file e :
  MusicFontFamily.check_file w file = Err e ->
  AbstractMusicFontList.add_file w reg file = Err e.
Proof. unfold AbstractMusicFontList.add_file. now intros ->. Qed.

(** A path that is there and is not a link is itself what [stat] sees. *)
Lemma stat_not_link w p :
  is_symlink w p = false -> os_stat w p = nodes w !! p.
Proof.
  unfold is_symlink, os_stat, max_links. simpl.
  destruct (nodes w !! p) as [[| | |]|]; try reflexivity. discriminate.
Qed.

(** The status of a slot asked for in the world it was registered in:
    never [MISSING] or [BROKEN_LINK]; [MISSING_FILE] exactly for a
    directory or a special file. *)
Lemma registered_status w x x' file fam ty size :
  MusicFontFamily.check_file w file = Ok (fam, ty, size) ->
  MusicFontFamily.add_file w x file = Ok x' ->
  let s := fst (MusicFontFamily.status w x' ty size) in
  s <> MISSING /\ s <> BROKEN_LINK /\
  (s = MISSING_FILE <-> nodes w !! file = Some NDir \/ nodes w !! file = Some NOther).
Proof.
  intros Hc Ha s. pose proof (check_file_exists _ _ _ Hc) as He.
  assert (Hs : slot x' ty size = Some (MusicFontFile.init file)).
  { unfold MusicFontFamily.add_file in Ha. rewrite Hc in Ha.
    destruct (MusicFontFamily.family_set x && _); [discriminate|]. injection Ha as <-.
    rewrite slot_add, decide_True; auto. }
  subst s. rewrite status_value, Hs. simpl. unfold MusicFontFamily.resolve.
  destruct (is_symlink w file) eqn:Hl.
  - rewrite He. repeat split; try discriminate.
    intros [H|H]; unfold is_symlink in Hl; rewrite H in Hl; discriminate.
  - pose proof (stat_not_link _ _ Hl) as Hst.
    unfold path_exists in He. unfold is_file. rewrite Hst in *.
    destruct (nodes w !! file) as [[d|t| |]|] eqn:En; try discriminate He.
    + split; [discriminate|]. split; [discriminate|].
      split; [discriminate|intros [H|H]; discriminate].
    + unfold is_symlink in Hl. rewrite En in Hl. discriminate.
    + split; [discriminate|]. split; [discriminate|]. split; auto.
    + split; [discriminate|]. split; [discriminate|]. split; auto.
Qed.

(** C8, on the code: a directory and a fifo named like font files pass
    [check_file] (it asks [os.path.exists] only); once registered, by
    [add_file] or by [add_tree], their status is [MISSING_FILE].  The
    dangling link [cadence-13.otf] is refused as the claim says. *)
Theorem registered_directory_is_missing_file :
  (exists x,
      MusicFontFamily.add_file example_world MusicFontFamily.empty "/src/gonville-11.otf"
      = Ok x /\
      fst (MusicFontFamily.status example_world x otf "11") = MISSING_FILE) /\
  (let reg := AbstractMusicFontList.add_tree example_world AbstractMusicFontList.empty "/src" in
   AbstractMusicFontList.families reg = ["beethoven"; "emmentaler"]%string /\
   exists x, AbstractMusicFontList.family reg "beethoven" = Some x /\
             fst (MusicFontFamily.status example_world x otf "11") = MISSING_FILE) /\
  (exists msg,
      MusicFontFamily.check_file example_world "/ly/fonts/otf/cadence-13.otf"
      = Err (MusicFontException msg)).
Proof.
  split; [|split].
  - eexists. split; vm_compute; reflexivity.
  - split; [vm_compute; reflexivity|]. eexists. split; vm_compute; reflexivity.
  - eexists. vm_compute. reflexivity.
Qed.

(** ** [add_tree] *)

Lemma add_tree_fold w reg root :
  AbstractMusicFontList.add_tree w reg root
  = fold_left (AbstractMusicFontList.try_add_file w) (tree_files w root) reg.
Proof.
  unfold AbstractMusicFontList.add_tree, tree_files.
  generalize (walk_of w root). intros l. revert reg.
  induction l as [|[[dir dirs] files] l IH]; intros reg; simpl; [reflexivity|].
  rewrite fold_left_app, IH. f_equal.
  clear. revert reg. induction files as [|f files IH]; intros reg; simpl; auto.
Qed.

Lemma try_add_file_cases w reg p :
  match key_of w p with
  | Some (n, ty, size) =>
      exists x, AbstractMusicFontList.try_add_file w reg p = Dict.set n x reg /\
                AbstractMusicFontList.add_file w reg p = Ok (Dict.set n x reg)
  | None => AbstractMusicFontList.try_add_file w reg p = reg
  end.
Proof.
  unfold key_of, AbstractMusicFontList.try_add_file.
  destruct (MusicFontFamily.check_file w p) as [[[n ty] size]|e] eqn:Hc.
  - destruct (registry_add_file_ok w reg p n ty size Hc) as (x & Hx & _).
    exists x. now rewrite Hx.
  - now rewrite (add_file_err _ _ _ _ Hc).
Qed.

Lemma rslot_try_add_file w reg p n ty size :
  rslot (AbstractMusicFontList.try_add_file w reg p) n ty size
  = if decide (key_of w p = Some (n, ty, size)) then Some (MusicFontFile.init p)
    else rslot reg n ty size.
Proof.
  unfold key_of, AbstractMusicFontList.try_add_file.
  destruct (MusicFontFamily.check_file w p) as [[[n0 ty0] size0]|e] eqn:Hc.
  - destruct (registry_add_file_ok w reg p n0 ty0 size0 Hc) as (x & Hx & _).
    rewrite Hx. rewrite (rslot_add_file w reg _ p n0 ty0 size0 n ty size Hc Hx).
    destruct (decide ((n0, ty0, size0) = (n, ty, size))) as [E|E].
    + rewrite decide_True; congruence.
    + rewrite decide_False; congruence.
  - rewrite (add_file_err _ _ _ _ Hc). rewrite decide_False; [reflexivity|discriminate].
Qed.

Lemma rslot_fold_try w l : forall reg n ty size,
  rslot (fold_left (AbstractMusicFontList.try_add_file w) l reg) n ty size
  = match last_hit w l (n, ty, size) with
    | Some p => Some (MusicFontFile.init p)
    | None => rslot reg n ty size
    end.
Proof.
  induction l as [|p l IH]; intros reg n ty size; simpl; [reflexivity|].
  rewrite IH. destruct (last_hit w l (n, ty, size)); [reflexivity|].
  rewrite rslot_try_add_file. now case_decide.
Qed.

Lemma keys_try_add_file w reg p :
  Dict.keys (AbstractMusicFontList.try_add_file w reg p)
  = match key_of w p with
    | Some (n, _, _) =>
        if Dict.has n reg then Dict.keys reg else Dict.keys reg ++ [n]
    | None => Dict.keys reg
    end.
Proof.
  pose proof (try_add_file_cases w reg p) as H.
  destruct (key_of w p) as [[[n ty] size]|]; [|now rewrite H].
  destruct H as (x & -> & _). unfold Dict.has.
  destruct (Dict.get n reg) eqn:E.
  - apply keys_set_present. eapply get_some_in_keys. exact E.
  - apply keys_set_absent. now apply get_none_keys.
Qed.

Lemma keys_try_add_file_incl w reg p n :
  In n (Dict.keys reg) -> In n (Dict.keys (AbstractMusicFontList.try_add_file w reg p)).
Proof.
  intros H. rewrite keys_try_add_file.
  destruct (key_of w p) as [[[n0 ty] size]|]; [|assumption].
  destruct (Dict.has n0 reg); [assumption|]. apply in_or_app. now left.
Qed.

Lemma keys_fold_try_incl w l : forall reg n,
  In n (Dict.keys reg) ->
  In n (Dict.keys (fold_left (AbstractMusicFontList.try_add_file w) l reg)).
Proof.
  induction l as [|p l IH]; intros reg n H; simpl; [assumption|].
  apply IH. now apply keys_try_add_file_incl.
Qed.

(** Every family some accepted path belongs to is present afterwards. *)
Lemma keys_fold_try_hit w l : forall reg p n ty size,
  In p l -> key_of w p = Some (n, ty, size) ->
  In n (Dict.keys (fold_left (AbstractMusicFontList.try_add_file w) l reg)).
Proof.
  induction l as [|q l IH]; intros reg p n ty size Hin Hk; simpl; [destruct Hin|].
  destruct Hin as [->|Hin].
  - apply keys_fold_try_incl. rewrite keys_try_add_file, Hk.
    unfold Dict.has. destruct (Dict.get n reg) eqn:E.
    + eapply get_some_in_keys. exact E.
    + apply in_or_app. right. now left.
  - eapply IH; eauto.
Qed.

(** Adding paths whose families are all present adds no family. *)
Lemma keys_fold_try_stable w l : forall reg,
  (forall p n ty size, In p l -> key_of w p = Some (n, ty, size) -> In n (Dict.keys reg)) ->
  Dict.keys (fold_left (AbstractMusicFontList.try_add_file w) l reg) = Dict.keys reg.
Proof.
  induction l as [|q l IH]; intros reg H; simpl; [reflexivity|].
  assert (Hq : Dict.keys (AbstractMusicFontList.try_add_file w reg q) = Dict.keys reg).
  { rewrite keys_try_add_file.
    destruct (key_of w q) as [[[n ty] size]|] eqn:Hk; [|reflexivity].
    unfold Dict.has. destruct (Dict.get n reg) eqn:E; [reflexivity|].
    apply get_none_keys in E. exfalso. apply E. eapply H; [left; reflexivity|exact Hk]. }
  rewrite IH; [exact Hq|].
  intros p n ty size Hin Hk. rewrite Hq. eapply H; [right; exact Hin|exact Hk].
Qed.

(** C9.  A second [add_tree(root)] on the same registry, the directory
    unchanged, changes nothing one can ask for: [families()] is the
    same list, every slot holds the same file object, and so the status
    of every slot of every family is the same, in whatever state of the
    file system it is asked for. *)
Theorem add_tree_idempotent (w : World) (reg : AbstractMusicFontList.t) (root : string) :
  let once := AbstractMusicFontList.add_tree w reg root in
  let twice := AbstractMusicFontList.add_tree w once root in
  AbstractMusicFontList.families twice = AbstractMusicFontList.families once /\
  (forall name ty size, rslot twice name ty size = rslot once name ty size) /\
  (forall w' name,
      match AbstractMusicFontList.family once name,
            AbstractMusicFontList.family twice name with
      | Some x1, Some x2 =>
          forall ty size,
            fst (MusicFontFamily.status w' x2 ty size)
            = fst (MusicFontFamily.status w' x1 ty size)
      | None, None => True
      | _, _ => False
      end).
Proof.
  intros once twice.
  assert (Hkeys : Dict.keys twice = Dict.keys once).
  { subst twice once. rewrite !add_tree_fold. apply keys_fold_try_stable.
    intros p n ty size Hin Hk. eapply keys_fold_try_hit; eauto. }
  assert (Hslots : forall name ty size, rslot twice name ty size = rslot once name ty size).
  { intros name ty size. subst twice once. rewrite !add_tree_fold.
    rewrite (rslot_fold_try w (tree_files w root) (fold_left _ _ reg)).
    rewrite (rslot_fold_try w (tree_files w root) reg).
    destruct (last_hit w (tree_files w root) (name, ty, size)); reflexivity. }
  split; [|split].
  - unfold AbstractMusicFontList.families. now rewrite Hkeys.
  - exact Hslots.
  - intros w' name. unfold AbstractMusicFontList.family.
    destruct (Dict.get name once) as [x1|] eqn:E1;
      destruct (Dict.get name twice) as [x2|] eqn:E2.
    + intros ty size. rewrite !status_value.
      specialize (Hslots name ty size). unfold rslot in Hslots.
      rewrite E1, E2 in Hslots. now rewrite Hslots.
    + apply get_none_keys in E2. apply get_some_in_keys in E1.
      rewrite Hkeys in E2. contradiction.
    + apply get_none_keys in E1. apply get_some_in_keys in E2.
      rewrite Hkeys in E2. contradiction.
    + exact I.
Qed.

(** ** [flag_for_install] on a family *)

Lemma fold_left_visited {A B} (f : A -> B -> A) (Q : list B -> A -> Prop) :
  (forall vs a b, Q vs a -> Q (vs ++ [b]) (f a b)) ->
  forall l vs a, Q vs a -> Q (vs ++ l) (fold_left f l a).
Proof.
  intros Hstep. induction l as [|b l IH]; intros vs a H; simpl.
  - now rewrite app_nil_r.
  - replace (vs ++ b :: l) with ((vs ++ [b]) ++ l) by now rewrite <- app_assoc.
    apply IH. now apply Hstep.
Qed.

Lemma family_flag_fold w self target :
  MusicFontFamily.flag_for_install w self target
  = fold_left (fun st k => MusicFontFamily.flag_slot w (fst k) (snd k) st)
              (slot_keys self) (self, target).
Proof.
  unfold MusicFontFamily.flag_for_install, slot_keys, MusicFontFamily.types. simpl.
  rewrite app_nil_r, !fold_left_app.
  assert (H : forall ty l st,
             fold_left (fun st k => MusicFontFamily.flag_slot w (fst k) (snd k) st)
                       (map (pair ty) l) st
             = fold_left (fun st size => MusicFontFamily.flag_slot w ty size st) l st).
  { intros ty l. induction l as [|s l IH]; intros st; simpl; auto. }
  now rewrite !H.
Qed.

Lemma slot_status_set_install w f :
  slot_status w (Some (MusicFontFile.set_install f)) = slot_status w (Some f).
Proof. reflexivity. Qed.

(** One pass of the loop body, read slot by slot. *)
Lemma flag_slot_slots w ty size self target :
  let st := MusicFontFamily.flag_slot w ty size (self, target) in
  (forall t s,
      both (fun f0 f =>
              flagged_from w (bool_decide ((ty, size) = (t, s))
                              && wanted w self target ty size) f0 f)
           (slot self t s) (slot (fst st) t s)) /\
  (forall t s, slot_status w (slot (snd st) t s) = slot_status w (slot target t s)) /\
  (forall t, Dict.keys (MusicFontFamily.files (fst st) t)
             = Dict.keys (MusicFontFamily.files self t)) /\
  (forall t, Dict.keys (MusicFontFamily.files (snd st) t)
             = Dict.keys (MusicFontFamily.files target t)).
Proof.
  unfold MusicFontFamily.flag_slot, wanted.
  pose proof (status_value w self ty size) as Hv1.
  pose proof (status_slot w self ty size) as Hs1.
  pose proof (status_keys w self ty size) as Hk1.
  destruct (MusicFontFamily.status w self ty size) as [s1 self1]. simpl in Hv1, Hs1, Hk1.
  assert (Hmemo : forall t s,
             both (fun f0 f => flagged_from w false f0 f) (slot self t s) (slot self1 t s)).
  { intros t s. rewrite Hs1. case_decide.
    - destruct (slot self t s) as [f|]; simpl; [|exact I].
      unfold flagged_from. rewrite orb_false_r. repeat split.
      + unfold memoized. destruct (MusicFontFile.status f); reflexivity.
      + apply slot_status_memoized.
      + unfold memoized. destruct (MusicFontFile.status f); reflexivity.
    - destruct (slot self t s) as [f|]; simpl; [|exact I].
      unfold flagged_from. now rewrite orb_false_r. }
  destruct (usable s1) eqn:Hu1; simpl.
  - pose proof (status_value w target ty size) as Hv2.
    pose proof (status_slot w target ty size) as Hs2.
    pose proof (status_keys w target ty size) as Hk2.
    destruct (MusicFontFamily.status w target ty size) as [s2 target1].
    simpl in Hv2, Hs2, Hk2.
    assert (Ht : forall t s,
               slot_status w (slot target1 t s) = slot_status w (slot target t s)).
    { intros t s. rewrite Hs2. case_decide; [apply slot_status_memoized_same|reflexivity]. }
    destruct (usable s2) eqn:Hu2; simpl.
    + split; [|split; [|split]]; auto.
      intros t s. rewrite Hu1, Hu2. simpl. rewrite andb_false_r. apply Hmemo.
    + destruct (Dict.get size (MusicFontFamily.files self1 ty)) as [f1|] eqn:E1; simpl.
      * split; [|split; [|split]]; auto.
        -- intros t s. rewrite slot_set_files. rewrite Hu1, Hu2. simpl.
           rewrite andb_true_r.
           specialize (Hmemo t s). case_decide as Hd.
           ++ injection Hd as <- <-. rewrite bool_decide_true by reflexivity.
              fold (slot self1 ty size) in E1. rewrite E1 in Hmemo.
              destruct (slot self ty size) as [f0|]; simpl in *; [|contradiction].
              destruct Hmemo as (Hf & Hst & Hi). unfold flagged_from. simpl.
              repeat split; auto. now rewrite orb_true_r.
           ++ rewrite bool_decide_false by assumption. exact Hmemo.
        -- intros t. rewrite <- Hk1. eapply keys_set_files_present. exact E1.
      * split; [|split; [|split]]; auto.
        intros t s. rewrite Hu1, Hu2. simpl. rewrite andb_true_r.
        specialize (Hmemo t s).
        case_bool_decide as Hd; [|exact Hmemo].
        injection Hd as <- <-. fold (slot self1 ty size) in E1. rewrite E1 in Hmemo.
        destruct (slot self ty size); simpl in *; [contradiction|].
        subst s1. discriminate Hu1.
  - split; [|split; [|split]]; auto.
    intros t s. rewrite Hu1. simpl. rewrite andb_false_r. apply Hmemo.
Qed.

Lemma flagged_from_trans w c1 c2 f0 f1 f2 :
  flagged_from w c1 f0 f1 -> flagged_from w c2 f1 f2 -> flagged_from w (c1 || c2) f0 f2.
Proof.
  intros (F1 & S1 & I1) (F2 & S2 & I2). repeat split.
  - congruence.
  - congruence.
  - rewrite I2, I1. now rewrite orb_assoc.
Qed.

Lemma both_flagged_trans w c1 c2 o0 o1 o2 :
  both (flagged_from w c1) o0 o1 -> both (flagged_from w c2) o1 o2 ->
  both (flagged_from w (c1 || c2)) o0 o2.
Proof.
  destruct o0, o1, o2; simpl; try tauto. apply flagged_from_trans.
Qed.

Lemma both_flagged_status w c o0 o :
  both (flagged_from w c) o0 o -> slot_status w o = slot_status w o0.
Proof.
  destruct o0, o; simpl; try tauto. now intros (_ & S & _).
Qed.

Lemma wanted_slots w self target ty size :
  wanted w self target ty size
  = usable (slot_status w (slot self ty size))
    && negb (usable (slot_status w (slot target ty size))).
Proof. unfold wanted. now rewrite !status_value. Qed.

Lemma slot_in_keys x ty size f :
  slot x ty size = Some f -> (ty, size) ∈ slot_keys x.
Proof.
  intros H. apply list_elem_of_In. unfold slot_keys. apply in_flat_map.
  exists ty. split.
  - destruct ty; simpl; auto.
  - apply in_map. eapply get_some_in_keys. exact H.
Qed.

Lemma flag_inv_init w self target : flag_inv w self target [] (self, target).
Proof.
  repeat split; auto. intros t s. simpl.
  destruct (slot self t s); simpl; [|exact I].
  unfold flagged_from. now rewrite orb_false_r.
Qed.

Lemma flag_inv_step w self0 target0 vs st k :
  flag_inv w self0 target0 vs st ->
  flag_inv w self0 target0 (vs ++ [k]) (MusicFontFamily.flag_slot w (fst k) (snd k) st).
Proof.
  destruct st as [self target], k as [ty size]. simpl.
  intros (Hs & Ht & Hk1 & Hk2).
  destruct (flag_slot_slots w ty size self target) as (Hs' & Ht' & Hk1' & Hk2').
  simpl in *.
  assert (Hw : wanted w self target ty size = wanted w self0 target0 ty size).
  { rewrite !wanted_slots. rewrite (both_flagged_status _ _ _ _ (Hs ty size)).
    now rewrite Ht. }
  repeat split.
  - intros t s.
    pose proof (both_flagged_trans _ _ _ _ _ _ (Hs t s) (Hs' t s)) as H.
    rewrite Hw in H.
    replace (bool_decide ((t, s) ∈ vs ++ [(ty, size)]) && wanted w self0 target0 t s)
      with (bool_decide ((t, s) ∈ vs) && wanted w self0 target0 t s
            || bool_decide ((ty, size) = (t, s)) && wanted w self0 target0 ty size);
      [exact H|].
    destruct (decide ((ty, size) = (t, s))) as [E|E].
    + injection E as <- <-.
      rewrite (bool_decide_true (_ = _)) by reflexivity.
      rewrite (bool_decide_true (_ ∈ _ ++ _)) by (apply elem_of_app; right; apply list_elem_of_singleton; reflexivity).
      simpl. destruct (bool_decide _), (wanted w self0 target0 ty size); reflexivity.
    + rewrite (bool_decide_false (_ = _)) by assumption. simpl. rewrite orb_false_r.
      f_equal. apply bool_decide_ext. rewrite elem_of_app, list_elem_of_singleton.
      split; [auto|]. intros [H1|H1]; [assumption|]. congruence.
  - intros t s. now rewrite Ht', Ht.
  - intros t. now rewrite Hk1', Hk1.
  - intros t. now rewrite Hk2', Hk2.
Qed.

Lemma flag_for_install_inv w self target :
  flag_inv w self target (slot_keys self) (MusicFontFamily.flag_for_install w self target).
Proof.
  rewrite family_flag_fold.
  apply (fold_left_visited
           (fun st k => MusicFontFamily.flag_slot w (fst k) (snd k) st)
           (flag_inv w self target)
           (fun vs a b H => flag_inv_step w self target vs a b H)
           (slot_keys self) [] (self, target)).
  apply flag_inv_init.
Qed.

(** [flag_for_install] on a family, slot by slot: no slot appears or
    disappears, every file keeps its path and its status, and its
    install flag becomes true exactly when it was true or the slot is
    [wanted]. *)
Lemma family_flag_for_install_slots w self target ty size :
  let st := MusicFontFamily.flag_for_install w self target in
  both (flagged_from w (wanted w self target ty size))
       (slot self ty size) (slot (fst st) ty size) /\
  slot_status w (slot (snd st) ty size) = slot_status w (slot target ty size).
Proof.
  destruct (flag_for_install_inv w self target) as (Hs & Ht & _).
  split; [|apply Ht].
  specialize (Hs ty size).
  destruct (slot self ty size) as [f0|] eqn:E.
  - rewrite bool_decide_true in Hs by (eapply slot_in_keys; exact E). exact Hs.
  - destruct (slot (fst (MusicFontFamily.flag_for_install w self target)) ty size);
      simpl in *; tauto.
Qed.

(** ** [flag_all_for_install] and [MusicFontRepo.flag_for_install] *)

Lemma flag_all_fold x :
  MusicFontFamily.flag_all_for_install x = fold_left flag_one (slot_keys x) x.
Proof.
  unfold MusicFontFamily.flag_all_for_install, slot_keys, MusicFontFamily.types. simpl.
  rewrite app_nil_r, !fold_left_app.
  assert (H : forall ty l acc,
             fold_left flag_one (map (pair ty) l) acc
             = fold_left
                 (fun acc size =>
                    match Dict.get size (MusicFontFamily.files acc ty) with
                    | Some f =>
                        MusicFontFamily.set_files acc ty
                          (Dict.set size (MusicFontFile.set_install f)
                             (MusicFontFamily.files acc ty))
                    | None => acc
                    end) l acc).
  { intros ty l. induction l as [|s l IH]; intros acc; simpl; auto. }
  now rewrite !H.
Qed.

Lemma flagged_from_refl w f : flagged_from w false f f.
Proof. unfold flagged_from. now rewrite orb_false_r. Qed.

Lemma both_flagged_refl w o : both (flagged_from w false) o o.
Proof. destruct o; simpl; [apply flagged_from_refl|exact I]. Qed.

Lemma flag_one_slots w x k t s :
  both (flagged_from w (bool_decide (k = (t, s)))) (slot x t s) (slot (flag_one x k) t s).
Proof.
  destruct k as [ty size]. unfold flag_one. simpl.
  destruct (Dict.get size (MusicFontFamily.files x ty)) as [f|] eqn:E.
  - rewrite slot_set_files. case_decide as Hd.
    + injection Hd as <- <-. rewrite bool_decide_true by reflexivity.
      fold (slot x ty size) in E. rewrite E. simpl.
      unfold flagged_from. simpl. repeat split. now rewrite orb_true_r.
    + rewrite bool_decide_false by assumption. apply both_flagged_refl.
  - case_bool_decide as Hd; [|apply both_flagged_refl].
    injection Hd as <- <-. fold (slot x ty size) in E. rewrite E. exact I.
Qed.

Lemma flag_all_slots w x : flags_all_set w x (MusicFontFamily.flag_all_for_install x).
Proof.
  rewrite flag_all_fold.
  assert (H : forall l vs acc,
             (forall t s, both (flagged_from w (bool_decide ((t, s) ∈ vs)))
                               (slot x t s) (slot acc t s)) ->
             forall t s, both (flagged_from w (bool_decide ((t, s) ∈ vs ++ l)))
                              (slot x t s) (slot (fold_left flag_one l acc) t s)).
  { apply (fold_left_visited flag_one
             (fun vs acc => forall t s,
                  both (flagged_from w (bool_decide ((t, s) ∈ vs)))
                       (slot x t s) (slot acc t s))).
    intros vs acc k Hacc t s.
    pose proof (both_flagged_trans _ _ _ _ _ _ (Hacc t s) (flag_one_slots w acc k t s)) as H.
    replace (bool_decide ((t, s) ∈ vs ++ [k]))
      with (bool_decide ((t, s) ∈ vs) || bool_decide (k = (t, s))); [exact H|].
    destruct (decide (k = (t, s))) as [->|Hne].
    - rewrite (bool_decide_true (_ = _)) by reflexivity. rewrite orb_true_r.
      symmetry. apply bool_decide_true, elem_of_app. right.
      apply list_elem_of_singleton. reflexivity.
    - rewrite (bool_decide_false (_ = _)) by assumption. rewrite orb_false_r.
      apply bool_decide_ext. rewrite elem_of_app, list_elem_of_singleton.
      split; [auto|]. intros [H1|H1]; [assumption|]. congruence. }
  intros t s. specialize (H (slot_keys x) [] x). simpl in H.
  assert (H0 : forall t s, both (flagged_from w (bool_decide ((t, s) ∈ [])))
                                (slot x t s) (slot x t s)).
  { intros t0 s0. rewrite bool_decide_false by apply not_elem_of_nil.
    apply both_flagged_refl. }
  specialize (H H0 t s).
  destruct (slot x t s) as [f0|] eqn:E.
  - rewrite bool_decide_true in H by (eapply slot_in_keys; exact E). exact H.
  - destruct (slot (fold_left flag_one (slot_keys x) x) t s); simpl in *; tauto.
Qed.

Lemma flags_all_set_grown w x0 x : flags_all_set w x0 x -> flags_grown w x0 x.
Proof. intros H t s. exists true. apply H. Qed.

Lemma flags_grown_refl w x : flags_grown w x x.
Proof. intros t s. exists false. apply both_flagged_refl. Qed.

Lemma flags_grown_trans w x0 x1 x2 :
  flags_grown w x0 x1 -> flags_grown w x1 x2 -> flags_grown w x0 x2.
Proof.
  intros H1 H2 t s. destruct (H1 t s) as (c1 & B1), (H2 t s) as (c2 & B2).
  exists (c1 || c2). eapply both_flagged_trans; eauto.
Qed.

Lemma flags_all_set_then_grown w x0 x1 x2 :
  flags_all_set w x0 x1 -> flags_grown w x1 x2 -> flags_all_set w x0 x2.
Proof.
  intros H1 H2 t s. destruct (H2 t s) as (c2 & B2).
  apply (both_flagged_trans _ _ _ _ _ _ (H1 t s) B2).
Qed.

Lemma flags_grown_then_all_set w x0 x1 x2 :
  flags_grown w x0 x1 -> flags_all_set w x1 x2 -> flags_all_set w x0 x2.
Proof.
  intros H1 H2 t s. destruct (H1 t s) as (c1 & B1).
  pose proof (both_flagged_trans _ _ _ _ _ _ B1 (H2 t s)) as H.
  now rewrite orb_true_r in H.
Qed.

Lemma family_flag_grown w self target :
  flags_grown w self (fst (MusicFontFamily.flag_for_install w self target)).
Proof.
  intros t s. eexists. apply (family_flag_for_install_slots w self target t s).
Qed.

(** One family name of the first loop of the repo's [flag_for_install]. *)
Lemma flag_family_spec w name mine theirs :
  let st := MusicFontRepo.flag_family w name (mine, theirs) in
  (forall n, both (fun x0 x =>
                     flags_grown w x0 x /\
                     (n = name -> Dict.get name theirs = None -> flags_all_set w x0 x))
                  (Dict.get n mine) (Dict.get n (fst st))) /\
  (forall n, Dict.get n (snd st) = None <-> Dict.get n theirs = None) /\
  Dict.keys (fst st) = Dict.keys mine.
Proof.
  unfold MusicFontRepo.flag_family, AbstractMusicFontList.family.
  destruct (Dict.get name mine) as [rf|] eqn:Em.
  - destruct (Dict.get name theirs) as [tf|] eqn:Et.
    + pose proof (family_flag_grown w rf tf) as Hg.
      destruct (MusicFontFamily.flag_for_install w rf tf) as [rf' tf']. simpl in *.
      split; [|split].
      * intros n. rewrite get_set. case_decide as Hd.
        -- subst n. rewrite Em. simpl. split; [exact Hg|]. intros _ H. discriminate.
        -- destruct (Dict.get n mine); simpl; [|exact I].
           split; [apply flags_grown_refl|]. intros H. congruence.
      * intros n. rewrite get_set. case_decide as Hd.
        -- subst n. rewrite Et. split; discriminate.
        -- reflexivity.
      * apply keys_set_present. eapply get_some_in_keys. exact Em.
    + simpl. split; [|split].
      * intros n. rewrite get_set. case_decide as Hd.
        -- subst n. rewrite Em. simpl.
           split; [apply flags_all_set_grown|intros _ _]; apply flag_all_slots.
        -- destruct (Dict.get n mine); simpl; [|exact I].
           split; [apply flags_grown_refl|]. intros H. congruence.
      * reflexivity.
      * apply keys_set_present. eapply get_some_in_keys. exact Em.
  - simpl. split; [|split]; try reflexivity.
    intros n. destruct (Dict.get n mine) eqn:En; simpl; [|exact I].
    split; [apply flags_grown_refl|]. intros H. congruence.
Qed.

Lemma flag_families_step w mine0 theirs0 vs st name :
  flag_families_inv w mine0 theirs0 vs st ->
  flag_families_inv w mine0 theirs0 (vs ++ [name]) (MusicFontRepo.flag_family w name st).
Proof.
  destruct st as [mine theirs]. intros (Hm & Ht & Hk).
  pose proof (flag_family_spec w name mine theirs) as H'. cbv zeta in H'.
  destruct (MusicFontRepo.flag_family w name (mine, theirs)) as [mine' theirs'].
  destruct H' as (Hm' & Ht' & Hk').
  cbn [fst snd] in *. split; [|split]; cbn [fst snd].
  - intros n. specialize (Hm n). specialize (Hm' n).
    destruct (Dict.get n mine0) as [x0|], (Dict.get n mine) as [x1|],
      (Dict.get n mine') as [x2|];
      simpl in *; try tauto.
    destruct Hm as (G1 & A1), Hm' as (G2 & A2). split.
    + eapply flags_grown_trans; eauto.
    + intros Hin Hnone. apply elem_of_app in Hin. destruct Hin as [Hin|Hin].
      * eapply flags_all_set_then_grown; eauto.
      * apply list_elem_of_singleton in Hin. subst n.
        eapply flags_grown_then_all_set; [exact G1|]. apply A2; [reflexivity|].
        now apply Ht.
  - intros n. now rewrite Ht', Ht.
  - now rewrite Hk', Hk.
Qed.

Lemma flag_families_spec w mine theirs :
  flag_families_inv w mine theirs (Dict.keys mine) (MusicFontRepo.flag_families w mine theirs).
Proof.
  unfold MusicFontRepo.flag_families.
  apply (fold_left_visited (fun st name => MusicFontRepo.flag_family w name st)
           (flag_families_inv w mine theirs)
           (fun vs a b H => flag_families_step w mine theirs vs a b H)
           (Dict.keys mine) [] (mine, theirs)).
  split; [|split]; simpl; try reflexivity.
  intros n. destruct (Dict.get n mine); simpl; [|exact I].
  split; [apply flags_grown_refl|]. intros H. now apply not_elem_of_nil in H.
Qed.

(** The families of the repo after [flag_for_install(installed)],
    whether or not the rebuilding of [installable_fonts] went through. *)
Lemma repo_flag_families w r installed :
  MusicFontRepo.families (fst (state_of (MusicFontRepo.flag_for_install w r installed)))
  = fst (MusicFontRepo.flag_families w (MusicFontRepo.families r) installed).
Proof.
  unfold MusicFontRepo.flag_for_install.
  destruct (MusicFontRepo.flag_families w (MusicFontRepo.families r) installed) as [m t].
  destruct (MusicFontRepo.collect w (AbstractMusicFontList.walk m)
              AbstractMusicFontList.empty); reflexivity.
Qed.

(** C4.  On a family, [flag_for_install(target_family)] keeps every
    slot and every file path, and the install flag of a slot is true
    afterwards exactly when it was true before or the own status is
    [FILE] or [LINK] while the status of the target's slot is neither;
    so with a target all of whose slots are [FILE] or [LINK] no flag
    changes.  On a repo, a family whose name the installed registry
    does not have gets every file flagged. *)
Theorem flag_for_install_flags (w : World) :
  (forall self target ty size,
      let self' := fst (MusicFontFamily.flag_for_install w self target) in
      match slot self ty size, slot self' ty size with
      | Some f0, Some f =>
          MusicFontFile.file f = MusicFontFile.file f0 /\
          MusicFontFile.install f
          = MusicFontFile.install f0
            || usable (fst (MusicFontFamily.status w self ty size))
               && negb (usable (fst (MusicFontFamily.status w target ty size)))
      | None, None => True
      | _, _ => False
      end) /\
  (forall self target,
      (forall ty size,
          slot self ty size <> None ->
          usable (fst (MusicFontFamily.status w target ty size)) = true) ->
      forall ty size f0,
        slot self ty size = Some f0 ->
        exists f,
          slot (fst (MusicFontFamily.flag_for_install w self target)) ty size = Some f /\
          MusicFontFile.install f = MusicFontFile.install f0) /\
  (forall r installed name x0,
      AbstractMusicFontList.family (MusicFontRepo.families r) name = Some x0 ->
      AbstractMusicFontList.family installed name = None ->
      exists x,
        AbstractMusicFontList.family
          (MusicFontRepo.families
             (fst (state_of (MusicFontRepo.flag_for_install w r installed)))) name
        = Some x /\
        forall ty size f0,
          slot x0 ty size = Some f0 ->
          exists f, slot x ty size = Some f /\
                    MusicFontFile.file f = MusicFontFile.file f0 /\
                    MusicFontFile.install f = true).
Proof.
  split; [|split].
  - intros self target ty size self'. subst self'.
    destruct (family_flag_for_install_slots w self target ty size) as (H & _).
    destruct (slot self ty size) as [f0|],
      (slot (fst (MusicFontFamily.flag_for_install w self target)) ty size) as [f|];
      simpl in *; try tauto.
    destruct H as (Hf & _ & Hi). split; [exact Hf|exact Hi].
  - intros self target Hall ty size f0 Hs.
    destruct (family_flag_for_install_slots w self target ty size) as (H & _).
    rewrite Hs in H.
    destruct (slot (fst (MusicFontFamily.flag_for_install w self target)) ty size) as [f|];
      simpl in H; [|contradiction].
    exists f. split; [reflexivity|]. destruct H as (_ & _ & Hi). rewrite Hi.
    unfold wanted. rewrite (Hall ty size) by (rewrite Hs; discriminate).
    simpl. now rewrite andb_false_r, orb_false_r.
  - intros r installed name x0 Hm Hn. rewrite repo_flag_families.
    destruct (flag_families_spec w (MusicFontRepo.families r) installed) as (H & _).
    specialize (H name). unfold AbstractMusicFontList.family in *. rewrite Hm in H.
    destruct (Dict.get name (fst (MusicFontRepo.flag_families w (MusicFontRepo.families r)
                                    installed))) as [x|]; simpl in H; [|contradiction].
    exists x. split; [reflexivity|]. intros ty size f0 Hs.
    destruct H as (_ & Hall).
    assert (Hin : name ∈ Dict.keys (MusicFontRepo.families r)).
    { apply list_elem_of_In. eapply get_some_in_keys. exact Hm. }
    specialize (Hall Hin Hn ty size). rewrite Hs in Hall.
    destruct (slot x ty size) as [f|]; simpl in Hall; [|contradiction].
    exists f. destruct Hall as (Hf & _ & Hi). repeat split; auto.
    rewrite Hi. apply orb_true_r.
Qed.

Lemma example_repo_emmentaler :
  AbstractMusicFontList.family (MusicFontRepo.families example_repo) "emmentaler"
  = Some example_emmentaler.
Proof. vm_compute. reflexivity. Qed.

Lemma example_installed_families :
  AbstractMusicFontList.families (InstalledMusicFonts.families example_installed)
  = ["cadence"; "haydn"]%string /\
  AbstractMusicFontList.family (InstalledMusicFonts.families example_installed) "haydn"
  = Some example_haydn.
Proof. split; vm_compute; reflexivity. Qed.

Lemma example_haydn_usable ty size :
  slot example_haydn ty size <> None ->
  usable (fst (MusicFontFamily.status example_world example_haydn ty size)) = true.
Proof.
  intros H. destruct (slot example_haydn ty size) as [f|] eqn:E; [|contradiction].
  apply slot_in_keys, list_elem_of_In in E. vm_compute in E.
  destruct E as [E|[E|[]]]; injection E as <- <-; vm_compute; reflexivity.
Qed.

Lemma flag_for_install_flags_witness :
  (exists f,
      slot (fst (MusicFontFamily.flag_for_install example_world example_haydn example_haydn))
           otf "11" = Some f /\
      MusicFontFile.install f = false) /\
  (exists x,
      AbstractMusicFontList.family
        (MusicFontRepo.families
           (fst (state_of (MusicFontRepo.flag_for_install example_world example_repo
                             (InstalledMusicFonts.families example_installed)))))
        "emmentaler" = Some x /\
      forall ty size f0,
        slot example_emmentaler ty size = Some f0 ->
        exists f, slot x ty size = Some f /\
                  MusicFontFile.file f = MusicFontFile.file f0 /\
                  MusicFontFile.install f = true).
Proof.
  split.
  - apply (proj1 (proj2 (flag_for_install_flags example_world))
             example_haydn example_haydn example_haydn_usable
             otf "11" (MusicFontFile.init "/ly/fonts/otf/haydn-11.otf")).
    reflexivity.
  - apply (proj2 (proj2 (flag_for_install_flags example_world))
             example_repo (InstalledMusicFonts.families example_installed)
             "emmentaler" example_emmentaler).
    + exact example_repo_emmentaler.
    + vm_compute. reflexivity.
Defined.

(** ** Walking a registry *)

Lemma family_walk_spec x t s f :
  In (t, s, f) (MusicFontFamily.walk x) <-> slot x t s = Some f.
Proof.
  unfold MusicFontFamily.walk. rewrite in_flat_map. split.
  - intros (ty & _ & H). apply list_elem_of_In, list_elem_of_omap in H.
    destruct H as (size & _ & H). unfold slot.
    destruct (Dict.get size (MusicFontFamily.files x ty)) eqn:E; [|discriminate].
    injection H as <- <- <-. exact E.
  - intros H. exists t. split; [destruct t; simpl; auto|].
    apply list_elem_of_In, list_elem_of_omap. exists s. split.
    + apply list_elem_of_In. eapply get_some_in_keys. exact H.
    + unfold slot in H. now rewrite H.
Qed.

Lemma registry_walk_spec reg n t s f :
  In (n, t, s, f) (AbstractMusicFontList.walk reg) <-> rslot reg n t s = Some f.
Proof.
  unfold AbstractMusicFontList.walk, AbstractMusicFontList.family, rslot.
  rewrite in_flat_map. split.
  - intros (name & _ & H). destruct (Dict.get name reg) as [x|] eqn:E; [|destruct H].
    apply in_map_iff in H. destruct H as ([[t' s'] f'] & Heq & H).
    injection Heq as <- <- <- <-. rewrite E. now apply family_walk_spec.
  - intros H. exists n. destruct (Dict.get n reg) as [x|] eqn:E; [|discriminate].
    split; [eapply get_some_in_keys; exact E|].
    apply in_map_iff. exists (t, s, f). split; [reflexivity|]. now apply family_walk_spec.
Qed.

Lemma rslot_parsed reg n t s f :
  parsed reg -> rslot reg n t s = Some f ->
  parse_triplet (MusicFontFile.file f) = Some (n, ftype_name t, s).
Proof.
  intros Hp H. unfold rslot in H. destruct (Dict.get n reg) as [x|] eqn:E; [|discriminate].
  eapply Hp; [eapply get_some_in; exact E|exact H].
Qed.

(** ** The registry invariant *)

Lemma parsed_empty : parsed AbstractMusicFontList.empty.
Proof. intros name x []. Qed.

Lemma in_set {V} k (v : V) d x : In x (Dict.set k v d) -> x = (k, v) \/ In x d.
Proof.
  induction d as [|[k' v'] d IH]; simpl.
  - intros [<-|[]]. now left.
  - destruct (String.eqb k' k) eqn:E; simpl.
    + apply String.eqb_eq in E. subst. intros [<-|H]; auto.
    + intros [<-|H]; auto. destruct (IH H); auto.
Qed.

Lemma parsed_add_file w reg reg' file :
  parsed reg -> AbstractMusicFontList.add_file w reg file = Ok reg' -> parsed reg'.
Proof.
  intros Hp Ha.
  destruct (MusicFontFamily.check_file w file) as [[[n ty] size]|e] eqn:Hc;
    [|rewrite (add_file_err _ _ _ _ Hc) in Ha; discriminate].
  destruct (registry_add_file_ok w reg file n ty size Hc) as (x & Hx & Hs).
  rewrite Hx in Ha. injection Ha as <-.
  intros name x' Hin ty' size' f Hf.
  apply in_set in Hin. destruct Hin as [Heq|Hin]; [|eapply Hp; eauto].
  injection Heq as -> ->. rewrite Hs in Hf. case_decide as Hd.
  - injection Hd as <- <-. injection Hf as <-. simpl.
    now apply (check_file_parsed w).
  - eapply rslot_parsed; eauto.
Qed.

Lemma parsed_try_add_file w reg file :
  parsed reg -> parsed (AbstractMusicFontList.try_add_file w reg file).
Proof.
  intros Hp. unfold AbstractMusicFontList.try_add_file.
  destruct (AbstractMusicFontList.add_file w reg file) eqn:E; [|exact Hp].
  eapply parsed_add_file; eauto.
Qed.

(** Every registry [add_tree] fills from an empty one keeps its files in
    the slots their names say. *)
Lemma parsed_add_tree w reg root :
  parsed reg -> parsed (AbstractMusicFontList.add_tree w reg root).
Proof.
  rewrite add_tree_fold. generalize (tree_files w root). intros l. revert reg.
  induction l as [|p l IH]; intros reg Hp; simpl; [exact Hp|].
  apply IH. now apply parsed_try_add_file.
Qed.

Lemma parsed_pop reg name : parsed reg -> parsed (Dict.pop name reg).
Proof. intros Hp n x Hin. apply in_pop in Hin. now apply Hp. Qed.

(** ** Rebuilding [installable_fonts] *)

Lemma collect_slots w fonts : forall acc,
  (forall n t s f, In (n, t, s, f) fonts -> MusicFontFile.install f = true ->
                   MusicFontFamily.check_file w (MusicFontFile.file f) = Ok (n, t, s)) ->
  exists inst,
    MusicFontRepo.collect w fonts acc = Ret tt inst /\
    forall n t s,
      rslot inst n t s
      = match last_flagged fonts (n, t, s) with
        | Some p => Some (MusicFontFile.init p)
        | None => rslot acc n t s
        end.
Proof.
  induction fonts as [|[[[n0 t0] s0] f0] fonts IH]; intros acc Hc; simpl.
  - exists acc. split; [reflexivity|]. reflexivity.
  - assert (Hc' : forall n t s f, In (n, t, s, f) fonts -> MusicFontFile.install f = true ->
                    MusicFontFamily.check_file w (MusicFontFile.file f) = Ok (n, t, s)).
    { intros n t s f Hin. apply Hc. now right. }
    destruct (MusicFontFile.install f0) eqn:Hi.
    + specialize (Hc n0 t0 s0 f0 (or_introl eq_refl) Hi).
      destruct (registry_add_file_ok w acc _ n0 t0 s0 Hc) as (x & Hx & _).
      rewrite Hx. destruct (IH (Dict.set n0 x acc) Hc') as (inst & Hinst & Hs).
      exists inst. split; [exact Hinst|]. intros n t s. rewrite Hs.
      destruct (last_flagged fonts (n, t, s)); [reflexivity|].
      rewrite (rslot_add_file w acc _ _ n0 t0 s0 n t s Hc Hx). simpl.
      destruct (decide ((n0, t0, s0) = (n, t, s))) as [E|E].
      * now rewrite bool_decide_true.
      * now rewrite bool_decide_false.
    + destruct (IH acc Hc') as (inst & Hinst & Hs).
      exists inst. split; [exact Hinst|]. intros n t s. rewrite Hs.
      destruct (last_flagged fonts (n, t, s)); reflexivity.
Qed.

Lemma last_flagged_in fonts k p :
  last_flagged fonts k = Some p ->
  exists f, In (k, f) fonts /\ MusicFontFile.install f = true /\ MusicFontFile.file f = p.
Proof.
  induction fonts as [|[k' f'] fonts IH]; simpl; [discriminate|].
  destruct (last_flagged fonts k) as [q|] eqn:E.
  - intros H. injection H as ->. destruct (IH eq_refl) as (f & Hin & Hf).
    exists f. split; [now right|exact Hf].
  - destruct (MusicFontFile.install f') eqn:Hi; simpl; [|discriminate].
    case_bool_decide as Hd; [|discriminate]. subst k'.
    intros H. injection H as <-. exists f'. split; [now left|]. auto.
Qed.

Lemma last_flagged_some fonts k f :
  In (k, f) fonts -> MusicFontFile.install f = true ->
  exists p, last_flagged fonts k = Some p.
Proof.
  induction fonts as [|[k' f'] fonts IH]; simpl; [tauto|].
  intros [Heq|Hin] Hi.
  - injection Heq as -> ->. destruct (last_flagged fonts k); [eauto|].
    rewrite Hi, bool_decide_true by reflexivity. simpl. eauto.
  - destruct (IH Hin Hi) as (p & ->). eauto.
Qed.

Lemma flag_families_rslot w mine theirs n t s :
  exists c, both (flagged_from w c)
                 (rslot mine n t s)
                 (rslot (fst (MusicFontRepo.flag_families w mine theirs)) n t s).
Proof.
  destruct (flag_families_spec w mine theirs) as (H & _). specialize (H n).
  unfold rslot.
  destruct (Dict.get n mine) as [x0|],
    (Dict.get n (fst (MusicFontRepo.flag_families w mine theirs))) as [x|];
    simpl in H; try contradiction.
  - destruct H as (Hg & _). apply Hg.
  - exists false. exact I.
Qed.

Lemma repo_flag_outcome w r installed :
  let st := MusicFontRepo.flag_families w (MusicFontRepo.families r) installed in
  match MusicFontRepo.collect w (AbstractMusicFontList.walk (fst st))
          AbstractMusicFontList.empty with
  | Ret _ inst =>
      MusicFontRepo.flag_for_install w r installed
      = Ret tt ({| MusicFontRepo.families := fst st; MusicFontRepo.root := MusicFontRepo.root r;
                   MusicFontRepo.installable_fonts := inst |}, snd st)
  | Raise e inst =>
      MusicFontRepo.flag_for_install w r installed
      = Raise e ({| MusicFontRepo.families := fst st; MusicFontRepo.root := MusicFontRepo.root r;
                    MusicFontRepo.installable_fonts := inst |}, snd st)
  end.
Proof.
  unfold MusicFontRepo.flag_for_install.
  destruct (MusicFontRepo.flag_families w (MusicFontRepo.families r) installed) as [m t].
  simpl.
  destruct (MusicFontRepo.collect w (AbstractMusicFontList.walk m)
              AbstractMusicFontList.empty) as [[] inst|e inst]; reflexivity.
Qed.

(** C10.  Flag a repo against [T1] and then, with no ingestion in
    between, against [T2].  Every file flagged after the first call is
    still flagged after the second, whatever [T2] holds and whatever
    has become of the files.  If moreover the files of the repo sit in
    the slots their names say (as [add_tree] leaves them) and are all
    still there, the second call returns normally and every such file
    sits, by its path, in the rebuilt [installable_fonts]. *)
Theorem install_flags_monotone (w1 w2 : World) (r : MusicFontRepo.t)
    (T1 T2 : AbstractMusicFontList.t) :
  let r1 := fst (state_of (MusicFontRepo.flag_for_install w1 r T1)) in
  let o2 := MusicFontRepo.flag_for_install w2 r1 T2 in
  let r2 := fst (state_of o2) in
  (forall n t s f1,
      rslot (MusicFontRepo.families r1) n t s = Some f1 ->
      MusicFontFile.install f1 = true ->
      exists f2, rslot (MusicFontRepo.families r2) n t s = Some f2 /\
                 MusicFontFile.file f2 = MusicFontFile.file f1 /\
                 MusicFontFile.install f2 = true) /\
  (parsed (MusicFontRepo.families r) ->
   (forall n t s f, rslot (MusicFontRepo.families r) n t s = Some f ->
                    path_exists w2 (MusicFontFile.file f) = true) ->
   raised o2 = None /\
   forall n t s f1,
     rslot (MusicFontRepo.families r1) n t s = Some f1 ->
     MusicFontFile.install f1 = true ->
     rslot (MusicFontRepo.installable_fonts r2) n t s
     = Some (MusicFontFile.init (MusicFontFile.file f1))).
Proof.
  intros r1 o2 r2.
  assert (H1 : forall n t s, exists c,
             both (flagged_from w1 c)
                  (rslot (MusicFontRepo.families r) n t s)
                  (rslot (MusicFontRepo.families r1) n t s)).
  { intros n t s. subst r1. rewrite repo_flag_families. apply flag_families_rslot. }
  set (mine2 := fst (MusicFontRepo.flag_families w2 (MusicFontRepo.families r1) T2)).
  assert (H2 : forall n t s, exists c,
             both (flagged_from w2 c)
                  (rslot (MusicFontRepo.families r1) n t s) (rslot mine2 n t s)).
  { intros n t s. apply flag_families_rslot. }
  assert (Hkeep : forall n t s f1,
             rslot (MusicFontRepo.families r1) n t s = Some f1 ->
             MusicFontFile.install f1 = true ->
             exists f2, rslot mine2 n t s = Some f2 /\
                        MusicFontFile.file f2 = MusicFontFile.file f1 /\
                        MusicFontFile.install f2 = true).
  { intros n t s f1 Hf1 Hi1.
    destruct (H2 n t s) as (c2 & B2). rewrite Hf1 in B2.
    destruct (rslot mine2 n t s) as [f2|] eqn:E2; simpl in B2; [|contradiction].
    destruct B2 as (F2 & _ & I2). exists f2. repeat split; auto.
    rewrite I2, Hi1. reflexivity. }
  split.
  - intros n t s f1 Hf1 Hi1. subst r2 o2. rewrite repo_flag_families.
    now apply Hkeep.
  - intros Hp Hex.
    assert (Hcheck : forall n t s f,
               In (n, t, s, f) (AbstractMusicFontList.walk mine2) ->
               MusicFontFile.install f = true ->
               MusicFontFamily.check_file w2 (MusicFontFile.file f) = Ok (n, t, s)).
    { intros n t s f Hin _. apply registry_walk_spec in Hin.
      destruct (H1 n t s) as (c1 & B1), (H2 n t s) as (c2 & B2). rewrite Hin in B2.
      destruct (rslot (MusicFontRepo.families r1) n t s) as [fa|];
        simpl in B2; [|contradiction].
      destruct (rslot (MusicFontRepo.families r) n t s) as [f0|] eqn:E0;
        simpl in B1; [|contradiction].
      destruct B1 as (F1 & _), B2 as (F2 & _).
      apply check_file_of_parsed.
      - rewrite F2, F1. eapply Hex. exact E0.
      - rewrite F2, F1. eapply rslot_parsed; eauto. }
    destruct (collect_slots w2 _ AbstractMusicFontList.empty Hcheck) as (inst & Hinst & Hs).
    pose proof (repo_flag_outcome w2 r1 T2) as Ho. cbv zeta in Ho.
    fold mine2 in Ho. rewrite Hinst in Ho.
    split.
    + subst o2. now rewrite Ho.
    + intros n t s f1 Hf1 Hi1.
      destruct (Hkeep n t s f1 Hf1 Hi1) as (f2 & E2 & F2 & Hi2).
      subst r2 o2. rewrite Ho. simpl. rewrite Hs.
      assert (Hin : In (n, t, s, f2) (AbstractMusicFontList.walk mine2))
        by now apply registry_walk_spec.
      destruct (last_flagged_some _ _ _ Hin Hi2) as (p & Hp').
      rewrite Hp'. apply last_flagged_in in Hp'.
      destruct Hp' as (f' & Hin' & _ & <-).
      apply registry_walk_spec in Hin'. rewrite E2 in Hin'. injection Hin' as <-.
      now rewrite F2.
Qed.

Lemma example_repo_parsed : parsed (MusicFontRepo.families example_repo).
Proof. apply parsed_add_tree, parsed_empty. Qed.

Lemma example_repo_files_exist n t s f :
  rslot (MusicFontRepo.families example_repo) n t s = Some f ->
  path_exists example_world (MusicFontFile.file f) = true.
Proof.
  intros H. apply registry_walk_spec in H. vm_compute in H.
  destruct H as [H|[H|[H|[]]]]; injection H as <- <- <- <-; vm_compute; reflexivity.
Qed.

Lemma install_flags_monotone_witness :
  let r1 := fst (state_of (MusicFontRepo.flag_for_install example_world example_repo [])) in
  let o2 := MusicFontRepo.flag_for_install example_world r1
              (MusicFontRepo.families example_repo) in
  (exists f2,
      rslot (MusicFontRepo.families (fst (state_of o2))) "emmentaler" otf "11" = Some f2 /\
      MusicFontFile.file f2 = "/src/emmentaler-11.otf"%string /\
      MusicFontFile.install f2 = true) /\
  raised o2 = None /\
  rslot (MusicFontRepo.installable_fonts (fst (state_of o2))) "emmentaler" otf "11"
  = Some (MusicFontFile.init "/src/emmentaler-11.otf").
Proof.
  intros r1 o2.
  destruct (install_flags_monotone example_world example_world example_repo []
              (MusicFontRepo.families example_repo)) as (Hflag & Hinst).
  destruct (Hinst example_repo_parsed example_repo_files_exist) as (Hret & Hall).
  split; [|split; [exact Hret|]].
  - apply (Hflag "emmentaler"%string otf "11"%string
             (MusicFontFile.set_install (MusicFontFile.init "/src/emmentaler-11.otf")));
      vm_compute; reflexivity.
  - apply (Hall "emmentaler"%string otf "11"%string
             (MusicFontFile.set_install (MusicFontFile.init "/src/emmentaler-11.otf")));
      vm_compute; reflexivity.
Defined.

(** ** [InstalledMusicFonts.remove] *)

Lemma files_of_offending w x : InstalledMusicFonts.files_of w x = offending w x.
Proof.
  unfold InstalledMusicFonts.files_of, offending, family_paths.
  induction (MusicFontFamily.walk x) as [|[[t s] f] l IH]; [reflexivity|].
  cbn. destruct (is_symlink w (MusicFontFile.file f)); cbn; now rewrite <- IH.
Qed.

Lemma links_of_paths w x p :
  In p (InstalledMusicFonts.links_of w x) ->
  is_symlink w p = true /\
  exists t s f, slot x t s = Some f /\ MusicFontFile.file f = p.
Proof.
  unfold InstalledMusicFonts.links_of. intros H.
  apply list_elem_of_In, list_elem_of_omap in H.
  destruct H as ([[t s] f] & Hin & H).
  destruct (is_symlink w (MusicFontFile.file f)) eqn:E; [|discriminate].
  injection H as <-. split; [exact E|].
  exists t, s, f. split; [|reflexivity].
  apply family_walk_spec. now apply list_elem_of_In.
Qed.

Lemma has_real_file_offending w x : has_real_file w x -> offending w x <> [].
Proof.
  intros (t & s & f & Hs & Hl). apply family_walk_spec in Hs.
  unfold offending, family_paths.
  assert (Hin : In (Pathlib.str_path (MusicFontFile.file f))
                   (map Pathlib.str_path
                      (List.filter (fun p => negb (is_symlink w p))
                         (map (fun e => MusicFontFile.file (snd e)) (MusicFontFamily.walk x))))).
  { apply in_map. apply List.filter_In. split.
    - apply in_map_iff. exists (t, s, f). auto.
    - now rewrite Hl. }
  intros E. rewrite E in Hin. destruct Hin.
Qed.

Lemma offending_none_links w x t s f :
  offending w x = [] -> slot x t s = Some f ->
  is_symlink w (MusicFontFile.file f) = true.
Proof.
  intros E Hs. destruct (is_symlink w (MusicFontFile.file f)) eqn:Hl; [reflexivity|].
  exfalso. apply (has_real_file_offending w x); [|exact E]. exists t, s, f. auto.
Qed.

(** A family with a real file is refused, and nothing changes. *)
Lemma remove_family_refused tr w r name x :
  AbstractMusicFontList.family (InstalledMusicFonts.families r) name = Some x ->
  has_real_file w x ->
  InstalledMusicFonts.remove_family tr w r name
  = Raise (MusicFontFileRemoveException
             (tr (Str.join (String Str.nl "") (offending w x)))) (w, r).
Proof.
  intros Hf Hr. unfold InstalledMusicFonts.remove_family. rewrite Hf.
  rewrite files_of_offending. apply has_real_file_offending in Hr.
  destruct (offending w x); [contradiction|reflexivity].
Qed.

Lemma remove_app tr names1 : forall w r names2,
  InstalledMusicFonts.remove tr w r (names1 ++ names2)
  = match InstalledMusicFonts.remove tr w r names1 with
    | Ret _ (w', r') => InstalledMusicFonts.remove tr w' r' names2
    | Raise e st => Raise e st
    end.
Proof.
  induction names1 as [|n names1 IH]; intros w r names2; simpl; [reflexivity|].
  destruct (InstalledMusicFonts.remove_family tr w r n) as [[] [w' r']|e st];
    [apply IH|reflexivity].
Qed.

(** [unlink_all] touches the listed paths only. *)
Lemma unlink_all_others links : forall w p,
  ~ In p links ->
  nodes (fst (InstalledMusicFonts.unlink_all w links)) !! p = nodes w !! p.
Proof.
  induction links as [|q links IH]; intros w p Hp; simpl; [reflexivity|].
  unfold os_unlink.
  destruct (denied w (OpUnlink q)); [reflexivity|].
  destruct (nodes w !! q) as [[| | |]|] eqn:E; try reflexivity.
  all: rewrite IH by (intros H; apply Hp; now right).
  all: simpl; apply lookup_delete_ne; intros ->; apply Hp; now left.
Qed.

Lemma is_symlink_nodes w w' p :
  nodes w' !! p = nodes w !! p -> is_symlink w' p = is_symlink w p.
Proof. unfold is_symlink. now intros ->. Qed.

(** What one pass of the loop of [remove] leaves of a family that has a
    real file, in a registry whose files sit where their names say. *)
Lemma remove_family_keeps tr w r a name x :
  parsed (InstalledMusicFonts.families r) ->
  AbstractMusicFontList.family (InstalledMusicFonts.families r) name = Some x ->
  has_real_file w x ->
  let o := InstalledMusicFonts.remove_family tr w r a in
  parsed (InstalledMusicFonts.families (snd (state_of o))) /\
  AbstractMusicFontList.family (InstalledMusicFonts.families (snd (state_of o))) name
  = Some x /\
  (forall t s f, slot x t s = Some f ->
     nodes (fst (state_of o)) !! MusicFontFile.file f = nodes w !! MusicFontFile.file f) /\
  (a = name -> raised o <> None).
Proof.
  intros Hp Hf Hr o. subst o. unfold InstalledMusicFonts.remove_family.
  destruct (AbstractMusicFontList.family (InstalledMusicFonts.families r) a) as [xa|] eqn:Ea;
    simpl; [|repeat split; auto; discriminate].
  rewrite files_of_offending.
  destruct (offending w xa) as [|p ps] eqn:Eo; simpl; [|repeat split; auto; discriminate].
  assert (Hne : a <> name).
  { intros ->. rewrite Hf in Ea. injection Ea as <-.
    now apply (has_real_file_offending w x). }
  assert (Hkeep : forall t s f, slot x t s = Some f ->
            nodes (fst (InstalledMusicFonts.unlink_all w (InstalledMusicFonts.links_of w xa)))
              !! MusicFontFile.file f = nodes w !! MusicFontFile.file f).
  { intros t s f Hs. apply unlink_all_others. intros Hin.
    apply links_of_paths in Hin. destruct Hin as (_ & t' & s' & f' & Hs' & Hfile).
    unfold AbstractMusicFontList.family in *.
    pose proof (Hp _ _ (get_some_in _ _ _ Hf) _ _ _ Hs) as P1.
    pose proof (Hp _ _ (get_some_in _ _ _ Ea) _ _ _ Hs') as P2.
    rewrite Hfile, P1 in P2. injection P2 as E _ _. congruence. }
  destruct (InstalledMusicFonts.unlink_all w (InstalledMusicFonts.links_of w xa))
    as [w' [msg|]]; simpl in *.
  - repeat split; auto; try (intros E; contradiction).
  - repeat split; auto; try (intros E; contradiction).
    + now apply parsed_pop.
    + unfold AbstractMusicFontList.family in *. now rewrite get_pop_ne.
Qed.

Lemma has_real_file_nodes w w' x :
  (forall t s f, slot x t s = Some f ->
     nodes w' !! MusicFontFile.file f = nodes w !! MusicFontFile.file f) ->
  has_real_file w x -> has_real_file w' x.
Proof.
  intros H (t & s & f & Hs & Hl). exists t, s, f. split; [exact Hs|].
  rewrite <- Hl. apply is_symlink_nodes. eapply H. exact Hs.
Qed.

(** The same for a whole batch. *)
Lemma remove_keeps tr name x names : forall w r,
  parsed (InstalledMusicFonts.families r) ->
  AbstractMusicFontList.family (InstalledMusicFonts.families r) name = Some x ->
  has_real_file w x ->
  let o := InstalledMusicFonts.remove tr w r names in
  AbstractMusicFontList.family (InstalledMusicFonts.families (snd (state_of o))) name
  = Some x /\
  (forall t s f, slot x t s = Some f ->
     nodes (fst (state_of o)) !! MusicFontFile.file f = nodes w !! MusicFontFile.file f) /\
  (In name names -> raised o <> None).
Proof.
  induction names as [|a names IH]; intros w r Hp Hf Hr; simpl.
  - repeat split; auto; try (intros []).
  - pose proof (remove_family_keeps tr w r a name x Hp Hf Hr) as H. cbv zeta in H.
    destruct (InstalledMusicFonts.remove_family tr w r a) as [[] [w' r']|e [w' r']];
      simpl in H; destruct H as (Hp' & Hf' & Hn' & Ha').
    + pose proof (has_real_file_nodes w w' x Hn' Hr) as Hr'.
      destruct (IH w' r' Hp' Hf' Hr') as (I1 & I2 & I3).
      split; [exact I1|]. split.
      * intros t s f Hs. rewrite (I2 t s f Hs). now apply Hn' in Hs.
      * intros [E|Hin]; [exfalso; now apply Ha'|now apply I3].
    + simpl. repeat split; auto; try discriminate.
Qed.

Lemma offending_spec w x p :
  In p (offending w x) <->
  exists t s f, slot x t s = Some f /\ is_symlink w (MusicFontFile.file f) = false /\
                p = Pathlib.str_path (MusicFontFile.file f).
Proof.
  unfold offending, family_paths. rewrite in_map_iff. split.
  - intros (q & <- & Hq). apply List.filter_In in Hq. destruct Hq as (Hq & Hl).
    apply in_map_iff in Hq. destruct Hq as ([[t s] f] & <- & Hin).
    exists t, s, f. simpl in *. split; [now apply family_walk_spec|].
    split; [|reflexivity]. now destruct (is_symlink w (MusicFontFile.file f)).
  - intros (t & s & f & Hs & Hl & ->). exists (MusicFontFile.file f).
    split; [reflexivity|]. apply List.filter_In. split.
    + apply in_map_iff. exists (t, s, f). split; [reflexivity|]. now apply family_walk_spec.
    + now rewrite Hl.
Qed.

(** When the loop of [remove] reaches a family with a real file, the
    call ends there with the refusal, whatever follows in the batch. *)
Lemma remove_reaches_refusal tr w r pre name post w1 r1 x :
  InstalledMusicFonts.remove tr w r pre = Ret tt (w1, r1) ->
  AbstractMusicFontList.family (InstalledMusicFonts.families r1) name = Some x ->
  has_real_file w1 x ->
  InstalledMusicFonts.remove tr w r (pre ++ name :: post)
  = Raise (MusicFontFileRemoveException
             (tr (Str.join (String Str.nl "") (offending w1 x)))) (w1, r1).
Proof.
  intros Hpre Hf Hr. rewrite remove_app, Hpre. simpl.
  now rewrite (remove_family_refused tr w1 r1 name x Hf Hr).
Qed.


Lemma example_installed_parsed : parsed (InstalledMusicFonts.families example_installed).
Proof. apply parsed_add_tree, parsed_empty. Qed.

Lemma example_haydn_real : has_real_file example_world example_haydn.
Proof.
  exists otf, "11"%string, (MusicFontFile.init "/ly/fonts/otf/haydn-11.otf").
  split; vm_compute; reflexivity.
Qed.


(** C2, as the code has it.  A refusal ends the whole call: the result
    of the batch is the result of the batch cut after the refused
    family, and every family named later is left as it was, still
    registered and with all its links in place, also when it holds
    links only and would have been removed on its own. *)
Theorem remove_stops_at_refusal (tr : string -> string) (w : World)
    (r : InstalledMusicFonts.t) (pre : list string) (name : string) (post : list string)
    (w1 : World) (r1 : InstalledMusicFonts.t) (x : MusicFontFamily.t) :
  InstalledMusicFonts.remove tr w r pre = Ret tt (w1, r1) ->
  AbstractMusicFontList.family (InstalledMusicFonts.families r1) name = Some x ->
  has_real_file w1 x ->
  let o := InstalledMusicFonts.remove tr w r (pre ++ name :: post) in
  o = InstalledMusicFonts.remove tr w r (pre ++ [name]) /\
  (exists msg, raised o = Some (MusicFontFileRemoveException msg)) /\
  forall later y,
    In later post ->
    AbstractMusicFontList.family (InstalledMusicFonts.families r1) later = Some y ->
    AbstractMusicFontList.family (InstalledMusicFonts.families (snd (state_of o))) later
    = Some y /\
    forall p, In p (InstalledMusicFonts.links_of w1 y) ->
              is_symlink (fst (state_of o)) p = true.
Proof.
  intros Hpre Hf Hr o. subst o.
  rewrite (remove_reaches_refusal tr w r pre name post w1 r1 x Hpre Hf Hr).
  rewrite (remove_reaches_refusal tr w r pre name [] w1 r1 x Hpre Hf Hr).
  split; [reflexivity|]. split; [eexists; reflexivity|].
  intros later y _ Hy. simpl. split; [exact Hy|].
  intros p Hp. now apply links_of_paths in Hp.
Qed.

Lemma remove_stops_at_refusal_witness :
  let o := InstalledMusicFonts.remove (fun s => s) example_world example_installed
             ["haydn"; "cadence"]%string in
  o = InstalledMusicFonts.remove (fun s => s) example_world example_installed
        ["haydn"]%string /\
  (exists msg, raised o = Some (MusicFontFileRemoveException msg)).
Proof.
  destruct (remove_stops_at_refusal (fun s => s) example_world example_installed
              [] "haydn" ["cadence"]%string example_world example_installed example_haydn
              eq_refl (proj2 example_installed_families) example_haydn_real)
    as (Hcut & Hexn & _).
  split; [exact Hcut|exact Hexn].
Defined.

(** C2, the claim as written fails: in the batch [haydn, cadence] the
    family [haydn] holds a real file and is refused; [cadence] holds one
    link only and is removed when asked for alone, but after the batch
    it is still registered and its link is still on disk. *)
Lemma remove_batch_not_independent :
  let alone := InstalledMusicFonts.remove (fun s => s) example_world example_installed
                 ["cadence"]%string in
  let batch := InstalledMusicFonts.remove (fun s => s) example_world example_installed
                 ["haydn"; "cadence"]%string in
  (raised alone = None /\
   AbstractMusicFontList.families (InstalledMusicFonts.families (snd (state_of alone)))
   = ["haydn"]%string /\
   nodes (fst (state_of alone)) !! "/ly/fonts/otf/cadence-11.otf"%string = None) /\
  (raised batch = Some (MusicFontFileRemoveException "/ly/fonts/otf/haydn-11.otf") /\
   AbstractMusicFontList.families (InstalledMusicFonts.families (snd (state_of batch)))
   = ["cadence"; "haydn"]%string /\
   nodes (fst (state_of batch)) !! "/ly/fonts/otf/cadence-11.otf"%string
   = Some (NLink "/src/emmentaler-11.otf")).
Proof. repeat split; vm_compute; reflexivity. Qed.

(** ** [InstalledMusicFonts.install] *)

#[local] Arguments Ascii.eqb : simpl never.

Lemma basename_chars_app a b :
  existsb (Ascii.eqb Str.slash) b = false ->
  OsPath.basename_chars (a ++ Str.slash :: b) = b.
Proof.
  intros Hb. induction a as [|c a IH]; simpl.
  - rewrite Hb. reflexivity.
  - rewrite existsb_app. simpl. rewrite orb_true_r. exact IH.
Qed.

Lemma basename_chars_clean p :
  existsb (Ascii.eqb Str.slash) (OsPath.basename_chars p) = false.
Proof.
  induction p as [|c p IH]; simpl; [reflexivity|].
  destruct (existsb (Ascii.eqb Str.slash) p) eqn:E; [exact IH|].
  destruct (Ascii.eqb Str.slash c) eqn:Ec; [exact E|].
  simpl. now rewrite Ec, E.
Qed.

Lemma endswith_slash a :
  Str.endswith Str.slash a = true -> exists l, Str.chars a = l ++ [Str.slash].
Proof.
  unfold Str.endswith. intros H.
  destruct (rev (Str.chars a)) as [|d l] eqn:E; [discriminate|].
  apply Ascii.eqb_eq in H. subst d. exists (rev l).
  rewrite <- (rev_involutive (Str.chars a)), E. reflexivity.
Qed.

Lemma basename_join a b :
  existsb (Ascii.eqb Str.slash) (Str.chars b) = false ->
  OsPath.basename (OsPath.join a b) = b.
Proof.
  intros Hb. unfold OsPath.join.
  assert (Hs : Str.startswith Str.slash b = false).
  { destruct b as [|c b]; [reflexivity|]. unfold Str.chars in Hb. simpl in *.
    now apply orb_false_elim in Hb. }
  rewrite Hs. unfold OsPath.basename.
  destruct (String.eqb a "") eqn:Ea; simpl.
  - apply String.eqb_eq in Ea. subst a. simpl.
    rewrite basename_chars_no_slash by exact Hb. apply of_chars_chars.
  - destruct (Str.endswith Str.slash a) eqn:Ee.
    + apply endswith_slash in Ee. destruct Ee as (l & Hl).
      rewrite chars_app, Hl, <- app_assoc. simpl.
      rewrite basename_chars_app by exact Hb. apply of_chars_chars.
    + rewrite !chars_app. change (Str.chars "/") with [Str.slash]. simpl.
      rewrite basename_chars_app by exact Hb. apply of_chars_chars.
Qed.

(** The target of an installation has the base name of its source. *)
Lemma basename_target r ty font_file :
  OsPath.basename (InstalledMusicFonts.target_of r ty font_file)
  = OsPath.basename font_file.
Proof.
  unfold InstalledMusicFonts.target_of, OsPath.join3. apply basename_join.
  unfold OsPath.basename. rewrite chars_of_chars. apply basename_chars_clean.
Qed.

Lemma parse_triplet_target r ty font_file :
  parse_triplet (InstalledMusicFonts.target_of r ty font_file) = parse_triplet font_file.
Proof. unfold parse_triplet, parse_filename. now rewrite basename_target. Qed.

(** The message of the exception, with no translation installed. *)
Lemma install_failed_message msg :
  InstalledMusicFonts.install_failed (fun s => s) msg
  = MusicFontPermissionException
      ("Font installation failed:" ++ String Str.nl msg).
Proof.
  unfold InstalledMusicFonts.install_failed, Str.format. f_equal.
  apply chars_inj. rewrite chars_of_chars. unfold Str.chars. simpl.
  now rewrite app_nil_r.
Qed.

Lemma register_slot w r target n t s :
  MusicFontFamily.check_file w target = Ok (n, t, s) ->
  exists r',
    InstalledMusicFonts.register w r target = Ret tt (w, r') /\
    InstalledMusicFonts.font_root r' = InstalledMusicFonts.font_root r /\
    forall n' t' s',
      rslot (InstalledMusicFonts.families r') n' t' s'
      = if decide ((n, t, s) = (n', t', s')) then Some (MusicFontFile.init target)
        else rslot (InstalledMusicFonts.families r) n' t' s'.
Proof.
  intros Hc. unfold InstalledMusicFonts.register.
  destruct (registry_add_file_ok w (InstalledMusicFonts.families r) target n t s Hc)
    as (x & Hx & _).
  rewrite Hx. eexists. split; [reflexivity|]. split; [reflexivity|].
  intros n' t' s'. simpl. now apply (rslot_add_file w _ _ target n t s).
Qed.

(** A link to a regular file leads somewhere. *)
Lemma exists_link_to_file w target src data :
  nodes w !! target = Some (NLink src) -> nodes w !! src = Some (NFile data) ->
  path_exists w target = true.
Proof.
  intros Ht Hs. unfold path_exists, os_stat, max_links. simpl. now rewrite Ht, Hs.
Qed.

Lemma exists_file w p data :
  nodes w !! p = Some (NFile data) -> path_exists w p = true.
Proof. intros H. unfold path_exists, os_stat, max_links. simpl. now rewrite H. Qed.

Lemma symlink_ok w src dst :
  symlinks w = true -> denied w (OpSymlink src dst) = false -> nodes w !! dst = None ->
  os_symlink w src dst = OsOk (with_nodes w (<[dst := NLink src]> (nodes w))).
Proof. unfold os_symlink. now intros -> -> ->. Qed.

Lemma copyfile_ok w src dst data :
  denied w (OpCopy src dst) = false -> nodes w !! src = Some (NFile data) ->
  nodes w !! dst = None ->
  copyfile w src dst = OsOk (with_nodes w (<[dst := NFile data]> (nodes w))).
Proof.
  unfold copyfile, os_stat, max_links. intros -> Hs Hd. simpl. rewrite Hs, Hd.
  destruct (String.eqb src dst) eqn:E; [|reflexivity].
  apply String.eqb_eq in E. subst dst. congruence.
Qed.

Lemma copyfile_never_unimplemented w src dst : copyfile w src dst <> OsNotImplemented.
Proof.
  unfold copyfile. destruct (denied w (OpCopy src dst)); [discriminate|].
  destruct (os_stat w src) as [[| | |]|]; try discriminate.
  destruct (write_path max_links (nodes w) src); [|discriminate].
  destruct (write_path max_links (nodes w) dst); [|discriminate].
  destruct (String.eqb _ _); discriminate.
Qed.



(** ** [VCSManager.slotDocumentUrlChanged] *)

Section Tracker.
Variables git_extract hg_extract svn_extract : string -> string * string.

(** An old URL inside a Git repository: the document is untracked and
    the slot returns; the new URL is not looked at. *)
Lemma url_changed_old_in_git m doc url old root_path relative_path :
  VCSManager.isEmpty old = false ->
  git_extract (VCSManager.path old) = (root_path, relative_path) ->
  VCSManager.found root_path = true ->
  VCSManager.slotDocumentUrlChanged git_extract hg_extract svn_extract m doc url old
  = Ret tt (VCSManager.called m (VCSManager.untrack_document root_path relative_path)).
Proof.
  intros He Hg Hf. unfold VCSManager.slotDocumentUrlChanged.
  now rewrite He, Hg, Hf.
Qed.

(** With no old URL the new one is resolved and tracked. *)
Lemma url_changed_no_old m doc url old :
  VCSManager.isEmpty old = true ->
  VCSManager.slotDocumentUrlChanged git_extract hg_extract svn_extract m doc url old
  = VCSManager.track_new git_extract hg_extract svn_extract m doc url.
Proof. intros He. unfold VCSManager.slotDocumentUrlChanged. now rewrite He. Qed.

End Tracker.

(** C5, on the code: document 1, shown in view 7, is renamed from
    [/repo/a.ly] to [/repo/b.ly], both inside the Git repository
    [/repo].  The slot untracks [a.ly] and returns: the repository
    manager never receives [track_document] for [b.ly].  From an empty
    old URL the same new URL is tracked. *)
Theorem url_change_in_repository_not_tracked :
  (exists m,
      VCSManager.slotDocumentUrlChanged example_git_extract no_extract no_extract
        example_manager 1 (file_url "/repo/b.ly") (file_url "/repo/a.ly")
      = Ret tt m /\
      VCSManager.git_repo_manager m
      = [VCSManager.track_document 7 "/repo" "a.ly";
         VCSManager.untrack_document "/repo" "a.ly"] /\
      ~ In (VCSManager.track_document 7 "/repo" "b.ly") (VCSManager.git_repo_manager m)) /\
  (exists m,
      VCSManager.slotDocumentUrlChanged example_git_extract no_extract no_extract
        example_manager 1 (file_url "/repo/b.ly") empty_url
      = Ret tt m /\
      VCSManager.git_repo_manager m
      = [VCSManager.track_document 7 "/repo" "a.ly";
         VCSManager.track_document 7 "/repo" "b.ly"]).
Proof.
  split.
  - eexists. split; [|split].
    + apply (url_changed_old_in_git example_git_extract no_extract no_extract
               example_manager 1 (file_url "/repo/b.ly") (file_url "/repo/a.ly")
               "/repo" "a.ly"); reflexivity.
    + reflexivity.
    + simpl. intros [H|[H|[]]]; discriminate H.
  - eexists. split; [reflexivity|]. reflexivity.
Qed.

(** * Further properties of the font classes *)

(** ** [check_file] *)

Lemma ftype_of_name_valid t :
  valid_type t -> exists ty, ftype_of_name t = Some ty /\ ftype_name ty = t.
Proof.
  intros [->|[->| ->]]; [exists otf|exists svg|exists woff]; split; reflexivity.
Qed.

(** [check_file] on a path that exists and has a font name. *)
Lemma check_file_match w file m :
  path_exists w file = true -> parse_filename file = Some m ->
  exists fam ty size,
    font_groups m = Some (fam, ftype_name ty, size) /\
    MusicFontFamily.check_file w file = Ok (fam, ty, size).
Proof.
  intros He Hp. unfold MusicFontFamily.check_file. rewrite He, Hp. simpl.
  unfold parse_filename in Hp. apply rmatch_font_re_shape in Hp.
  destruct Hp as (fam & size & t & Hg & _ & _ & Ht & _).
  destruct (ftype_of_name_valid t Ht) as (ty & Hty & Hn).
  exists fam, ty, size. rewrite Hg, Hty, Hn. auto.
Qed.

Lemma check_file_not_font w file :
  path_exists w file = true -> parse_filename file = None ->
  MusicFontFamily.check_file w file
  = Err (MusicFontException
           ("File " ++ file ++ " does not appear to be a valid font file")).
Proof. intros He Hp. unfold MusicFontFamily.check_file. now rewrite He, Hp. Qed.

Lemma check_file_raises w file e :
  MusicFontFamily.check_file w file = Err e -> exists msg, e = MusicFontException msg.
Proof.
  intros H. destruct (path_exists w file) eqn:He.
  - destruct (parse_filename file) as [m|] eqn:Hp.
    + destruct (check_file_match w file m He Hp) as (fam & ty & size & _ & Hc).
      rewrite Hc in H. discriminate.
    + rewrite (check_file_not_font w file He Hp) in H. injection H as <-. eauto.
  - rewrite (check_file_missing w file He) in H. injection H as <-. eauto.
Qed.

(** X1.  [check_file] looks for the file first and at its name second,
    and raises nothing but [MusicFontException]: a path that leads
    nowhere gives the "does not point to an existing file or link"
    message whatever its name; an existing path whose base name is not
    a font name gives the "does not appear to be a valid font file"
    message; any other path is accepted, with the family, type and size
    the pattern read. *)
Theorem check_file_cases (w : World) (file : string) :
  (path_exists w file = false ->
   MusicFontFamily.check_file w file
   = Err (MusicFontException (file ++ " does not point to an existing file or link"))) /\
  (path_exists w file = true -> parse_filename file = None ->
   MusicFontFamily.check_file w file
   = Err (MusicFontException
            ("File " ++ file ++ " does not appear to be a valid font file"))) /\
  (path_exists w file = true ->
   forall m, parse_filename file = Some m ->
   exists fam ty size,
     font_groups m = Some (fam, ftype_name ty, size) /\
     MusicFontFamily.check_file w file = Ok (fam, ty, size)) /\
  (forall e, MusicFontFamily.check_file w file = Err e -> exists msg, e = MusicFontException msg).
Proof.
  split; [apply check_file_missing|]. split; [apply check_file_not_font|].
  split; [intros He m; now apply check_file_match|].
  intros e. apply check_file_raises.
Qed.

Lemma check_file_cases_witness :
  MusicFontFamily.check_file example_world_readme "/src/nowhere-13.otf"
  = Err (MusicFontException
           "/src/nowhere-13.otf does not point to an existing file or link") /\
  MusicFontFamily.check_file example_world_readme "/src/README"
  = Err (MusicFontException "File /src/README does not appear to be a valid font file") /\
  (exists fam ty size,
      font_groups [("type", "otf"); ("size", "11"); ("family", "emmentaler")]%string
      = Some (fam, ftype_name ty, size) /\
      MusicFontFamily.check_file example_world_readme "/src/emmentaler-11.otf"
      = Ok (fam, ty, size)).
Proof.
  split; [|split].
  - apply (proj1 (check_file_cases example_world_readme "/src/nowhere-13.otf")).
    reflexivity.
  - apply (proj1 (proj2 (check_file_cases example_world_readme "/src/README")));
      reflexivity.
  - apply (proj1 (proj2 (proj2 (check_file_cases example_world_readme
                                  "/src/emmentaler-11.otf"))));
      reflexivity.
Defined.

(** ** [MusicFontFamily.add_file] *)

Lemma family_set_named x n :
  MusicFontFamily.family x = Some n -> n <> ""%string ->
  MusicFontFamily.family_set x = true.
Proof.
  intros Hf Hn. unfold MusicFontFamily.family_set. rewrite Hf.
  destruct (String.eqb n "") eqn:E; [apply String.eqb_eq in E; contradiction|reflexivity].
Qed.

Lemma family_add x ty size file :
  MusicFontFamily.family (MusicFontFamily.add x ty size file) = MusicFontFamily.family x.
Proof. destruct ty; reflexivity. Qed.


Lemma example_emmentaler_named : family_named example_emmentaler "emmentaler".
Proof.
  split; [reflexivity|]. intros ty size f H.
  pose proof (slot_in_keys _ _ _ _ H) as Hin. apply list_elem_of_In in Hin.
  vm_compute in Hin. destruct Hin as [E|[E|[]]]; injection E as <- <-;
    vm_compute in H; injection H as <-; eexists; eexists; vm_compute; reflexivity.
Qed.


(** ** [sorted], [sizes], [families] *)

Lemma in_insert_sorted x l y : In y (insert_sorted x l) <-> y = x \/ In y l.
Proof.
  induction l as [|z l IH]; simpl; [intuition|].
  destruct (String.leb x z); simpl; [intuition|]. rewrite IH. intuition.
Qed.

Lemma in_sorted l y : In y (sorted l) <-> In y l.
Proof.
  induction l as [|x l IH]; simpl; [tauto|].
  rewrite in_insert_sorted, IH. intuition.
Qed.

Lemma insert_sorted_perm x l : Permutation (insert_sorted x l) (x :: l).
Proof.
  induction l as [|z l IH]; simpl; [reflexivity|].
  destruct (String.leb x z); [reflexivity|].
  rewrite IH. apply perm_swap.
Qed.

Lemma sorted_perm l : Permutation (sorted l) l.
Proof.
  induction l as [|x l IH]; simpl; [reflexivity|].
  rewrite insert_sorted_perm. now constructor.
Qed.

Lemma insert_sorted_hd x l a :
  String.leb a x = true -> HdRel (fun a b => String.leb a b = true) a l ->
  HdRel (fun a b => String.leb a b = true) a (insert_sorted x l).
Proof.
  intros Hax Hl. destruct l as [|z l]; simpl; [now constructor|].
  destruct (String.leb x z); constructor; [assumption|]. now inversion Hl.
Qed.

Lemma insert_sorted_sorted x l :
  Sorted (fun a b => String.leb a b = true) l ->
  Sorted (fun a b => String.leb a b = true) (insert_sorted x l).
Proof.
  induction 1 as [|z l Hs IH Hhd]; simpl; [repeat constructor|].
  destruct (String.leb x z) eqn:E.
  - constructor; [now constructor|now constructor].
  - constructor; [exact IH|]. apply insert_sorted_hd; [|exact Hhd].
    destruct (String.leb_total x z) as [H|H]; [congruence|exact H].
Qed.

Lemma sorted_sorted l : Sorted (fun a b => String.leb a b = true) (sorted l).
Proof.
  induction l as [|x l IH]; simpl; [constructor|]. now apply insert_sorted_sorted.
Qed.

(** X3.  [families()] lists the family names of the registry, each as
    often as it is a key, in ascending order of their code points; so
    does [sizes(type)] for the sizes of a type. *)
Theorem families_sorted (reg : AbstractMusicFontList.t) (x : MusicFontFamily.t) (ty : ftype) :
  (Sorted (fun a b => String.leb a b = true) (AbstractMusicFontList.families reg) /\
   Permutation (AbstractMusicFontList.families reg) (Dict.keys reg) /\
   forall name, In name (AbstractMusicFontList.families reg)
                <-> AbstractMusicFontList.family reg name <> None) /\
  (Sorted (fun a b => String.leb a b = true) (MusicFontFamily.sizes x ty) /\
   Permutation (MusicFontFamily.sizes x ty) (Dict.keys (MusicFontFamily.files x ty)) /\
   forall size, In size (MusicFontFamily.sizes x ty) <-> slot x ty size <> None).
Proof.
  assert (Hkeys : forall V (d : Dict.t V) k, In k (Dict.keys d) <-> Dict.get k d <> None).
  { intros V d k. pose proof (get_none_keys k d) as H. split.
    - intros Hin E. now apply H in E.
    - intros Hne. destruct (Dict.get k d) eqn:E; [|contradiction].
      eapply get_some_in_keys. exact E. }
  split; (split; [apply sorted_sorted|]); (split; [apply sorted_perm|]).
  - intros name. unfold AbstractMusicFontList.families, AbstractMusicFontList.family.
    rewrite in_sorted. apply Hkeys.
  - intros size. unfold MusicFontFamily.sizes, slot. rewrite in_sorted. apply Hkeys.
Qed.

(** ** [missing_sizes], [has_brace], [is_complete] *)

Lemma size_registered x ty size :
  existsb (String.eqb size) (MusicFontFamily.sizes x ty) = true <-> slot x ty size <> None.
Proof.
  rewrite existsb_exists. split.
  - intros (s & Hin & E). apply String.eqb_eq in E. subst s.
    unfold MusicFontFamily.sizes in Hin. apply (proj1 (in_sorted _ _)) in Hin.
    intros Hn. unfold slot in Hn. apply (proj1 (get_none_keys _ _)) in Hn.
    exact (Hn Hin).
  - intros Hne. exists size. split; [|apply String.eqb_refl].
    unfold MusicFontFamily.sizes. apply in_sorted.
    unfold slot in Hne. destruct (Dict.get size (MusicFontFamily.files x ty)) eqn:E;
      [|contradiction].
    eapply get_some_in_keys. exact E.
Qed.

Lemma missing_sizes_in x ty size :
  In size (MusicFontFamily.missing_sizes x ty) <->
  In size MusicFontFamily.sizes_list /\ slot x ty size = None.
Proof.
  unfold MusicFontFamily.missing_sizes. rewrite List.filter_In.
  pose proof (size_registered x ty size) as H.
  destruct (existsb (String.eqb size) (MusicFontFamily.sizes x ty)); simpl.
  - split; [intros [_ E]; discriminate|].
    intros [_ E]. exfalso. apply (proj1 H); auto.
  - split; [|tauto]. intros [Hin _]. split; [exact Hin|].
    destruct (slot x ty size) eqn:E; [|reflexivity].
    assert (Hne : Some t <> None) by discriminate.
    apply (proj2 H) in Hne. discriminate.
Qed.

(** X4.  [missing_sizes(type)] is the list of the eight sizes in its
    own order with the registered ones struck out; a size that is not
    one of the eight never appears, registered or not. *)
Theorem missing_sizes_spec (x : MusicFontFamily.t) (ty : ftype) :
  sublist (MusicFontFamily.missing_sizes x ty) MusicFontFamily.sizes_list /\
  (forall size,
      In size (MusicFontFamily.missing_sizes x ty) <->
      In size MusicFontFamily.sizes_list /\ slot x ty size = None) /\
  (MusicFontFamily.missing_sizes MusicFontFamily.empty ty = MusicFontFamily.sizes_list).
Proof.
  split; [|split].
  - unfold MusicFontFamily.missing_sizes.
    induction MusicFontFamily.sizes_list as [|s l IH]; simpl; [constructor|].
    destruct (negb _); now constructor.
  - apply missing_sizes_in.
  - destruct ty; reflexivity.
Qed.

Lemma is_complete_type_spec x ty :
  MusicFontFamily.is_complete_type x ty = true <->
  forall size, In size ("brace"%string :: MusicFontFamily.sizes_list) ->
               slot x ty size <> None.
Proof.
  unfold MusicFontFamily.is_complete_type, MusicFontFamily.has_brace, Dict.has.
  fold (slot x ty "brace"). split.
  - intros H. apply andb_prop in H. destruct H as [Hb Hm].
    destruct (MusicFontFamily.missing_sizes x ty) as [|m ms] eqn:E; [|discriminate].
    intros size [<-|Hin].
    + destruct (slot x ty "brace"); [discriminate|discriminate].
    + intros Hn.
      assert (Hmiss : In size (MusicFontFamily.missing_sizes x ty))
        by (apply missing_sizes_in; auto).
      rewrite E in Hmiss. destruct Hmiss.
  - intros H. apply andb_true_intro. split.
    + destruct (slot x ty "brace") eqn:E; [reflexivity|].
      exfalso. apply (H "brace"%string); [now left|exact E].
    + destruct (MusicFontFamily.missing_sizes x ty) as [|m ms] eqn:E; [reflexivity|].
      assert (Hmiss : In m (MusicFontFamily.missing_sizes x ty)) by (rewrite E; now left).
      apply missing_sizes_in in Hmiss. destruct Hmiss as [Hin Hn].
      exfalso. apply (H m); [now right|exact Hn].
Qed.

(** X5.  A family is complete for a type exactly when the brace and
    each of the eight sizes are registered for it, whatever the files
    are on disk, and complete when it is complete for [otf], [svg] and
    [woff]; slots of other sizes do not count. *)
Theorem is_complete_spec (x : MusicFontFamily.t) :
  (forall ty,
      MusicFontFamily.is_complete x (Some ty) = true <->
      forall size, In size ("brace"%string :: MusicFontFamily.sizes_list) ->
                   slot x ty size <> None) /\
  (MusicFontFamily.is_complete x None = true <->
   forall ty size, In size ("brace"%string :: MusicFontFamily.sizes_list) ->
                   slot x ty size <> None) /\
  (forall ty, MusicFontFamily.is_complete x (Some ty) = true ->
              MusicFontFamily.has_brace x ty = true /\
              MusicFontFamily.missing_sizes x ty = []).
Proof.
  split; [|split].
  - intros ty. simpl. apply is_complete_type_spec.
  - simpl. rewrite !andb_true_iff, !is_complete_type_spec. split.
    + intros [[H1 H2] H3] ty. destruct ty; assumption.
    + intros H. repeat split; apply H.
  - intros ty H. simpl in H. unfold MusicFontFamily.is_complete_type in H.
    apply andb_prop in H. destruct H as [Hb Hm]. split; [exact Hb|].
    destruct (MusicFontFamily.missing_sizes x ty); [reflexivity|discriminate].
Qed.

Lemma families_sorted_witness :
  In "haydn"%string
     (AbstractMusicFontList.families (InstalledMusicFonts.families example_installed)) /\
  In "11"%string (MusicFontFamily.sizes example_haydn otf).
Proof.
  split.
  - apply (proj2 (proj1 (families_sorted (InstalledMusicFonts.families example_installed)
                           example_haydn otf))).
    vm_compute. discriminate.
  - apply (proj2 (proj2 (families_sorted (InstalledMusicFonts.families example_installed)
                           example_haydn otf))).
    vm_compute. discriminate.
Defined.

Lemma missing_sizes_spec_witness :
  In "13"%string (MusicFontFamily.missing_sizes example_emmentaler otf) /\
  ~ In "brace"%string (MusicFontFamily.missing_sizes example_emmentaler svg).
Proof.
  split.
  - apply (proj1 (proj2 (missing_sizes_spec example_emmentaler otf))).
    split; [vm_compute; tauto|reflexivity].
  - intros H. apply (proj1 (proj2 (missing_sizes_spec example_emmentaler svg))) in H.
    destruct H as [H _]. vm_compute in H.
    repeat (destruct H as [H|H]; [discriminate H|]). exact H.
Defined.

Lemma is_complete_spec_witness :
  (forall size, In size ("brace"%string :: MusicFontFamily.sizes_list) ->
                slot example_complete otf size <> None) /\
  MusicFontFamily.is_complete example_complete None = false.
Proof.
  split.
  - apply (proj1 (is_complete_spec example_complete) otf). vm_compute. reflexivity.
  - destruct (MusicFontFamily.is_complete example_complete None) eqn:E; [|reflexivity].
    pose proof (proj1 (proj1 (proj2 (is_complete_spec example_complete))) E) as H.
    exfalso. apply (H svg "brace"%string); [now left|reflexivity].
Defined.

(** ** [MusicFontFamily.remove] *)

Lemma pop_absent {V} k (d : Dict.t V) : Dict.get k d = None -> Dict.pop k d = d.
Proof.
  induction d as [|[k' v] d IH]; simpl; [reflexivity|].
  destruct (String.eqb k' k); [discriminate|]. intros H. now rewrite IH.
Qed.

Lemma pop_set_absent {V} k (v : V) (d : Dict.t V) :
  Dict.get k d = None -> Dict.pop k (Dict.set k v d) = d.
Proof.
  induction d as [|[k' v'] d IH]; simpl.
  - now rewrite String.eqb_refl.
  - destruct (String.eqb k' k) eqn:E; [discriminate|]. simpl. rewrite E.
    intros H. now rewrite IH.
Qed.

Lemma get_pop_nodup {V} k (d : Dict.t V) :
  NoDup (Dict.keys d) -> Dict.get k (Dict.pop k d) = None.
Proof.
  induction d as [|[k' v] d IH]; simpl; [reflexivity|].
  intros Hnd. apply NoDup_cons in Hnd. destruct Hnd as [Hk Hnd].
  destruct (String.eqb k' k) eqn:E; simpl.
  - apply String.eqb_eq in E. subst k'. apply get_none_keys.
    intros Hin. apply Hk. now apply list_elem_of_In.
  - rewrite E. now apply IH.
Qed.

Lemma set_files_same x ty : MusicFontFamily.set_files x ty (MusicFontFamily.files x ty) = x.
Proof. destruct x, ty; reflexivity. Qed.

Lemma set_files_twice x ty d d' :
  MusicFontFamily.set_files (MusicFontFamily.set_files x ty d) ty d'
  = MusicFontFamily.set_files x ty d'.
Proof. destruct x, ty; reflexivity. Qed.

(** X6.  [remove(type, size)] raises nothing: on an absent slot it
    changes nothing, it undoes an [add] into an absent slot, it leaves
    every other slot alone, and (the sizes of a type being distinct
    keys) the removed slot answers [MISSING] afterwards. *)
Theorem family_remove_spec (x : MusicFontFamily.t) (ty : ftype) (size : string) :
  (slot x ty size = None -> MusicFontFamily.remove x ty size = x) /\
  (forall file, slot x ty size = None ->
                MusicFontFamily.remove (MusicFontFamily.add x ty size file) ty size = x) /\
  (forall ty' size', (ty, size) <> (ty', size') ->
                     slot (MusicFontFamily.remove x ty size) ty' size' = slot x ty' size') /\
  (NoDup (Dict.keys (MusicFontFamily.files x ty)) ->
   forall w, MusicFontFamily.status w (MusicFontFamily.remove x ty size) ty size
             = (MISSING, MusicFontFamily.remove x ty size)).
Proof.
  unfold MusicFontFamily.remove, slot. split; [|split; [|split]].
  - intros H. rewrite pop_absent by exact H. apply set_files_same.
  - intros file H. unfold MusicFontFamily.add.
    rewrite files_set_files, decide_True by reflexivity.
    rewrite pop_set_absent by exact H. rewrite set_files_twice. apply set_files_same.
  - intros ty' size' Hne. rewrite files_set_files.
    destruct (decide (ty = ty')) as [<-|Hty]; [|reflexivity].
    apply get_pop_ne. congruence.
  - intros Hnd w. unfold MusicFontFamily.status.
    rewrite files_set_files, decide_True by reflexivity.
    now rewrite get_pop_nodup.
Qed.

Lemma family_remove_spec_witness :
  MusicFontFamily.remove
    (MusicFontFamily.add example_emmentaler otf "13" "/src/emmentaler-13.otf") otf "13"
  = example_emmentaler /\
  MusicFontFamily.status example_world (MusicFontFamily.remove example_haydn otf "11") otf "11"
  = (MISSING, MusicFontFamily.remove example_haydn otf "11").
Proof.
  split.
  - apply (proj1 (proj2 (family_remove_spec example_emmentaler otf "13"))). reflexivity.
  - apply (proj2 (proj2 (proj2 (family_remove_spec example_haydn otf "11")))).
    apply (bool_decide_unpack _). vm_compute. exact I.
Defined.

(** ** [AbstractMusicFontList.add_file], [add_tree] and the constructors *)

Lemma key_of_ok w p k : key_of w p = Some k <-> MusicFontFamily.check_file w p = Ok k.
Proof.
  unfold key_of. destruct (MusicFontFamily.check_file w p); split; congruence.
Qed.

Lemma last_hit_in w l k q :
  last_hit w l k = Some q -> In q l /\ MusicFontFamily.check_file w q = Ok k.
Proof.
  induction l as [|p l IH]; simpl; [discriminate|].
  destruct (last_hit w l k) as [q'|].
  - intros H. injection H as ->. destruct (IH eq_refl). auto.
  - case_decide as Hd; [|discriminate]. intros H. injection H as <-.
    split; [now left|now apply key_of_ok].
Qed.

Lemma last_hit_some w l k p :
  In p l -> MusicFontFamily.check_file w p = Ok k -> exists q, last_hit w l k = Some q.
Proof.
  induction l as [|p' l IH]; simpl; [tauto|]. intros [->|Hin] Hc.
  - destruct (last_hit w l k); [eauto|].
    rewrite decide_True by now apply key_of_ok. eauto.
  - destruct (IH Hin Hc) as (q & ->). eauto.
Qed.

(** X7.  [AbstractMusicFontList.add_file] fails exactly as [check_file]
    does, and then the registry is as before; it never refuses a file
    for its family.  An accepted file sits afterwards in the slot of
    its family, type and size, as a fresh font file; no other slot
    changes; the family names keep their order, a new name going to the
    end. *)
Theorem registry_add_file_spec (w : World) (reg : AbstractMusicFontList.t) (file : string) :
  (forall e, MusicFontFamily.check_file w file = Err e ->
             AbstractMusicFontList.add_file w reg file = Err e) /\
  (forall fam ty size,
      MusicFontFamily.check_file w file = Ok (fam, ty, size) ->
      exists reg',
        AbstractMusicFontList.add_file w reg file = Ok reg' /\
        rslot reg' fam ty size = Some (MusicFontFile.init file) /\
        (forall n t s, (fam, ty, size) <> (n, t, s) -> rslot reg' n t s = rslot reg n t s) /\
        Dict.keys reg'
        = (if Dict.has fam reg then Dict.keys reg else Dict.keys reg ++ [fam])).
Proof.
  split; [intros e; apply add_file_err|].
  intros fam ty size Hc.
  destruct (registry_add_file_ok w reg file fam ty size Hc) as (x & Hx & _).
  exists (Dict.set fam x reg). split; [exact Hx|]. split; [|split].
  - rewrite (rslot_add_file w reg _ file fam ty size fam ty size Hc Hx).
    now rewrite decide_True.
  - intros n t s Hne.
    rewrite (rslot_add_file w reg _ file fam ty size n t s Hc Hx).
    now rewrite decide_False.
  - unfold Dict.has. destruct (Dict.get fam reg) eqn:E.
    + apply keys_set_present. eapply get_some_in_keys. exact E.
    + apply keys_set_absent. now apply get_none_keys.
Qed.

Lemma registry_add_file_spec_witness :
  AbstractMusicFontList.add_file example_world
    (InstalledMusicFonts.families example_installed) "/ly/fonts/otf/cadence-13.otf"
  = Err (MusicFontException
           "/ly/fonts/otf/cadence-13.otf does not point to an existing file or link") /\
  exists reg',
    AbstractMusicFontList.add_file example_world
      (InstalledMusicFonts.families example_installed) "/src/emmentaler-11.otf" = Ok reg' /\
    rslot reg' "emmentaler" otf "11" = Some (MusicFontFile.init "/src/emmentaler-11.otf") /\
    Dict.keys reg' = ["cadence"; "haydn"; "emmentaler"]%string.
Proof.
  split.
  - apply (proj1 (registry_add_file_spec example_world _ _)). reflexivity.
  - destruct (proj2 (registry_add_file_spec example_world
                       (InstalledMusicFonts.families example_installed)
                       "/src/emmentaler-11.otf")
                "emmentaler"%string otf "11"%string eq_refl)
      as (reg' & Ha & Hs & _ & Hk).
    exists reg'. split; [exact Ha|]. split; [exact Hs|]. exact Hk.
Defined.

(** X8.  [add_tree(root)] raises nothing and removes nothing.  Every
    path of the walk that [check_file] accepts has its family among
    [families()] afterwards, and its slot holds a fresh font file for a
    path of the walk accepted into that slot (the last one); the paths
    [check_file] refuses are skipped.  A file found in a slot
    afterwards was there before or comes from the walk; a registry
    whose files sat in the slots their names say is still so. *)
Theorem add_tree_registers (w : World) (reg : AbstractMusicFontList.t) (root : string) :
  let reg' := AbstractMusicFontList.add_tree w reg root in
  (forall p fam ty size,
      In p (tree_files w root) ->
      MusicFontFamily.check_file w p = Ok (fam, ty, size) ->
      In fam (AbstractMusicFontList.families reg') /\
      exists q, In q (tree_files w root) /\
                MusicFontFamily.check_file w q = Ok (fam, ty, size) /\
                rslot reg' fam ty size = Some (MusicFontFile.init q)) /\
  (forall n t s f,
      rslot reg' n t s = Some f ->
      rslot reg n t s = Some f \/
      exists q, In q (tree_files w root) /\
                MusicFontFamily.check_file w q = Ok (n, t, s) /\
                f = MusicFontFile.init q) /\
  (forall name, In name (AbstractMusicFontList.families reg) ->
                In name (AbstractMusicFontList.families reg')) /\
  (parsed reg -> parsed reg').
Proof.
  intros reg'. subst reg'. split; [|split; [|split]].
  - intros p fam ty size Hin Hc. split.
    + unfold AbstractMusicFontList.families. apply in_sorted. rewrite add_tree_fold.
      eapply keys_fold_try_hit; [exact Hin|]. apply key_of_ok. exact Hc.
    + rewrite add_tree_fold, rslot_fold_try.
      destruct (last_hit_some w _ _ _ Hin Hc) as (q & Hq). rewrite Hq.
      apply last_hit_in in Hq. destruct Hq. eauto.
  - intros n t s f. rewrite add_tree_fold, rslot_fold_try.
    destruct (last_hit w (tree_files w root) (n, t, s)) as [q|] eqn:Hq; [|auto].
    intros H. injection H as <-. right. apply last_hit_in in Hq. destruct Hq. eauto.
  - intros name. unfold AbstractMusicFontList.families. rewrite !in_sorted, add_tree_fold.
    apply keys_fold_try_incl.
  - apply parsed_add_tree.
Qed.

Lemma add_tree_registers_witness :
  let reg' := AbstractMusicFontList.add_tree example_world
                (InstalledMusicFonts.families example_installed) "/src" in
  In "emmentaler"%string (AbstractMusicFontList.families reg') /\
  In "haydn"%string (AbstractMusicFontList.families reg') /\
  parsed reg'.
Proof.
  intros reg'.
  destruct (add_tree_registers example_world
              (InstalledMusicFonts.families example_installed) "/src")
    as (Hreg & _ & Hkeep & Hparsed).
  split; [|split].
  - apply (Hreg "/src/emmentaler-brace.otf"%string "emmentaler"%string otf "brace"%string).
    + vm_compute. tauto.
    + reflexivity.
  - apply Hkeep. vm_compute. tauto.
  - apply Hparsed, example_installed_parsed.
Defined.

Lemma keyed_add_file w reg reg' file :
  keyed reg -> AbstractMusicFontList.add_file w reg file = Ok reg' -> keyed reg'.
Proof.
  intros Hk Ha. unfold AbstractMusicFontList.add_file in Ha.
  destruct (MusicFontFamily.check_file w file) as [[[n ty] size]|e] eqn:Hc; [|discriminate].
  destruct (Dict.get n reg) as [x|] eqn:E.
  - injection Ha as <-. intros name x' Hin. apply in_set in Hin.
    destruct Hin as [Heq|Hin]; [|now apply Hk].
    injection Heq as -> ->. rewrite family_add. apply Hk. now apply get_some_in.
  - unfold MusicFontFamily.init in Ha.
    destruct (String.eqb file "") eqn:Ef.
    { apply String.eqb_eq in Ef. now apply check_file_nonempty in Hc. }
    rewrite (family_add_file_fresh _ _ _ _ _ Hc) in Ha. injection Ha as <-.
    intros name x' Hin. apply in_set in Hin.
    destruct Hin as [Heq|Hin]; [|now apply Hk].
    injection Heq as -> ->. now rewrite family_add.
Qed.

Lemma keyed_add_tree w reg root :
  keyed reg -> keyed (AbstractMusicFontList.add_tree w reg root).
Proof.
  rewrite add_tree_fold. generalize (tree_files w root). intros l. revert reg.
  induction l as [|p l IH]; intros reg Hk; simpl; [exact Hk|].
  apply IH. unfold AbstractMusicFontList.try_add_file.
  destruct (AbstractMusicFontList.add_file w reg p) eqn:E; [|exact Hk].
  eapply keyed_add_file; eauto.
Qed.

Lemma all_exist_add_tree w root :
  all_exist w (AbstractMusicFontList.add_tree w AbstractMusicFontList.empty root).
Proof.
  intros n t s f H. rewrite add_tree_fold, rslot_fold_try in H.
  destruct (last_hit w (tree_files w root) (n, t, s)) as [q|] eqn:Hq; [|discriminate].
  injection H as <-. apply last_hit_in in Hq. destruct Hq as (_ & Hc).
  simpl. eapply check_file_exists. exact Hc.
Qed.

(** X9.  What the constructors establish.  A [MusicFontRepo(root)] and
    an [InstalledMusicFonts(lilypond_info)] hold, in the world they
    scanned, only files that lead somewhere, each in the slot of the
    family, type and size its name says, and every family object
    carries the name it is stored under; the repo has nothing
    installable yet, and the installation's font root is
    [<datadir>/fonts]. *)
Theorem constructors_establish (w : World) (root datadir : string) :
  (parsed (MusicFontRepo.families (MusicFontRepo.init w root)) /\
   all_exist w (MusicFontRepo.families (MusicFontRepo.init w root)) /\
   keyed (MusicFontRepo.families (MusicFontRepo.init w root)) /\
   AbstractMusicFontList.walk (MusicFontRepo.installable_fonts (MusicFontRepo.init w root))
   = []) /\
  (parsed (InstalledMusicFonts.families (InstalledMusicFonts.init w datadir)) /\
   all_exist w (InstalledMusicFonts.families (InstalledMusicFonts.init w datadir)) /\
   keyed (InstalledMusicFonts.families (InstalledMusicFonts.init w datadir)) /\
   InstalledMusicFonts.font_root (InstalledMusicFonts.init w datadir)
   = OsPath.join datadir "fonts").
Proof.
  assert (Hk : keyed AbstractMusicFontList.empty) by (intros name x []).
  split; (split; [apply parsed_add_tree, parsed_empty|]);
    (split; [apply all_exist_add_tree|]);
    (split; [apply keyed_add_tree, Hk|reflexivity]).
Qed.

(** ** Font directories and targets *)

#[local] Arguments Ascii.eqb : simpl never.

Lemma join_relative_starts a b :
  Str.startswith Str.slash a = true -> Str.startswith Str.slash b = false ->
  Str.startswith Str.slash (OsPath.join a b) = true.
Proof.
  intros Ha Hb. unfold OsPath.join. rewrite Hb.
  destruct a as [|c a]; [discriminate|].
  destruct (String.eqb (String c a) "" || Str.endswith Str.slash (String c a)); exact Ha.
Qed.

Lemma join_absolute a b : Str.startswith Str.slash b = true -> OsPath.join a b = b.
Proof. intros H. unfold OsPath.join. now rewrite H. Qed.

(** X10.  [font_dir] sends [svg] and [woff] to one directory and [otf]
    to another; the target of an installation has the base name of its
    source, whatever the type; and for an absolute font root the target
    is that base name joined to the directory of the type. *)
Theorem font_dir_target (r : InstalledMusicFonts.t) (ty : ftype) (font_file : string) :
  InstalledMusicFonts.font_dir r svg = InstalledMusicFonts.font_dir r woff /\
  InstalledMusicFonts.font_dir r otf <> InstalledMusicFonts.font_dir r svg /\
  OsPath.basename (InstalledMusicFonts.target_of r ty font_file)
  = OsPath.basename font_file /\
  (Str.startswith Str.slash (InstalledMusicFonts.font_root r) = true ->
   InstalledMusicFonts.target_of r ty font_file
   = OsPath.join (InstalledMusicFonts.font_dir r ty) (OsPath.basename font_file)).
Proof.
  split; [reflexivity|]. split; [|split].
  - unfold InstalledMusicFonts.font_dir, OsPath.join. simpl.
    destruct (String.eqb (InstalledMusicFonts.font_root r) ""
              || Str.endswith Str.slash (InstalledMusicFonts.font_root r));
      intros H; apply (f_equal Str.chars) in H; rewrite !chars_app in H;
      apply app_inv_head in H; discriminate H.
  - apply basename_target.
  - intros Habs. unfold InstalledMusicFonts.target_of, OsPath.join3.
    rewrite (join_absolute (InstalledMusicFonts.font_root r)); [reflexivity|].
    unfold InstalledMusicFonts.font_dir. apply join_relative_starts; [exact Habs|].
    destruct ty; reflexivity.
Qed.

Lemma font_dir_target_witness :
  InstalledMusicFonts.target_of example_installed woff "/src/sub/emmentaler-11.woff"
  = "/ly/fonts/svg/emmentaler-11.woff"%string.
Proof.
  apply (proj2 (proj2 (proj2 (font_dir_target example_installed woff
                                "/src/sub/emmentaler-11.woff")))).
  reflexivity.
Defined.

(** ** [install], composed *)

Lemma rslot_family reg n t s f :
  rslot reg n t s = Some f ->
  exists x, AbstractMusicFontList.family reg n = Some x /\ slot x t s = Some f.
Proof.
  unfold rslot, AbstractMusicFontList.family.
  destruct (Dict.get n reg) as [x|]; [eauto|discriminate].
Qed.

Lemma registry_add_file_raises w reg file e :
  AbstractMusicFontList.add_file w reg file = Err e -> exists msg, e = MusicFontException msg.
Proof.
  intros H. destruct (MusicFontFamily.check_file w file) as [[[n t] s]|e'] eqn:Hc.
  - destruct (registry_add_file_ok w reg file n t s Hc) as (x & Hx & _).
    rewrite Hx in H. discriminate.
  - rewrite (add_file_err _ _ _ _ Hc) in H. injection H as <-.
    now apply (check_file_raises w file).
Qed.

Lemma register_new_family w r target n t s :
  MusicFontFamily.check_file w target = Ok (n, t, s) ->
  AbstractMusicFontList.family (InstalledMusicFonts.families r) n = None ->
  InstalledMusicFonts.register w r target
  = Ret tt (w, InstalledMusicFonts.with_families r
                 (Dict.set n (MusicFontFamily.add
                                (MusicFontFamily.set_family MusicFontFamily.empty n)
                                t s target)
                    (InstalledMusicFonts.families r))).
Proof.
  intros Hc Hn. unfold InstalledMusicFonts.register, AbstractMusicFontList.add_file.
  unfold AbstractMusicFontList.family in Hn. rewrite Hc, Hn.
  unfold MusicFontFamily.init.
  destruct (String.eqb target "") eqn:Ef.
  { apply String.eqb_eq in Ef. now apply check_file_nonempty in Hc. }
  now rewrite (family_add_file_fresh _ _ _ _ _ Hc).
Qed.

Lemma walk_single n t s file :
  MusicFontFamily.walk
    (MusicFontFamily.add (MusicFontFamily.set_family MusicFontFamily.empty n) t s file)
  = [(t, s, MusicFontFile.init file)].
Proof.
  unfold MusicFontFamily.walk. destruct t; cbn; rewrite String.eqb_refl; reflexivity.
Qed.

(** What the successful link of a regular font file leaves. *)
Lemma link_target_checked w r ty font_file data n t s :
  let target := InstalledMusicFonts.target_of r ty font_file in
  let w' := with_nodes w (<[target := NLink font_file]> (nodes w)) in
  nodes w !! font_file = Some (NFile data) -> nodes w !! target = None ->
  parse_triplet font_file = Some (n, ftype_name t, s) ->
  MusicFontFamily.check_file w' target = Ok (n, t, s) /\
  MusicFontFamily.resolve w' target = LINK.
Proof.
  intros target w' Hsrc Ht Hparse.
  assert (Hne : target <> font_file) by (intros E; rewrite E in Ht; congruence).
  assert (Hex : path_exists w' target = true).
  { apply (exists_link_to_file w' target font_file data); unfold w'; simpl.
    - apply lookup_insert_eq.
    - rewrite lookup_insert_ne by exact Hne. exact Hsrc. }
  split.
  - apply check_file_of_parsed; [exact Hex|].
    unfold target. now rewrite parse_triplet_target.
  - unfold MusicFontFamily.resolve. rewrite Hex.
    unfold is_symlink, w'. simpl. now rewrite lookup_insert_eq.
Qed.

Lemma copy_target_checked w r ty font_file data n t s :
  let target := InstalledMusicFonts.target_of r ty font_file in
  let w' := with_nodes w (<[target := NFile data]> (nodes w)) in
  parse_triplet font_file = Some (n, ftype_name t, s) ->
  MusicFontFamily.check_file w' target = Ok (n, t, s) /\
  MusicFontFamily.resolve w' target = FILE.
Proof.
  intros target w' Hparse.
  assert (Hn : nodes w' !! target = Some (NFile data))
    by (unfold w'; simpl; apply lookup_insert_eq).
  split.
  - apply check_file_of_parsed; [now apply (exists_file w' target data)|].
    unfold target. now rewrite parse_triplet_target.
  - assert (Hl : is_symlink w' target = false) by (unfold is_symlink; now rewrite Hn).
    assert (Hf : is_file w' target = true).
    { unfold is_file, os_stat, max_links. cbn [stat_fuel]. now rewrite Hn. }
    unfold MusicFontFamily.resolve. now rewrite Hl, Hf.
Qed.





(** ** What [install] and [install_flagged] raise *)

Lemma register_cases w r target :
  (exists r', InstalledMusicFonts.register w r target = Ret tt (w, r') /\
              InstalledMusicFonts.font_root r' = InstalledMusicFonts.font_root r /\
              (exists k, MusicFontFamily.check_file w target = Ok k) /\
              forall name, In name (Dict.keys (InstalledMusicFonts.families r)) ->
                           In name (Dict.keys (InstalledMusicFonts.families r'))) \/
  (exists msg, InstalledMusicFonts.register w r target
               = Raise (MusicFontException msg) (w, r)).
Proof.
  unfold InstalledMusicFonts.register.
  destruct (MusicFontFamily.check_file w target) as [[[n t] s]|e] eqn:Hc.
  - left. destruct (registry_add_file_ok w (InstalledMusicFonts.families r) target n t s Hc)
      as (x & Hx & _).
    rewrite Hx. eexists. split; [reflexivity|]. split; [reflexivity|]. split; [eauto|].
    intros name Hin. simpl.
    destruct (Dict.get n (InstalledMusicFonts.families r)) eqn:E.
    + rewrite keys_set_present; [exact Hin|]. eapply get_some_in_keys. exact E.
    + rewrite keys_set_absent by now apply get_none_keys. apply in_or_app. now left.
  - right. rewrite (add_file_err _ _ _ _ Hc).
    destruct (check_file_raises w target e Hc) as (msg & ->). eauto.
Qed.

Lemma write_path_at fuel m p q :
  write_path fuel m p = Some q -> q = p \/ exists t, m !! p = Some (NLink t).
Proof.
  destruct fuel; simpl; destruct (m !! p) as [[| | |]|]; intros H;
    try discriminate; try (injection H as <-; now left); right; eauto.
Qed.

Lemma copyfile_target w src dst w' :
  copyfile w src dst = OsOk w' -> nodes w' !! dst <> None.
Proof.
  unfold copyfile. destruct (denied w (OpCopy src dst)); [discriminate|].
  destruct (os_stat w src) as [[data| | |]|]; try discriminate.
  destruct (write_path max_links (nodes w) src) as [p|]; [|discriminate].
  destruct (write_path max_links (nodes w) dst) as [q|] eqn:Hq; [|discriminate].
  destruct (String.eqb p q); [discriminate|]. intros H. injection H as <-. simpl.
  destruct (decide (q = dst)) as [->|Hne].
  - rewrite lookup_insert_eq. discriminate.
  - rewrite lookup_insert_ne by exact Hne.
    apply write_path_at in Hq. destruct Hq as [->|(t & ->)]; [contradiction|discriminate].
Qed.

Lemma symlink_target w src dst w' :
  os_symlink w src dst = OsOk w' -> nodes w' !! dst <> None.
Proof.
  unfold os_symlink. destruct (negb (symlinks w)); [discriminate|].
  destruct (denied w (OpSymlink src dst)); [discriminate|].
  destruct (nodes w !! dst); [discriminate|]. intros H. injection H as <-. simpl.
  rewrite lookup_insert_eq. discriminate.
Qed.

(** The outcomes of [install(..., copy=True)]. *)
Lemma install_copy_cases tr w r ty font_file :
  let target := InstalledMusicFonts.target_of r ty font_file in
  (exists w' r', InstalledMusicFonts.install_copy tr w r ty font_file = Ret tt (w', r') /\
                 InstalledMusicFonts.font_root r' = InstalledMusicFonts.font_root r /\
                 (exists k, MusicFontFamily.check_file w' target = Ok k) /\
                 forall name, In name (Dict.keys (InstalledMusicFonts.families r)) ->
                              In name (Dict.keys (InstalledMusicFonts.families r'))) \/
  (exists msg, InstalledMusicFonts.install_copy tr w r ty font_file
               = Raise (MusicFontPermissionException msg) (w, r)) \/
  (exists msg w', InstalledMusicFonts.install_copy tr w r ty font_file
                  = Raise (MusicFontException msg) (w', r) /\
                  nodes w' !! target <> None).
Proof.
  intros target. unfold InstalledMusicFonts.install_copy. fold target.
  destruct (copyfile w font_file target) as [w'| |msg] eqn:Hcp.
  - destruct (register_cases w' r target) as [(r' & Hr & Hroot & Hk & Hkeys)|(msg & Hr)].
    + left. exists w', r'. auto.
    + right. right. exists msg, w'. split; [exact Hr|].
      now apply (copyfile_target w font_file target).
  - now apply copyfile_never_unimplemented in Hcp.
  - right. left. eexists. reflexivity.
Qed.

Lemma install_raise_cases (tr : string -> string) (w : World)
    (r : InstalledMusicFonts.t) (ty : ftype) (font_file : string) (copy : bool)
    (e : exn) (st : World * InstalledMusicFonts.t) :
  InstalledMusicFonts.install tr w r ty font_file copy = Raise e st ->
  (exists msg, e = MusicFontPermissionException msg /\ st = (w, r)) \/
  (exists msg w', e = MusicFontException msg /\ st = (w', r) /\
                  nodes w' !! InstalledMusicFonts.target_of r ty font_file <> None).
Proof.
  set (target := InstalledMusicFonts.target_of r ty font_file).
  assert (Hcopy : forall e st,
             InstalledMusicFonts.install_copy tr w r ty font_file = Raise e st ->
             (exists msg, e = MusicFontPermissionException msg /\ st = (w, r)) \/
             (exists msg w', e = MusicFontException msg /\ st = (w', r) /\
                             nodes w' !! target <> None)).
  { intros e0 st0 H.
    destruct (install_copy_cases tr w r ty font_file)
      as [(w' & r' & Hr & _)|[(msg & Hr)|(msg & w' & Hr & Hn)]];
      rewrite Hr in H; [discriminate| |]; injection H as <- <-.
    - left. eauto.
    - right. exists msg, w'. auto. }
  unfold InstalledMusicFonts.install. destruct copy; [apply Hcopy|]. fold target.
  destruct (os_symlink w font_file target) as [w'| |msg] eqn:Hsl.
  - intros H. destruct (register_cases w' r target) as [(r' & Hr & _)|(msg & Hr)];
      rewrite Hr in H; [discriminate|]. injection H as <- <-.
    right. exists msg, w'. split; [reflexivity|]. split; [reflexivity|].
    now apply (symlink_target w font_file target).
  - destruct (install_copy_cases tr w r ty font_file)
      as [(w' & r' & Hr & Hroot & (k & Hk) & _)|[(msg & Hr)|(msg & w' & Hr & Hn)]];
      rewrite Hr.
    + assert (Ht : InstalledMusicFonts.target_of r' ty font_file = target).
      { unfold target, InstalledMusicFonts.target_of, InstalledMusicFonts.font_dir.
        now rewrite Hroot. }
      destruct (register_cases w' r' target) as [(r2 & Hr2 & _)|(msg & Hr2)];
        rewrite Hr2; [discriminate|].
      unfold InstalledMusicFonts.register in Hr2.
      destruct k as [[n t] s].
      destruct (registry_add_file_ok w' (InstalledMusicFonts.families r') target n t s Hk)
        as (x & Hx & _).
      rewrite Hx in Hr2. discriminate.
    + intros H. injection H as <- <-. left. eauto.
    + intros H. injection H as <- <-. right. exists msg, w'. auto.
  - intros H. injection H as <- <-. left. eauto.
Qed.



(** The registry part of the state an [install] leaves: the same font
    root, and no family lost. *)
Lemma install_registry tr w r ty font_file copy :
  let r' := snd (state_of (InstalledMusicFonts.install tr w r ty font_file copy)) in
  InstalledMusicFonts.font_root r' = InstalledMusicFonts.font_root r /\
  forall name, In name (Dict.keys (InstalledMusicFonts.families r)) ->
               In name (Dict.keys (InstalledMusicFonts.families r')).
Proof.
  intros r'. subst r'.
  destruct (InstalledMusicFonts.install tr w r ty font_file copy) as [[] [w' r']|e st] eqn:Hi.
  - simpl. set (target := InstalledMusicFonts.target_of r ty font_file).
    assert (Hcopy : forall w' r',
               InstalledMusicFonts.install_copy tr w r ty font_file = Ret tt (w', r') ->
               InstalledMusicFonts.font_root r' = InstalledMusicFonts.font_root r /\
               forall name, In name (Dict.keys (InstalledMusicFonts.families r)) ->
                            In name (Dict.keys (InstalledMusicFonts.families r'))).
    { intros w0 r0 H.
      destruct (install_copy_cases tr w r ty font_file)
        as [(w1 & r1 & Hr & Hroot & _ & Hkeys)|[(msg & Hr)|(msg & w1 & Hr & _)]];
        rewrite Hr in H; try discriminate.
      injection H as <- <-. auto. }
    unfold InstalledMusicFonts.install in Hi. destruct copy; [now apply (Hcopy w')|].
    fold target in Hi.
    destruct (os_symlink w font_file target) as [w1| |msg]; [| |discriminate].
    + destruct (register_cases w1 r target) as [(r1 & Hr & Hroot & _ & Hkeys)|(msg & Hr)];
        rewrite Hr in Hi; [|discriminate]. injection Hi as <- <-. auto.
    + destruct (InstalledMusicFonts.install_copy tr w r ty font_file)
        as [[] [w1 r1]|e st] eqn:Hc; [|discriminate].
      destruct (Hcopy w1 r1 eq_refl) as (Hroot1 & Hkeys1).
      destruct (register_cases w1 r1 target) as [(r2 & Hr & Hroot & _ & Hkeys)|(msg & Hr)];
        rewrite Hr in Hi; [|discriminate]. injection Hi as <- <-.
      split; [congruence|auto].
  - simpl. destruct (install_raise_cases tr w r ty font_file copy e st Hi)
      as [(msg & _ & ->)|(msg & w' & _ & -> & _)]; simpl; auto.
Qed.

Lemma install_all_app tr fonts1 : forall w target fonts2,
  install_all tr w target (fonts1 ++ fonts2)
  = match install_all tr w target fonts1 with
    | Ret _ (w', target') => install_all tr w' target' fonts2
    | Raise e st => Raise e st
    end.
Proof.
  induction fonts1 as [|[[[n ty] s] font] fonts1 IH]; intros w target fonts2;
    cbn [install_all app]; [reflexivity|].
  destruct (InstalledMusicFonts.install tr w target ty (MusicFontFile.file font) false)
    as [[] [w' t']|e st]; [apply IH|reflexivity].
Qed.

Lemma install_all_registry tr fonts : forall w target,
  let r' := snd (state_of (install_all tr w target fonts)) in
  InstalledMusicFonts.font_root r' = InstalledMusicFonts.font_root target /\
  forall name, In name (Dict.keys (InstalledMusicFonts.families target)) ->
               In name (Dict.keys (InstalledMusicFonts.families r')).
Proof.
  induction fonts as [|[[[n ty] s] font] fonts IH]; intros w target;
    cbn [install_all]; [simpl; auto|].
  pose proof (install_registry tr w target ty (MusicFontFile.file font) false) as H.
  cbv zeta in H.
  destruct (InstalledMusicFonts.install tr w target ty (MusicFontFile.file font) false)
    as [[] [w' t']|e st]; cbn [state_of snd] in H; destruct H as (Hroot & Hkeys).
  - destruct (IH w' t') as (Hroot' & Hkeys'). split; [congruence|auto].
  - cbn [state_of snd]. auto.
Qed.

(** X14.  [install_flagged(target)] installs the installable fonts by
    link in walk order and stops at the first [install] that raises:
    the exception and the state are those of that call, the fonts
    before it stay installed and the fonts after it are not tried.
    Whatever the outcome, the target keeps its font root and every
    family it had. *)
Theorem install_flagged_stops (tr : string -> string) (w : World) (r : MusicFontRepo.t)
    (target : InstalledMusicFonts.t) :
  (forall fonts1 n ty s font fonts2 w1 t1 e st,
      AbstractMusicFontList.walk (MusicFontRepo.installable_fonts r)
      = fonts1 ++ (n, ty, s, font) :: fonts2 ->
      install_all tr w target fonts1 = Ret tt (w1, t1) ->
      InstalledMusicFonts.install tr w1 t1 ty (MusicFontFile.file font) false = Raise e st ->
      install_flagged tr w r target = Raise e st) /\
  (let t' := snd (state_of (install_flagged tr w r target)) in
   InstalledMusicFonts.font_root t' = InstalledMusicFonts.font_root target /\
   forall name, In name (AbstractMusicFontList.families (InstalledMusicFonts.families target)) ->
                In name (AbstractMusicFontList.families (InstalledMusicFonts.families t'))).
Proof.
  split.
  - intros fonts1 n ty s font fonts2 w1 t1 e st Hw H1 Hi.
    unfold install_flagged. rewrite Hw, install_all_app, H1. cbn [install_all].
    now rewrite Hi.
  - intros t'. subst t'. unfold install_flagged.
    destruct (install_all_registry tr
                (AbstractMusicFontList.walk (MusicFontRepo.installable_fonts r)) w target)
      as (Hroot & Hkeys).
    split; [exact Hroot|]. intros name. unfold AbstractMusicFontList.families.
    rewrite !in_sorted. apply Hkeys.
Qed.

Lemma install_flagged_stops_witness :
  install_flagged (fun s => s) example_world example_self_repo example_installed
  = Raise (MusicFontPermissionException
             ("Font installation failed:" ++ String Str.nl "OSError")%string)
          (example_world, example_installed).
Proof.
  eapply (proj1 (install_flagged_stops (fun s => s) example_world example_self_repo
                   example_installed) []).
  - vm_compute. reflexivity.
  - reflexivity.
  - vm_compute. reflexivity.
Defined.

(** * Further properties of the tracker *)

Section TrackerCases.
Variables git_extract hg_extract svn_extract : string -> string * string.
Variable git_available : bool.

(** X15.  Opening and closing.  [setCurrentDocument] always records
    the view of the document; [slotDocumentClosed] never forgets it.
    For a document with a URL inside a Git repository, Git being
    available, the two calls send the repository manager
    [track_document] and then [untrack_document] for the same root and
    relative path; otherwise they send it nothing. *)
Theorem open_close_balanced (m : VCSManager.t) (view doc : nat) (url : VCSManager.QUrl) :
  let m1 := VCSManager.setCurrentDocument git_extract git_available m view doc url in
  let m2 := VCSManager.slotDocumentClosed git_extract git_available m1 url in
  VCSManager.doc_view_map m1 !! doc = Some view /\
  VCSManager.doc_view_map m2 = VCSManager.doc_view_map m1 /\
  VCSManager.git_repo_manager m2
  = VCSManager.git_repo_manager m
    ++ (if negb (VCSManager.isEmpty url) && git_available
           && VCSManager.found (fst (git_extract (VCSManager.path url)))
        then [VCSManager.track_document view (fst (git_extract (VCSManager.path url)))
                (snd (git_extract (VCSManager.path url)));
              VCSManager.untrack_document (fst (git_extract (VCSManager.path url)))
                (snd (git_extract (VCSManager.path url)))]
        else []).
Proof.
  unfold VCSManager.setCurrentDocument, VCSManager.slotDocumentClosed.
  destruct (VCSManager.isEmpty url); simpl.
  - rewrite lookup_insert_eq, app_nil_r. auto.
  - destruct (git_extract (VCSManager.path url)) as [root rel]. simpl.
    destruct (git_available && VCSManager.found root); simpl.
    + rewrite lookup_insert_eq, <- app_assoc. auto.
    + rewrite lookup_insert_eq, app_nil_r. auto.
Qed.

(** X16.  [slotDocumentUrlChanged] beyond the Git case of the old URL.
    It never touches the map of views.  An old URL under Mercurial or
    Subversion ends the call with nothing done, whatever the new URL.
    With no old URL, or an old URL under no system, a new URL inside a
    Git repository is tracked with the view of the document, and the
    call raises [KeyError] when the document has no recorded view; a
    new URL outside Git changes nothing. *)
Theorem url_changed_cases (m : VCSManager.t) (doc : nat) (url old : VCSManager.QUrl) :
  let o := VCSManager.slotDocumentUrlChanged git_extract hg_extract svn_extract
             m doc url old in
  let under_other p :=
    VCSManager.found (fst (hg_extract p)) || VCSManager.found (fst (svn_extract p)) in
  VCSManager.doc_view_map (state_of o) = VCSManager.doc_view_map m /\
  (VCSManager.isEmpty old = false ->
   VCSManager.found (fst (git_extract (VCSManager.path old))) = false ->
   under_other (VCSManager.path old) = true ->
   o = Ret tt m) /\
  (VCSManager.isEmpty old = true \/
   (VCSManager.found (fst (git_extract (VCSManager.path old))) = false /\
    under_other (VCSManager.path old) = false) ->
   (VCSManager.found (fst (git_extract (VCSManager.path url))) = true ->
    match VCSManager.doc_view_map m !! doc with
    | Some view =>
        o = Ret tt (VCSManager.called m
                      (VCSManager.track_document view
                         (fst (git_extract (VCSManager.path url)))
                         (snd (git_extract (VCSManager.path url)))))
    | None => exists key, o = Raise (KeyError key) m
    end) /\
   (VCSManager.found (fst (git_extract (VCSManager.path url))) = false -> o = Ret tt m)).
Proof.
  intros o under_other. subst o under_other.
  assert (Hnew : forall root rel,
             git_extract (VCSManager.path url) = (root, rel) ->
             VCSManager.doc_view_map
               (state_of (VCSManager.track_new git_extract hg_extract svn_extract m doc url))
             = VCSManager.doc_view_map m /\
             (VCSManager.found root = true ->
              match VCSManager.doc_view_map m !! doc with
              | Some view =>
                  VCSManager.track_new git_extract hg_extract svn_extract m doc url
                  = Ret tt (VCSManager.called m (VCSManager.track_document view root rel))
              | None =>
                  exists key,
                    VCSManager.track_new git_extract hg_extract svn_extract m doc url
                    = Raise (KeyError key) m
              end) /\
             (VCSManager.found root = false ->
              VCSManager.track_new git_extract hg_extract svn_extract m doc url = Ret tt m)).
  { intros root rel Hg. unfold VCSManager.track_new. rewrite Hg.
    destruct (VCSManager.found root).
    - destruct (VCSManager.doc_view_map m !! doc); simpl;
        (split; [reflexivity|]); (split; [intros _; eauto|discriminate]).
    - destruct (VCSManager.found (fst (hg_extract (VCSManager.path url))));
        [|destruct (VCSManager.found (fst (svn_extract (VCSManager.path url))))];
        simpl; (split; [reflexivity|]); (split; [discriminate|reflexivity]). }
  destruct (git_extract (VCSManager.path url)) as [root rel] eqn:Hu.
  destruct (Hnew root rel eq_refl) as (N1 & N2 & N3). simpl.
  unfold VCSManager.slotDocumentUrlChanged.
  destruct (VCSManager.isEmpty old) eqn:He; simpl.
  - split; [exact N1|]. split; [discriminate|]. intros _. split; assumption.
  - destruct (git_extract (VCSManager.path old)) as [oroot orel]. simpl.
    destruct (VCSManager.found oroot) eqn:Hg; simpl.
    + split; [reflexivity|]. split; [discriminate|].
      intros [H|[H _]]; discriminate.
    + destruct (VCSManager.found (fst (hg_extract (VCSManager.path old)))) eqn:Hh; simpl.
      * split; [reflexivity|]. split; [reflexivity|]. intros [H|[_ H]]; discriminate.
      * destruct (VCSManager.found (fst (svn_extract (VCSManager.path old)))) eqn:Hs; simpl.
        -- split; [reflexivity|]. split; [reflexivity|]. intros [H|[_ H]]; discriminate.
        -- split; [exact N1|]. split; [discriminate|]. intros _. split; assumption.
Qed.

End TrackerCases.

Lemma url_changed_cases_witness :
  VCSManager.slotDocumentUrlChanged no_extract example_git_extract no_extract
    example_manager 1 (file_url "/elsewhere/b.ly") (file_url "/repo/a.ly")
  = Ret tt example_manager /\
  (exists key,
      VCSManager.slotDocumentUrlChanged example_git_extract no_extract no_extract
        example_manager 2 (file_url "/repo/b.ly") empty_url
      = Raise (KeyError key) example_manager).
Proof.
  split.
  - apply (proj1 (proj2 (url_changed_cases no_extract example_git_extract no_extract
                           example_manager 1 (file_url "/elsewhere/b.ly")
                           (file_url "/repo/a.ly")))); reflexivity.
  - destruct (proj2 (proj2 (url_changed_cases example_git_extract no_extract no_extract
                              example_manager 2 (file_url "/repo/b.ly") empty_url))
                (or_introl eq_refl)) as (Htrack & _).
    apply (Htrack eq_refl).
Defined.

(** * Further properties of flagging and walking *)

Lemma flag_one_keys x k t :
  Dict.keys (MusicFontFamily.files (flag_one x k) t)
  = Dict.keys (MusicFontFamily.files x t).
Proof.
  destruct k as [ty size]. unfold flag_one. simpl.
  destruct (Dict.get size (MusicFontFamily.files x ty)) eqn:E; [|reflexivity].
  eapply keys_set_files_present. exact E.
Qed.

Lemma flag_one_family x k :
  MusicFontFamily.family (flag_one x k) = MusicFontFamily.family x.
Proof.
  destruct k as [ty size]. unfold flag_one. simpl.
  destruct (Dict.get size (MusicFontFamily.files x ty)); [|reflexivity].
  destruct ty; reflexivity.
Qed.

Lemma flag_all_keys x t :
  Dict.keys (MusicFontFamily.files (MusicFontFamily.flag_all_for_install x) t)
  = Dict.keys (MusicFontFamily.files x t) /\
  MusicFontFamily.family (MusicFontFamily.flag_all_for_install x) = MusicFontFamily.family x.
Proof.
  rewrite flag_all_fold. generalize (slot_keys x). intros l.
  assert (H : forall acc,
             Dict.keys (MusicFontFamily.files (fold_left flag_one l acc) t)
             = Dict.keys (MusicFontFamily.files acc t) /\
             MusicFontFamily.family (fold_left flag_one l acc) = MusicFontFamily.family acc).
  { induction l as [|k l IH]; intros acc; simpl; [auto|].
    destruct (IH (flag_one acc k)) as (H1 & H2).
    now rewrite H1, H2, flag_one_keys, flag_one_family. }
  apply H.
Qed.

(** X17.  [flag_all_for_install] sets the install flag of every file of
    the family and changes nothing else: the same slots in the same
    order, the same paths, the same family name, and the status of
    every slot answers as before. *)
Theorem flag_all_for_install_spec (x : MusicFontFamily.t) (ty : ftype) (size : string) :
  let x' := MusicFontFamily.flag_all_for_install x in
  match slot x ty size, slot x' ty size with
  | Some f0, Some f =>
      MusicFontFile.install f = true /\
      MusicFontFile.file f = MusicFontFile.file f0
  | None, None => True
  | _, _ => False
  end /\
  (forall w, fst (MusicFontFamily.status w x' ty size)
             = fst (MusicFontFamily.status w x ty size)) /\
  Dict.keys (MusicFontFamily.files x' ty) = Dict.keys (MusicFontFamily.files x ty) /\
  MusicFontFamily.family x' = MusicFontFamily.family x.
Proof.
  intros x'. subst x'. split; [|split].
  - pose proof (flag_all_slots (plain_world ∅ (fun _ => [])) x ty size) as H.
    destruct (slot x ty size), (slot (MusicFontFamily.flag_all_for_install x) ty size);
      simpl in *; try tauto.
    destruct H as (Hf & _ & Hi). split; [|exact Hf]. rewrite Hi. apply orb_true_r.
  - intros w. rewrite !status_value.
    apply (both_flagged_status w true). apply flag_all_slots.
  - apply flag_all_keys.
Qed.

(** X18.  The two [walk]s yield the registered fonts and nothing else:
    a family yields (type, size, file) exactly for its filled slots, a
    registry yields (name, type, size, file) exactly for the filled
    slots of its families; so an empty registry yields nothing. *)
Theorem walk_yields_slots (reg : AbstractMusicFontList.t) (x : MusicFontFamily.t) :
  (forall t s f, In (t, s, f) (MusicFontFamily.walk x) <-> slot x t s = Some f) /\
  (forall n t s f,
      In (n, t, s, f) (AbstractMusicFontList.walk reg) <->
      exists y, AbstractMusicFontList.family reg n = Some y /\ slot y t s = Some f) /\
  (length (MusicFontFamily.walk x)
   = length (Dict.keys (MusicFontFamily.files x otf))
     + length (Dict.keys (MusicFontFamily.files x svg))
     + length (Dict.keys (MusicFontFamily.files x woff))).
Proof.
  split; [|split].
  - intros t s f. apply family_walk_spec.
  - intros n t s f. rewrite registry_walk_spec. unfold rslot, AbstractMusicFontList.family.
    destruct (Dict.get n reg) as [y|]; split.
    + intros H. eauto.
    + intros (y' & E & H). now injection E as <-.
    + discriminate.
    + intros (y' & E & _). discriminate.
  - unfold MusicFontFamily.walk, MusicFontFamily.types. cbn [flat_map].
    rewrite app_nil_r, !length_app.
    assert (H : forall ty,
               length (omap (fun size =>
                               match Dict.get size (MusicFontFamily.files x ty) with
                               | Some f => Some (ty, size, f)
                               | None => None
                               end) (Dict.keys (MusicFontFamily.files x ty)))
               = length (Dict.keys (MusicFontFamily.files x ty))).
    { intros ty.
      assert (G : forall l, (forall k, In k l -> In k (Dict.keys (MusicFontFamily.files x ty))) ->
                 length (omap (fun size =>
                                 match Dict.get size (MusicFontFamily.files x ty) with
                                 | Some f => Some (ty, size, f)
                                 | None => None
                                 end) l) = length l).
      { induction l as [|k l IH]; intros Hl; [reflexivity|]. cbn.
        destruct (Dict.get k (MusicFontFamily.files x ty)) eqn:E.
        - cbn. f_equal. apply IH. intros k' Hk'. apply Hl. now right.
        - apply get_none_keys in E. exfalso. apply E, Hl. now left. }
      apply G. auto. }
    rewrite !H. lia.
Qed.

Lemma walk_yields_slots_witness :
  In ("haydn"%string, otf, "13"%string, MusicFontFile.init "/ly/fonts/otf/haydn-13.otf")
     (AbstractMusicFontList.walk (InstalledMusicFonts.families example_installed)).
Proof.
  apply (proj1 (proj2 (walk_yields_slots (InstalledMusicFonts.families example_installed)
                         example_haydn))).
  exists example_haydn. split; [apply (proj2 example_installed_families)|reflexivity].
Defined.

(** * The staff size of a sample, and the install dialog *)

(** ** [handle_staff_size] *)

Lemma den_word cs : forall p rest g g',
  den (Re.word_chars cs) p rest g g' <-> p = cs /\ g' = g.
Proof.
  induction cs as [|c cs IH]; intros p rest g g'; [simpl; tauto|].
  destruct cs as [|c' cs].
  - simpl. split.
    + intros (d & -> & E & ->). apply Ascii.eqb_eq in E. now subst.
    + intros (-> & ->). exists c. rewrite Ascii.eqb_refl. auto.
  - change (Re.word_chars (c :: c' :: cs))
      with (Re.Cat (Re.Atom (Re.Lit c)) (Re.word_chars (c' :: cs))).
    cbn [den]. split.
    + intros (p1 & p2 & g1 & -> & (d & -> & E & ->) & H2).
      apply IH in H2. destruct H2 as (-> & ->).
      cbn [Re.atom_ok] in E. apply Ascii.eqb_eq in E. now subst.
    + intros (-> & ->). exists [c], (c' :: cs), g. split; [reflexivity|]. split.
      * exists c. cbn [Re.atom_ok]. rewrite Ascii.eqb_refl. auto.
      * apply IH. auto.
Qed.

Lemma of_chars_app a b : Str.of_chars (a ++ b) = (Str.of_chars a ++ Str.of_chars b)%string.
Proof. apply chars_inj. now rewrite chars_app, !chars_of_chars. Qed.

Lemma staff_re_den p rest g' :
  den staff_size_re p rest [] g' <->
  exists d ds,
    p = staff_prefix ++ d :: ds ++ [")"%char] /\
    Re.is_digit d = true /\ forallb Re.is_digit ds = true /\
    g' = [("0"%string, Str.of_chars p)].
Proof.
  unfold staff_size_re, Re.word. cbn [den]. fold staff_prefix. split.
  - intros (g1 & (p1 & p2 & g2 & -> & Hw & (p3 & p4 & g3 & -> & (d & -> & Hd & ->)
                                            & (p5 & p6 & g4 & -> & (Hds & ->)
                                               & (c & -> & Hc & ->)))) & ->).
    apply den_word in Hw. destruct Hw as (-> & ->).
    cbn [Re.atom_ok] in *. apply Ascii.eqb_eq in Hc. subst c.
    exists d, p5. auto.
  - intros (d & ds & -> & Hd & Hds & ->). eexists. split; [|reflexivity].
    exists staff_prefix, (d :: ds ++ [")"%char]), []. split; [reflexivity|]. split.
    + apply den_word. auto.
    + exists [d], (ds ++ [")"%char]), []. split; [reflexivity|]. split.
      * exists d. auto.
      * exists ds, [")"%char], []. split; [reflexivity|]. split; [auto|].
        exists ")"%char. auto.
Qed.

Lemma digits_then_paren ds : forall ds' t t',
  ds ++ ")"%char :: t = ds' ++ ")"%char :: t' ->
  forallb Re.is_digit ds = true -> forallb Re.is_digit ds' = true ->
  ds = ds' /\ t = t'.
Proof.
  induction ds as [|d ds IH]; intros [|d' ds'] t t' H Hd Hd'; simpl in *.
  - injection H as <-. auto.
  - injection H as <- _. apply andb_prop in Hd'. destruct Hd' as [E _].
    vm_compute in E. discriminate.
  - injection H as -> _. apply andb_prop in Hd. destruct Hd as [E _].
    vm_compute in E. discriminate.
  - injection H as <- H. apply andb_prop in Hd. apply andb_prop in Hd'.
    destruct (IH ds' t t' H) as (-> & ->); tauto.
Qed.

(** What a successful match of the pattern gives [handle_staff_size]. *)
Lemma handle_staff_size_cases content :
  (Re.rmatch staff_size_re content = None /\
   handle_staff_size content = (""%string, content)) \/
  (exists d ds rest,
      Str.chars content = (staff_prefix ++ d :: ds ++ [")"%char]) ++ rest /\
      Re.is_digit d = true /\ forallb Re.is_digit ds = true /\
      handle_staff_size content
      = (Str.of_chars (staff_prefix ++ d :: ds ++ [")"%char]), Str.of_chars rest)).
Proof.
  unfold handle_staff_size, Re.rmatch.
  destruct (Re.run staff_size_re (Str.chars content) []) as [|[rest g] l] eqn:E;
    [left; auto|].
  right.
  assert (Hin : In (rest, g) (Re.run staff_size_re (Str.chars content) []))
    by (rewrite E; now left).
  apply run_spec in Hin. destruct Hin as (p & Hc & D).
  apply staff_re_den in D. destruct D as (d & ds & -> & Hd & Hds & ->).
  exists d, ds, rest. split; [exact Hc|]. split; [exact Hd|]. split; [exact Hds|].
  cbn [snd Re.group]. rewrite String.eqb_refl, chars_of_chars, Hc.
  rewrite skipn_app, skipn_all, Nat.sub_diag. reflexivity.
Qed.



(** ** [FontsDialog.install_music_fonts] *)

Lemma collect_raises w fonts : forall acc e acc',
  MusicFontRepo.collect w fonts acc = Raise e acc' -> exists msg, e = MusicFontException msg.
Proof.
  induction fonts as [|[[[n ty] s] font] fonts IH]; intros acc e acc';
    cbn [MusicFontRepo.collect]; [discriminate|].
  destruct (MusicFontFile.install font); [|apply IH].
  destruct (AbstractMusicFontList.add_file w acc (MusicFontFile.file font)) as [acc1|e1] eqn:Ha.
  - apply IH.
  - intros H. injection H as <- <-. exact (registry_add_file_raises w acc _ e1 Ha).
Qed.

Lemma repo_flag_raises w r installed e st :
  MusicFontRepo.flag_for_install w r installed = Raise e st ->
  exists msg, e = MusicFontException msg.
Proof.
  unfold MusicFontRepo.flag_for_install.
  destruct (MusicFontRepo.flag_families w (MusicFontRepo.families r) installed) as [m t].
  destruct (MusicFontRepo.collect w (AbstractMusicFontList.walk m) AbstractMusicFontList.empty)
    as [[] inst|e0 inst] eqn:Hc; [discriminate|].
  intros H. injection H as <- <-. exact (collect_raises w _ _ _ _ Hc).
Qed.

Lemma install_all_raises tr fonts : forall w target e st,
  install_all tr w target fonts = Raise e st ->
  (exists msg, e = MusicFontPermissionException msg) \/
  (exists msg, e = MusicFontException msg).
Proof.
  induction fonts as [|[[[n ty] s] font] fonts IH]; intros w target e st;
    cbn [install_all]; [discriminate|].
  destruct (InstalledMusicFonts.install tr w target ty (MusicFontFile.file font) false)
    as [[] [w' t']|e0 st0] eqn:Hi.
  - apply IH.
  - intros H. injection H as <- <-.
    destruct (install_raise_cases tr w target ty _ false e0 st0 Hi)
      as [(msg & -> & _)|(msg & w' & -> & _)]; eauto.
Qed.

(** X20.  [install_music_fonts]: a cancelled file dialog changes
    nothing and shows nothing; with a directory chosen, an exception
    that leaves the method is a [MusicFontException], never a
    [MusicFontPermissionException]; a [MusicFontPermissionException] of
    [install_flagged] ends the method normally, the message box showing
    that exception and the fonts installed before it kept; and a
    message box is shown in no other case. *)
Theorem install_music_fonts_spec (tr : string -> string) (w : World)
    (installed : InstalledMusicFonts.t) :
  install_music_fonts tr w installed None = Ret tt (w, installed, None) /\
  (forall root_dir e st,
      install_music_fonts tr w installed (Some root_dir) = Raise e st ->
      exists msg, e = MusicFontException msg) /\
  (forall root_dir repo theirs msg st,
      MusicFontRepo.flag_for_install w (MusicFontRepo.init w root_dir)
        (InstalledMusicFonts.families installed) = Ret tt (repo, theirs) ->
      install_flagged tr w repo (InstalledMusicFonts.with_families installed theirs)
      = Raise (MusicFontPermissionException msg) st ->
      install_music_fonts tr w installed (Some root_dir)
      = Ret tt (fst st, snd st, Some (MusicFontPermissionException msg))) /\
  (forall selected w' installed' e,
      install_music_fonts tr w installed selected = Ret tt (w', installed', Some e) ->
      exists root_dir repo theirs,
        selected = Some root_dir /\
        MusicFontRepo.flag_for_install w (MusicFontRepo.init w root_dir)
          (InstalledMusicFonts.families installed) = Ret tt (repo, theirs) /\
        install_flagged tr w repo (InstalledMusicFonts.with_families installed theirs)
        = Raise e (w', installed') /\
        exists msg, e = MusicFontPermissionException msg).
Proof.
  split; [reflexivity|]. split; [|split].
  - intros root_dir e st. unfold install_music_fonts.
    destruct (MusicFontRepo.flag_for_install w (MusicFontRepo.init w root_dir)
                (InstalledMusicFonts.families installed)) as [[] [repo theirs]|e0 [repo theirs]] eqn:Hf.
    + destruct (install_flagged tr w repo (InstalledMusicFonts.with_families installed theirs))
        as [[] [w' t']|e1 [w' t']] eqn:Hi; [discriminate|].
      unfold install_flagged in Hi.
      destruct (install_all_raises tr _ _ _ _ _ Hi) as [(msg & ->)|(msg & ->)];
        [discriminate|].
      intros H. injection H as <- _. eauto.
    + intros H. injection H as <- _. exact (repo_flag_raises w _ _ _ _ Hf).
  - intros root_dir repo theirs msg [w' t'] Hf Hi. unfold install_music_fonts.
    now rewrite Hf, Hi.
  - intros selected w' installed' e. unfold install_music_fonts.
    destruct selected as [root_dir|]; [|discriminate].
    destruct (MusicFontRepo.flag_for_install w (MusicFontRepo.init w root_dir)
                (InstalledMusicFonts.families installed)) as [[] [repo theirs]|e0 [repo theirs]] eqn:Hf;
      [|discriminate].
    destruct (install_flagged tr w repo (InstalledMusicFonts.with_families installed theirs))
      as [[] [w1 t1]|e1 [w1 t1]] eqn:Hi; [discriminate|].
    destruct e1; try discriminate.
    intros H. injection H as <- <- <-.
    exists root_dir, repo, theirs. repeat split; eauto.
Qed.

Lemma install_music_fonts_spec_witness :
  (exists msg,
      MusicFontException
        "/ly/fonts/otf/gonville-11.otf does not point to an existing file or link"
      = MusicFontException msg) /\
  (exists st,
      install_music_fonts (fun s => s) example_world_locked
        (InstalledMusicFonts.init example_world_locked "/ly") (Some "/src")
      = Ret tt (fst st, snd st,
                Some (MusicFontPermissionException
                        ("Font installation failed:" ++ String Str.nl "Permission denied")%string))).
Proof.
  split.
  - eapply (proj1 (proj2 (install_music_fonts_spec (fun s => s) example_world_deep
                            (InstalledMusicFonts.init example_world_deep "/ly")))
              "/deep"%string).
    vm_compute. reflexivity.
  - eexists.
    eapply (proj1 (proj2 (proj2 (install_music_fonts_spec (fun s => s) example_world_locked
                                   (InstalledMusicFonts.init example_world_locked "/ly"))))
              "/src"%string).
    + vm_compute. reflexivity.
    + vm_compute. reflexivity.
Defined.
